(** * The process core of the Fletch VM

    A shallow embedding of [src/vm/process.cc]: the stack-limit word and its
    interrupt markers, the process factories, stack growth, the cook/uncook
    pass over chained stacks, the lookup-cache miss path, the mailbox native
    and the pending-signal slot.

    Conventions.  A [uword] is a [Z] in [0, 2^kBitsPerWord); an [int] is a
    [Z] in [-2^31, 2^31) and every assignment to an [int] goes through
    [to_int].  Pointers are addresses ([Z]), [NULL] is [0].  A failed
    [ASSERT], a bad cast and an access outside an object have no result:
    the operations that contain one return [option] and yield [None]
    there. *)

From stdpp Require Import base option list gmap.
From Stdlib Require Import ZArith Lia.

Local Open Scope Z_scope.

(** ** Platform constants *)

(** The constants the process core takes from its collaborators
    ([globals.h], [Platform], [Bytecode], the object layout).  None of them
    is defined in [process.cc]; they are parameters of the development. *)
Class Platform := {
  kBitsPerWord : Z;
  MaxStackSizeInWords : Z;
  kGuaranteedFrameSize : Z;
  kStackSize : Z;
  kArraySize : Z;
  kInstanceSize : Z;
  kLargeIntegerSize : Z;
  kFunctionSize : Z;
  kBcpSlotOffset : Z;
  word_bits : kBitsPerWord = 32 \/ kBitsPerWord = 64;
  max_stack_is_int : 0 <= MaxStackSizeInWords < 2 ^ 31;
  frame_size_nonneg : 0 <= kGuaranteedFrameSize;
  stack_header_positive : 0 < kStackSize;
  headers_nonneg : 0 <= kArraySize /\ 0 <= kInstanceSize /\ 0 <= kLargeIntegerSize
}.

Section Words.
Context {platform : Platform}.

Definition kWordSize : Z := kBitsPerWord / 8.

Definition to_uword (z : Z) : Z := z mod 2 ^ kBitsPerWord.

Definition is_uword (z : Z) : Prop := 0 <= z < 2 ^ kBitsPerWord.

(** Conversion to a 32-bit [int], two's complement. *)
Definition to_int (z : Z) : Z := (z + 2 ^ 31) mod 2 ^ 32 - 2 ^ 31.

Definition is_int (z : Z) : Prop := - 2 ^ 31 <= z < 2 ^ 31.

(** ** The stack-limit word *)

Definition kPreemptMarker : Z := Z.shiftl 1 0.
Definition kProfileMarker : Z := Z.shiftl 1 1.
Definition kDebugInterruptMarker : Z := Z.shiftl 1 2.
Definition kMaxStackMarker : Z := to_uword (Z.lnot (Z.shiftl 1 3 - 1)).

(** [std::atomic::compare_exchange_strong] on a cell: the new cell value,
    the value left in [expected], and whether the exchange happened. *)
Definition compare_exchange_strong (cell expected desired : Z) : Z * Z * bool :=
  if cell =? expected then (desired, expected, true) else (cell, cell, false).

(** [compare_exchange_weak] may also fail although the cell holds the
    expected value; [spurious] says whether this call does. *)
Definition compare_exchange_weak (spurious : bool) (cell expected desired : Z)
  : Z * Z * bool :=
  if spurious then (cell, cell, false)
  else compare_exchange_strong cell expected desired.

(** The loop of [SetStackMarker], started with [stack_limit] as the value
    read so far.  [fails] lists, for the successive iterations, whether the
    weak exchange fails spuriously; the loop is cut after the listed
    iterations and one more. *)
Fixpoint SetStackMarker_loop (fails : list bool) (marker cell stack_limit : Z)
  : option Z :=
  let updated_limit :=
    if stack_limit <? kMaxStackMarker then kMaxStackMarker else stack_limit in
  let updated_limit := Z.lor updated_limit marker in
  match fails with
  | [] =>
      let '(cell', _, ok) :=
        compare_exchange_weak false cell stack_limit updated_limit in
      if ok then Some cell' else None
  | spurious :: fails' =>
      let '(cell', stack_limit', ok) :=
        compare_exchange_weak spurious cell stack_limit updated_limit in
      if ok then Some cell' else SetStackMarker_loop fails' marker cell' stack_limit'
  end.

Fixpoint ClearStackMarker_loop (fails : list bool) (marker cell stack_limit : Z)
  : option Z :=
  if Z.land stack_limit marker =? 0 then None (* ASSERT *)
  else
    let updated_limit := Z.land stack_limit (to_uword (Z.lnot marker)) in
    match fails with
    | [] =>
        let '(cell', _, ok) :=
          compare_exchange_weak false cell stack_limit updated_limit in
        if ok then Some cell' else None
    | spurious :: fails' =>
        let '(cell', stack_limit', ok) :=
          compare_exchange_weak spurious cell stack_limit updated_limit in
        if ok then Some cell'
        else ClearStackMarker_loop fails' marker cell' stack_limit'
    end.

(** The effect of the two loops on the word when no other thread writes it
    in between: whatever the spurious failures, the update is applied once
    to the value the word holds. *)
Definition SetStackMarker (marker stack_limit_ : Z) : Z :=
  Z.lor (if stack_limit_ <? kMaxStackMarker then kMaxStackMarker
         else stack_limit_) marker.

Definition ClearStackMarker (marker stack_limit_ : Z) : option Z :=
  if Z.land stack_limit_ marker =? 0 then None (* ASSERT *)
  else Some (Z.land stack_limit_ (to_uword (Z.lnot marker))).

(** [UpdateStackLimit] on the word: [current_limit] is the value loaded,
    [new_stack_limit] the address [stack->Pointer(frame_size)]. *)
Definition UpdateStackLimit_word (current_limit new_stack_limit cell : Z) : Z :=
  if current_limit <=? kMaxStackMarker
  then fst (fst (compare_exchange_strong cell current_limit new_stack_limit))
  else cell.

Inductive Marker := Preempt | Profile | DebugInterrupt.

Definition marker_bit (m : Marker) : Z :=
  match m with
  | Preempt => kPreemptMarker
  | Profile => kProfileMarker
  | DebugInterrupt => kDebugInterruptMarker
  end.









End Words.

(** ** Objects and heaps *)

Inductive FailureKind :=
| RetryAfterGc | WrongArgumentType | IndexOutOfBounds | IllegalState.

(** A tagged value: a small integer, a pointer to a heap object, or one of
    the failure sentinels. *)
Inductive Object :=
| Smi (value : Z)
| HeapPointer (address : Z)
| Failure (kind : FailureKind).

Definition retry_after_gc : Object := Failure RetryAfterGc.
Definition Smi_zero : Object := Smi 0.

Definition IsFailure (o : Object) : bool :=
  match o with Failure _ => true | _ => false end.

Definition is_retry_after_gc (o : Object) : bool :=
  match o with Failure RetryAfterGc => true | _ => false end.

(** A stack: [top] (a word index), [next] (the chain used during
    collection) and the words; [length] is the number of words.  The words
    are raw machine words: tagged objects, byte-code pointers and
    frame-pointer links share the same slots. *)
Record Stack := {
  Stack_top : Z;
  Stack_next : Object;
  Stack_words : list Z
}.

Definition Stack_length (s : Stack) : Z := Z.of_nat (length (Stack_words s)).

Definition Stack_set_top (v : Z) (s : Stack) : Stack :=
  {| Stack_top := v; Stack_next := Stack_next s; Stack_words := Stack_words s |}.

Definition Stack_set_next (v : Object) (s : Stack) : Stack :=
  {| Stack_top := Stack_top s; Stack_next := v; Stack_words := Stack_words s |}.

Definition Stack_set_words (ws : list Z) (s : Stack) : Stack :=
  {| Stack_top := Stack_top s; Stack_next := Stack_next s; Stack_words := ws |}.

Inductive HeapObject :=
| ArrayObject (elements : list Object)
| StackObject (s : Stack)
| InstanceObject (klass : Z) (immutable : bool) (fields : list Object)
| LargeIntegerObject (value : Z).

(** Modelled from the spec: the [Heap] and its [Space] ([src/vm/heap.cc] and
    [src/vm/object_memory.cc] are not among the sources).  A space is a
    region with a [base], a [top] and a [limit]; allocation bumps [top] and
    fails when the request does not fit. *)
Record Heap := {
  allocation_base : Z;
  allocation_top : Z;
  allocation_limit : Z;
  foreign_memory : Z;
  weak_pointers : list Z
}.

Definition Heap_set_weak_pointers (l : list Z) (h : Heap) : Heap :=
  {| allocation_base := allocation_base h;
     allocation_top := allocation_top h;
     allocation_limit := allocation_limit h;
     foreign_memory := foreign_memory h; weak_pointers := l |}.

Definition Heap_set_foreign_memory (n : Z) (h : Heap) : Heap :=
  {| allocation_base := allocation_base h;
     allocation_top := allocation_top h;
     allocation_limit := allocation_limit h;
     foreign_memory := n; weak_pointers := weak_pointers h |}.

(** [Space::Includes]. *)
Definition Includes (h : Heap) (a : Z) : bool :=
  (allocation_base h <=? a) && (a <? allocation_limit h).

(** The memory the heaps allocate in: the heap objects by address. *)
Abbreviation Memory := (gmap Z HeapObject).

(** The roots of the program the process factories read ([program.h]),
    and the two queries on the program heap that [process.cc] makes. *)
Record Program := {
  null_object : Object;
  array_class : Z;
  stack_class : Z;
  coroutine_class : Z;
  large_integer_class : Z;
  foreign_memory_class : Z;
  process_class : Z;
  process_death_class : Z;
  NumberOfInstanceFields : Z -> nat;
  Function_FromBytecodePointer : Z -> Z
}.

Section Heaps.
Context {platform : Platform}.

(** Modelled from the spec: [Heap::Allocate], bump allocation. *)
Definition Allocate (size : Z) (h : Heap) : option (Z * Heap) :=
  if allocation_top h + size <=? allocation_limit h
  then Some (allocation_top h,
             {| allocation_base := allocation_base h;
                allocation_top := allocation_top h + size;
                allocation_limit := allocation_limit h;
                foreign_memory := foreign_memory h;
                weak_pointers := weak_pointers h |})
  else None.

(** Modelled from the spec: the typed factories of the heap.  Each returns
    a heap object or [retry_after_gc]. *)
Definition Heap_create (size : Z) (o : HeapObject) (m : Memory) (h : Heap)
  : Memory * Heap * Object :=
  match Allocate size h with
  | Some (a, h') => (<[a := o]> m, h', HeapPointer a)
  | None => (m, h, retry_after_gc)
  end.

Definition CreateArray (klass : Z) (len : Z) (initial_value : Object)
  : Memory -> Heap -> Memory * Heap * Object :=
  Heap_create (kArraySize + len * kWordSize)
              (ArrayObject (replicate (Z.to_nat len) initial_value)).

Definition CreateStack (klass : Z) (len : Z)
  : Memory -> Heap -> Memory * Heap * Object :=
  Heap_create (kStackSize + len * kWordSize)
              (StackObject {| Stack_top := len; Stack_next := Smi_zero;
                              Stack_words := replicate (Z.to_nat len) 0 |}).

Definition CreateInstance (fields : nat) (klass : Z) (init : Object)
    (immutable : bool) : Memory -> Heap -> Memory * Heap * Object :=
  Heap_create (kInstanceSize + Z.of_nat fields * kWordSize)
              (InstanceObject klass immutable (replicate fields init)).

Definition CreateLargeInteger (klass : Z) (value : Z)
  : Memory -> Heap -> Memory * Heap * Object :=
  Heap_create kLargeIntegerSize (LargeIntegerObject value).

(** Address of word [index] of the stack at address [a]. *)
Definition Stack_Pointer (a index : Z) : Z := a + kStackSize + index * kWordSize.

(** The word index a pointer into the stack at [a] (with [n] words)
    designates, if it designates one. *)
Definition Stack_slot (a : Z) (n : nat) (pointer : Z) : option nat :=
  let d := pointer - Stack_Pointer a 0 in
  if (0 <=? d) && (d mod kWordSize =? 0) && (d / kWordSize <? Z.of_nat n)
  then Some (Z.to_nat (d / kWordSize)) else None.

Definition Stack_load (a : Z) (ws : list Z) (pointer : Z) : option Z :=
  i ← Stack_slot a (length ws) pointer; ws !! i.

Definition Stack_store (a : Z) (ws : list Z) (pointer : Z) (v : Z)
  : option (list Z) :=
  i ← Stack_slot a (length ws) pointer; Some (<[i := v]> ws).

End Heaps.

(** ** The process *)

Inductive StackCheckResult :=
| kStackCheckContinue
| kStackCheckInterrupt
| kStackCheckDebugInterrupt
| kStackCheckOverflow.

Inductive MessageKind :=
| IMMEDIATE | IMMUTABLE_OBJECT | FOREIGN | FOREIGN_FINALIZED
| LARGE_INTEGER | EXIT | PROCESS_DEATH_SIGNAL.

(** A message of the mailbox.  [Message_value] is the payload word;
    [Message_object] the decoded object an [IMMEDIATE], [IMMUTABLE_OBJECT] or
    [EXIT] message carries; [Message_signal_kind] the kind of the signal of
    a [PROCESS_DEATH_SIGNAL] and [Message_handle] its process handle. *)
Record Message := {
  Message_kind : MessageKind;
  Message_value : Z;
  Message_size : Z;
  Message_object : Object;
  Message_signal_kind : Z;
  Message_handle : Z
}.

(** What a call leaves behind for an observer, oldest first: the
    allocations it asked for and their results, the collections, the
    store-buffer insertions, the marker updates and the mailbox moves. *)
Inductive Event :=
| EvAllocate (result : Object)
| EvCollectMutableGarbage
| EvInsert (address : Z)
| EvClearStackMarker (marker : Z)
| EvUpdateStackLimit
| EvIncrementRef (handle : Z)
| EvRegisterFinalizer (address : Z)
| EvAdvanceCurrentMessage.

Record Process := {
  coroutine_ : Z;
  stack_limit_ : Z;
  program_ : Program;
  memory_ : Memory;
  heap_ : Heap;
  immutable_heap_ : Heap;
  store_buffer_ : list Z;
  mailbox_ : list Message;
  cooked_stack_deltas_ : list (list Z);
  events_ : list Event
}.

Definition set_memory (v : Memory) (p : Process) : Process :=
  {| coroutine_ := coroutine_ p; stack_limit_ := stack_limit_ p;
     program_ := program_ p; memory_ := v; heap_ := heap_ p;
     immutable_heap_ := immutable_heap_ p; store_buffer_ := store_buffer_ p;
     mailbox_ := mailbox_ p; cooked_stack_deltas_ := cooked_stack_deltas_ p;
     events_ := events_ p |}.

Definition set_coroutine (v : Z) (p : Process) : Process :=
  {| coroutine_ := v; stack_limit_ := stack_limit_ p; program_ := program_ p;
     memory_ := memory_ p; heap_ := heap_ p; immutable_heap_ := immutable_heap_ p;
     store_buffer_ := store_buffer_ p; mailbox_ := mailbox_ p;
     cooked_stack_deltas_ := cooked_stack_deltas_ p; events_ := events_ p |}.

Definition set_stack_limit (v : Z) (p : Process) : Process :=
  {| coroutine_ := coroutine_ p; stack_limit_ := v; program_ := program_ p;
     memory_ := memory_ p; heap_ := heap_ p; immutable_heap_ := immutable_heap_ p;
     store_buffer_ := store_buffer_ p; mailbox_ := mailbox_ p;
     cooked_stack_deltas_ := cooked_stack_deltas_ p; events_ := events_ p |}.

Definition set_heap (v : Heap) (p : Process) : Process :=
  {| coroutine_ := coroutine_ p; stack_limit_ := stack_limit_ p;
     program_ := program_ p; memory_ := memory_ p; heap_ := v;
     immutable_heap_ := immutable_heap_ p;
     store_buffer_ := store_buffer_ p; mailbox_ := mailbox_ p;
     cooked_stack_deltas_ := cooked_stack_deltas_ p; events_ := events_ p |}.

Definition set_immutable_heap (v : Heap) (p : Process) : Process :=
  {| coroutine_ := coroutine_ p; stack_limit_ := stack_limit_ p;
     program_ := program_ p; memory_ := memory_ p; heap_ := heap_ p;
     immutable_heap_ := v;
     store_buffer_ := store_buffer_ p; mailbox_ := mailbox_ p;
     cooked_stack_deltas_ := cooked_stack_deltas_ p; events_ := events_ p |}.

Definition set_store_buffer (v : list Z) (p : Process) : Process :=
  {| coroutine_ := coroutine_ p; stack_limit_ := stack_limit_ p;
     program_ := program_ p; memory_ := memory_ p; heap_ := heap_ p;
     immutable_heap_ := immutable_heap_ p; store_buffer_ := v;
     mailbox_ := mailbox_ p; cooked_stack_deltas_ := cooked_stack_deltas_ p;
     events_ := events_ p |}.

Definition set_mailbox (v : list Message) (p : Process) : Process :=
  {| coroutine_ := coroutine_ p; stack_limit_ := stack_limit_ p;
     program_ := program_ p; memory_ := memory_ p; heap_ := heap_ p;
     immutable_heap_ := immutable_heap_ p; store_buffer_ := store_buffer_ p;
     mailbox_ := v; cooked_stack_deltas_ := cooked_stack_deltas_ p;
     events_ := events_ p |}.

Definition set_cooked_stack_deltas (v : list (list Z)) (p : Process) : Process :=
  {| coroutine_ := coroutine_ p; stack_limit_ := stack_limit_ p;
     program_ := program_ p; memory_ := memory_ p; heap_ := heap_ p;
     immutable_heap_ := immutable_heap_ p; store_buffer_ := store_buffer_ p;
     mailbox_ := mailbox_ p; cooked_stack_deltas_ := v; events_ := events_ p |}.

Definition log (e : Event) (p : Process) : Process :=
  {| coroutine_ := coroutine_ p; stack_limit_ := stack_limit_ p;
     program_ := program_ p; memory_ := memory_ p; heap_ := heap_ p;
     immutable_heap_ := immutable_heap_ p; store_buffer_ := store_buffer_ p;
     mailbox_ := mailbox_ p; cooked_stack_deltas_ := cooked_stack_deltas_ p;
     events_ := events_ p ++ [e] |}.

(** [StoreBuffer::Insert]: duplicates are tolerated. *)
Definition StoreBuffer_Insert (a : Z) (p : Process) : Process :=
  log (EvInsert a) (set_store_buffer (a :: store_buffer_ p) p).

(** The heap object a pointer designates in the process heap. *)
Definition heap_object (o : Z) (p : Process) : option HeapObject :=
  memory_ p !! o.

(** [Stack::cast]: the address, when the object is a stack of the heap. *)
Definition Stack_cast (o : Object) (p : Process) : option (Z * Stack) :=
  match o with
  | HeapPointer a =>
      match heap_object a p with
      | Some (StackObject s) => Some (a, s)
      | _ => None
      end
  | _ => None
  end.

(** [coroutine_->stack()]: field 0 of the current coroutine. *)
Definition Coroutine_stack (p : Process) : option Object :=
  match heap_object (coroutine_ p) p with
  | Some (InstanceObject _ _ (s :: _)) => Some s
  | _ => None
  end.

Definition Coroutine_set_stack (coroutine : Z) (s : Object) (p : Process)
  : option Process :=
  match heap_object coroutine p with
  | Some (InstanceObject k i (_ :: fields)) =>
      Some (set_memory (<[coroutine := InstanceObject k i (s :: fields)]>
                          (memory_ p)) p)
  | _ => None
  end.

(** [Process::stack()]. *)
Definition stack (p : Process) : option (Z * Stack) :=
  o ← Coroutine_stack p; Stack_cast o p.

Definition store_stack (a : Z) (s : Stack) (p : Process) : Process :=
  set_memory (<[a := StackObject s]> (memory_ p)) p.

(** The collector is a collaborator of the process ([Program] and the
    scavenger are not among the sources): it is a parameter, and may move,
    drop and rewrite whatever it owns. *)
Class Collector := { CollectSharedGarbage : Process -> Process }.

(** Modelled from the spec: [Utils::RoundUpToPowerOfTwo] ([src/shared/utils.h]
    is not among the sources), the next power of two. *)
Definition RoundUpToPowerOfTwo (x : Z) : Z := 2 ^ Z.log2_up x.

(** [memcpy] of [count] words between two stacks, from word [src_index] of
    [src] to word [dst_index] of [dst]. *)
Definition memcpy_words (dst : list Z) (dst_index : Z) (src : list Z)
    (src_index : Z) (count : Z) : option (list Z) :=
  if (0 <=? count) && (0 <=? dst_index) && (0 <=? src_index)
     && (dst_index + count <=? Z.of_nat (length dst))
     && (src_index + count <=? Z.of_nat (length src))
  then Some (take (Z.to_nat dst_index) dst
             ++ take (Z.to_nat count) (drop (Z.to_nat src_index) src)
             ++ drop (Z.to_nat (dst_index + count)) dst)
  else None.

Section ProcessOperations.
Context {platform : Platform} {collector : Collector}.

(** Modelled from the spec: [Stack::UpdateFramePointers] ([src/vm/object.cc]
    is not among the sources).  After the words of the old stack were
    copied, it walks the frame-pointer links from the top of the new stack
    and rewrites each one to designate the same slot, counted from the end,
    of the new stack. *)
Fixpoint UpdateFramePointers_loop (fuel : nat) (a diff : Z) (ws : list Z)
    (fp : Z) : option (list Z) :=
  match fuel with
  | O => None
  | S fuel' =>
      link ← Stack_load a ws fp;
      if link =? 0 then Some ws
      else
        ws' ← Stack_store a ws fp (link + diff);
        UpdateFramePointers_loop fuel' a diff ws' (link + diff)
  end.

Definition UpdateFramePointers (a : Z) (s : Stack) (old_a : Z) (old : Stack)
  : option Stack :=
  let diff := Stack_Pointer a (Stack_length s)
              - Stack_Pointer old_a (Stack_length old) in
  ws ← UpdateFramePointers_loop (S (length (Stack_words s))) a diff
         (Stack_words s) (Stack_Pointer a (Stack_top s));
  Some (Stack_set_words ws s).

(** *** Factories *)

Definition NewArray (len : Z) (p : Process) : Process * Object :=
  let array_class := array_class (program_ p) in
  let null := null_object (program_ p) in
  let '(m, h, result) :=
    CreateArray array_class len null (memory_ p) (heap_ p) in
  (log (EvAllocate result) (set_heap h (set_memory m p)), result).

Definition NewInteger (value : Z) (p : Process) : Process * Object :=
  let large_integer_class := large_integer_class (program_ p) in
  let '(m, h, result) :=
    CreateLargeInteger large_integer_class value (memory_ p)
                       (immutable_heap_ p) in
  (log (EvAllocate result) (set_immutable_heap h (set_memory m p)), result).

Definition NewInstance (klass : Z) (immutable : bool) (p : Process)
  : Process * Object :=
  let null := null_object (program_ p) in
  let fields := NumberOfInstanceFields (program_ p) klass in
  if immutable then
    let '(m, h, result) :=
      CreateInstance fields klass null immutable (memory_ p)
                     (immutable_heap_ p) in
    (log (EvAllocate result) (set_immutable_heap h (set_memory m p)), result)
  else
    let '(m, h, result) :=
      CreateInstance fields klass null immutable (memory_ p) (heap_ p) in
    (log (EvAllocate result) (set_heap h (set_memory m p)), result).

Definition NewStack (len : Z) (p : Process) : Process * Object :=
  let stack_class := stack_class (program_ p) in
  let '(m, h, result) := CreateStack stack_class len (memory_ p) (heap_ p) in
  let p := log (EvAllocate result) (set_heap h (set_memory m p)) in
  if IsFailure result then (p, result)
  else
    match result with
    | HeapPointer a => (StoreBuffer_Insert a p, result)
    | _ => (p, result)
    end.

(** *** The stack limit of a process *)

Definition UpdateStackLimit (p : Process) : option Process :=
  '(a, _) ← stack p;
  let frame_size := kGuaranteedFrameSize + 2 in
  let current_limit := stack_limit_ p in
  let new_stack_limit := to_uword (Stack_Pointer a frame_size) in
  Some (log EvUpdateStackLimit
          (set_stack_limit
             (UpdateStackLimit_word current_limit new_stack_limit current_limit)
             p)).

Definition Process_ClearStackMarker (marker : Z) (p : Process) : option Process :=
  l ← ClearStackMarker marker (stack_limit_ p);
  Some (log (EvClearStackMarker marker) (set_stack_limit l p)).

Definition CollectMutableGarbage (p : Process) : option Process :=
  let q := CollectSharedGarbage p in
  UpdateStackLimit
    (log EvCollectMutableGarbage
       {| coroutine_ := coroutine_ q; stack_limit_ := stack_limit_ p;
          program_ := program_ p; memory_ := memory_ q; heap_ := heap_ q;
          immutable_heap_ := immutable_heap_ q;
          store_buffer_ := store_buffer_ q; mailbox_ := mailbox_ q;
          cooked_stack_deltas_ := cooked_stack_deltas_ p;
          events_ := events_ p |}).

(** *** The execution stack *)

Definition UpdateCoroutine (coroutine : Z) (p : Process) : option Process :=
  let p := set_coroutine coroutine p in
  '(a, _) ← stack p;                                      (* ASSERT has_stack *)
  p ← UpdateStackLimit p;
  Some (StoreBuffer_Insert a p).


(** The second half of [HandleStackOverflow]: the live words move to
    [new_stack_object] and it becomes the stack of the coroutine. *)
Definition install_new_stack (new_stack_object : Object) (p : Process)
  : option (Process * StackCheckResult) :=
  '(new_a, new_stack) ← Stack_cast new_stack_object p;
  '(old_a, old) ← stack p;
  let height := Stack_length old - Stack_top old in
  if height <? 0 then None                                (* ASSERT *)
  else
    let new_stack := Stack_set_top (Stack_length new_stack - height) new_stack in
    ws ← memcpy_words (Stack_words new_stack) (Stack_top new_stack)
                      (Stack_words old) (Stack_top old) height;
    let new_stack := Stack_set_words ws new_stack in
    new_stack ← UpdateFramePointers new_a new_stack old_a old;
    let p := store_stack new_a new_stack p in
    p ← Coroutine_set_stack (coroutine_ p) (HeapPointer new_a) p;
    '(a, _) ← stack p;
    let p := StoreBuffer_Insert a p in
    p ← UpdateStackLimit p;
    Some (p, kStackCheckContinue).

Definition HandleStackOverflow (addition : Z) (p : Process)
  : option (Process * StackCheckResult) :=
  let current_limit := stack_limit_ p in
  if (kMaxStackMarker <=? current_limit)
     && negb (Z.land current_limit kPreemptMarker =? 0) then
    p ← Process_ClearStackMarker kPreemptMarker p;
    p ← UpdateStackLimit p;
    Some (p, kStackCheckInterrupt)
  else if (kMaxStackMarker <=? current_limit)
          && negb (Z.land current_limit kDebugInterruptMarker =? 0) then
    p ← Process_ClearStackMarker kDebugInterruptMarker p;
    p ← UpdateStackLimit p;
    Some (p, kStackCheckDebugInterrupt)
  else if (kMaxStackMarker <=? current_limit)
          && negb (Z.land current_limit kProfileMarker =? 0) then
    p ← Process_ClearStackMarker kProfileMarker p;
    p ← UpdateStackLimit p;
    Some (p, kStackCheckContinue)
  else
    let size_increase := to_int (RoundUpToPowerOfTwo addition) in
    let size_increase := Z.max 256 size_increase in
    '(_, s) ← stack p;
    let new_size := to_int (Stack_length s + size_increase) in
    if MaxStackSizeInWords <? new_size then Some (p, kStackCheckOverflow)
    else
      let '(p, new_stack_object) := NewStack new_size p in
      if is_retry_after_gc new_stack_object then
        p ← CollectMutableGarbage p;
        let '(p, new_stack_object) := NewStack new_size p in
        if is_retry_after_gc new_stack_object then Some (p, kStackCheckOverflow)
        else install_new_stack new_stack_object p
      else install_new_stack new_stack_object p.

End ProcessOperations.

(** ** Cooking and uncooking the stacks *)

(** [List<T>]: a fixed number of elements; an index outside it has no
    element. *)
Definition List_set {A} (l : list A) (index : Z) (v : A) : option (list A) :=
  if (0 <=? index) && (index <? Z.of_nat (length l))
  then Some (<[Z.to_nat index := v]> l) else None.

Definition List_get {A} (l : list A) (index : Z) : option A :=
  if 0 <=? index then l !! Z.to_nat index else None.

Section Cooking.
Context {platform : Platform}.

(** Modelled from the spec: [Frame] ([src/vm/frame.h] is not among the
    sources).  A frame is designated by its frame pointer; the word there is
    the link to the previous frame, [NULL] after the last one, and the
    byte-code pointer of the frame is [kBcpSlotOffset] words away. *)
Definition Frame_PreviousFramePointer (a : Z) (ws : list Z) (frame_pointer_ : Z)
  : option Z :=
  Stack_load a ws frame_pointer_.

Definition Frame_ByteCodePointer (a : Z) (ws : list Z) (frame_pointer_ : Z)
  : option Z :=
  Stack_load a ws (frame_pointer_ + kBcpSlotOffset * kWordSize).

Definition Frame_SetByteCodePointer (a : Z) (ws : list Z) (frame_pointer_ : Z)
    (v : Z) : option (list Z) :=
  Stack_store a ws (frame_pointer_ + kBcpSlotOffset * kWordSize) v.

(** Modelled from the spec: [Function::bytecode_address_for], the address of
    a byte code of the function object at [function]. *)
Definition bytecode_address_for (function offset : Z) : Z :=
  function + kFunctionSize + offset.

(** [while (frame.MovePrevious()) { ... }] over the stack at [a]: [body]
    gets the loop state and the byte-code pointer slot of the frame and
    gives the new state and the value [SetByteCodePointer] stores. *)
Fixpoint while_MovePrevious {S : Type} (body : S -> Z -> option (S * Z))
    (fuel : nat) (a : Z) (ws : list Z) (frame_pointer_ : Z) (st : S)
  : option (list Z * S) :=
  match fuel with
  | O => None
  | S fuel' =>
      previous ← Frame_PreviousFramePointer a ws frame_pointer_;
      if previous =? 0 then Some (ws, st)
      else
        let frame_pointer_ := previous in
        bcp ← Frame_ByteCodePointer a ws frame_pointer_;
        '(st', v) ← body st bcp;
        ws' ← Frame_SetByteCodePointer a ws frame_pointer_ v;
        while_MovePrevious body fuel' a ws' frame_pointer_ st'
  end.

(** The body of the loop of [CookStacks]; the state is the delta list of the
    stack and [index]. *)
Definition cook_frame (program : Program) (st : list Z * Z) (bcp : Z)
  : option ((list Z * Z) * Z) :=
  let '(deltas, index) := st in
  let function := Function_FromBytecodePointer program bcp in
  let start := bytecode_address_for function 0 in
  let delta := to_int (bcp - start) in
  deltas' ← List_set deltas index delta;
  Some ((deltas', index + 1), function).

(** The body of the loop of [UncookAndUnchainStacks]. *)
Definition uncook_frame (st : list Z * Z) (value : Z)
  : option ((list Z * Z) * Z) :=
  let '(deltas, index) := st in
  if value =? 0 then None                                 (* ASSERT *)
  else
    let function := value in
    delta ← List_get deltas index;
    let bcp := bytecode_address_for function 0 + delta in
    Some ((deltas, index + 1), bcp).

Definition frame_fuel (s : Stack) : nat := S (length (Stack_words s)).

Fixpoint CookStacks_loop (remaining i : nat) (raw_current : Object)
    (p : Process) : option (Process * Object) :=
  match remaining with
  | O => Some (p, raw_current)
  | S remaining' =>
      '(a, current) ← Stack_cast raw_current p;
      '(_, s) ← stack p;
      let deltas := replicate (Z.to_nat (Stack_length s)) 0 in
      '(ws, st) ← while_MovePrevious (cook_frame (program_ p))
                     (frame_fuel current) a (Stack_words current)
                     (Stack_Pointer a (Stack_top current)) (deltas, 0);
      let p := store_stack a (Stack_set_words ws current) p in
      cooked ← List_set (cooked_stack_deltas_ p) (Z.of_nat i) (fst st);
      let p := set_cooked_stack_deltas cooked p in
      CookStacks_loop remaining' (S i) (Stack_next current) p
  end.

Definition CookStacks (number_of_stacks : Z) (p : Process) : option Process :=
  let p := set_cooked_stack_deltas
             (replicate (Z.to_nat number_of_stacks) []) p in
  raw_current ← Coroutine_stack p;
  '(p, raw_current) ←
    CookStacks_loop (Z.to_nat number_of_stacks) 0 raw_current p;
  match raw_current with
  | Smi 0 => Some p
  | _ => None                                             (* ASSERT *)
  end.

Fixpoint UncookAndUnchainStacks_loop (remaining i : nat) (raw_current : Object)
    (p : Process) : option (Process * Object) :=
  match remaining with
  | O => Some (p, raw_current)
  | S remaining' =>
      '(a, current) ← Stack_cast raw_current p;
      deltas ← List_get (cooked_stack_deltas_ p) (Z.of_nat i);
      '(ws, _) ← while_MovePrevious uncook_frame
                    (frame_fuel current) a (Stack_words current)
                    (Stack_Pointer a (Stack_top current)) (deltas, 0);
      cooked ← List_set (cooked_stack_deltas_ p) (Z.of_nat i) [];
      let p := set_cooked_stack_deltas cooked p in
      let raw_current := Stack_next current in
      let p := store_stack a
                 (Stack_set_next (Smi 0) (Stack_set_words ws current)) p in
      UncookAndUnchainStacks_loop remaining' (S i) raw_current p
  end.

Definition UncookAndUnchainStacks (p : Process) : option Process :=
  raw_current ← Coroutine_stack p;
  '(p, raw_current) ←
    UncookAndUnchainStacks_loop (length (cooked_stack_deltas_ p)) 0
                                raw_current p;
  match raw_current with
  | Smi 0 => Some (set_cooked_stack_deltas [] p)
  | _ => None                                             (* ASSERT *)
  end.

End Cooking.

(** ** The lookup cache *)

Record Entry := {
  Entry_clazz : Z;
  Entry_selector : Z;
  Entry_target : Z;
  Entry_tag : Z
}.

Record LookupCache := {
  primary : list Entry;
  secondary : list Entry
}.

(** The entry a [LookupCache::Entry*] designates. *)
Inductive EntryPointer :=
| InPrimary (index : Z)
| InSecondary (index : Z).

Definition entry_at (cache : LookupCache) (e : EntryPointer) : option Entry :=
  match e with
  | InPrimary i => List_get (primary cache) i
  | InSecondary i => List_get (secondary cache) i
  end.

(** What the miss path asks of the classes, the selectors and the
    intrinsics table; none of it is defined in [process.cc].  A function or
    an intrinsic is its address, [0] is [NULL]. *)
Class Dispatch := {
  LookupMethod : Z -> Z -> Z;
  ComputeIntrinsic : Z -> Z;
  ComputeSecondaryIndex : Z -> Z -> Z;
  Selector_Encode : Z -> Z -> Z -> Z;
  Names_kNoSuchMethodTrampoline : Z;
  Selector_METHOD : Z
}.

Section Lookup.
Context {dispatch : Dispatch}.

(** Modelled from the spec: [LookupCache::DemotePrimary], which copies the
    primary entry into the secondary slot of its own keys. *)
Definition DemotePrimary (primary_index : Z) (cache : LookupCache)
  : option LookupCache :=
  e ← List_get (primary cache) primary_index;
  entries ← List_set (secondary cache)
            (ComputeSecondaryIndex (Entry_clazz e) (Entry_selector e)) e;
  Some {| primary := primary cache; secondary := entries |}.

Definition LookupEntrySlow (is_compact : bool) (primary_index : Z)
    (clazz selector : Z) (cache : LookupCache)
  : option (LookupCache * EntryPointer) :=
  if is_compact then None                                 (* ASSERT *)
  else
    let index := ComputeSecondaryIndex clazz selector in
    secondary_entry ← List_get (secondary cache) index;
    if (Entry_clazz secondary_entry =? clazz)
       && (Entry_selector secondary_entry =? selector)
    then Some (cache, InSecondary index)
    else
      let tag := 0 in
      let target := LookupMethod clazz selector in
      let '(target, tag) :=
        if target =? 0 then
          let name := Names_kNoSuchMethodTrampoline in
          (LookupMethod clazz (Selector_Encode name Selector_METHOD 0), tag)
        else
          let intrinsic := ComputeIntrinsic target in
          (target, if intrinsic =? 0 then 1 else intrinsic) in
      if target =? 0 then None                            (* ASSERT *)
      else
        cache ← DemotePrimary primary_index cache;
        entries ← List_set (primary cache) primary_index
                  {| Entry_clazz := clazz; Entry_selector := selector;
                     Entry_target := target; Entry_tag := tag |};
        Some ({| primary := entries; secondary := secondary cache |},
              InPrimary primary_index).

End Lookup.

(** ** The mailbox native *)

(** Merging the child heaps of an [EXIT] message is the mailbox's work
    ([src/vm/message_mailbox.cc] is not among the sources): it is a
    parameter, and gives the memory and the heap after the merge. *)
Class Mailbox := { MergeChildHeaps : Message -> Memory * Heap -> Memory * Heap }.

Section Natives.
Context {platform : Platform} {mailbox : Mailbox}.

Definition Instance_SetInstanceField (a : Z) (index : Z) (v : Object)
    (p : Process) : option Process :=
  match heap_object a p with
  | Some (InstanceObject k i fields) =>
      fields' ← List_set fields index v;
      Some (set_memory (<[a := InstanceObject k i fields']> (memory_ p)) p)
  | _ => None
  end.

(** Modelled from the spec: [Instance::SetConsecutiveSmis], which spreads a
    word over two consecutive fields as small integers. *)
Definition Instance_SetConsecutiveSmis (a : Z) (index : Z) (value : Z)
    (p : Process) : option Process :=
  let half := 2 ^ (kBitsPerWord / 2) in
  p ← Instance_SetInstanceField a index (Smi (value mod half)) p;
  Instance_SetInstanceField a (index + 1) (Smi (value / half)) p.

Definition Heap_AddWeakPointer (a : Z) (h : Heap) : Heap :=
  Heap_set_weak_pointers (a :: weak_pointers h) h.

Definition RegisterFinalizer (a : Z) (p : Process) : option Process :=
  if Includes (heap_ p) a then
    Some (log (EvRegisterFinalizer a)
              (set_heap (Heap_AddWeakPointer a (heap_ p)) p))
  else if Includes (immutable_heap_ p) a then
    Some (log (EvRegisterFinalizer a)
              (set_immutable_heap
                 (Heap_AddWeakPointer a (immutable_heap_ p)) p))
  else None.                                              (* ASSERT *)

Definition AllocatedForeignMemory (size : Z) (h : Heap) : Heap :=
  Heap_set_foreign_memory (foreign_memory h + size) h.

Definition AdvanceCurrentMessage (p : Process) : Process :=
  log EvAdvanceCurrentMessage (set_mailbox (tail (mailbox_ p)) p).

Definition Instance_cast (o : Object) : option Z :=
  match o with HeapPointer a => Some a | _ => None end.

(** The switch of [ProcessQueueGetMessage].  [inl] is an early [return] of
    the native, [inr] the [result] a [break] leaves the switch with. *)
Definition materialize (queue : Message) (p : Process)
  : option (Process * (Object + Object)) :=
  let kind := Message_kind queue in
  match kind with
  | IMMEDIATE | IMMUTABLE_OBJECT => Some (p, inr (Message_object queue))
  | FOREIGN | FOREIGN_FINALIZED =>
      let foreign_memory_class := foreign_memory_class (program_ p) in
      if negb (Nat.eqb (NumberOfInstanceFields (program_ p)
                          foreign_memory_class) 4)
      then None                                           (* ASSERT *)
      else
        let '(p, object) := NewInstance foreign_memory_class false p in
        if is_retry_after_gc object then Some (p, inl object)
        else
          foreign ← Instance_cast object;
          p ← Instance_SetConsecutiveSmis foreign 0 (Message_value queue) p;
          let size := to_int (Message_size queue) in
          p ← Instance_SetInstanceField foreign 2 (Smi size) p;
          p ← (match kind with
               | FOREIGN_FINALIZED =>
                   p ← RegisterFinalizer foreign p;
                   Some (set_heap (AllocatedForeignMemory size (heap_ p)) p)
               | _ => Some p
               end);
          Some (p, inr object)
  | LARGE_INTEGER =>
      let '(p, result) := NewInteger (Message_value queue) p in
      if is_retry_after_gc result then Some (p, inl result)
      else Some (p, inr result)
  | EXIT =>
      let '(m, h) := MergeChildHeaps queue (memory_ p, heap_ p) in
      Some (set_heap h (set_memory m p), inr (Message_object queue))
  | PROCESS_DEATH_SIGNAL =>
      let program := program_ p in
      let handle := Message_handle queue in
      let '(p, dart_process) := NewInstance (process_class program) true p in
      if is_retry_after_gc dart_process then Some (p, inl dart_process)
      else
        let '(p, process_death) :=
          NewInstance (process_death_class program) true p in
        if is_retry_after_gc process_death then Some (p, inl process_death)
        else
          let p := log (EvIncrementRef handle) p in
          dart ← Instance_cast dart_process;
          p ← Instance_SetConsecutiveSmis dart 0 handle p;
          death ← Instance_cast process_death;
          p ← Instance_SetInstanceField death 0 dart_process p;
          p ← Instance_SetInstanceField death 1
                (Smi (Message_signal_kind queue)) p;
          p ← RegisterFinalizer dart p;
          Some (p, inr process_death)
  end.

Definition ProcessQueueGetMessage (p : Process) : option (Process * Object) :=
  queue ← head (mailbox_ p);
  '(p, r) ← materialize queue p;
  match r with
  | inl failure => Some (p, failure)
  | inr result => Some (AdvanceCurrentMessage p, result)
  end.

End Natives.

(** ** The pending signal *)


(** [SendSignal] run by several threads at once.  A sender is at the load
    of the loop condition, at the exchange, at [Signal::DecrementRef], or
    has returned; it records how often it called [DecrementRef] on its
    argument and whether its exchange installed it. *)
Inductive SendPoint := AtLoad | AtExchange | AtDecrementRef | Returned.

Record Sender := {
  sender_signal : Z;
  sender_at : SendPoint;
  sender_decrements : nat;
  sender_installed : bool
}.

Definition sender_start (signal : Z) : Sender :=
  {| sender_signal := signal; sender_at := AtLoad;
     sender_decrements := 0; sender_installed := false |}.

Definition sender_step (spurious : bool) (signal_ : Z) (t : Sender)
  : Z * Sender :=
  match sender_at t with
  | AtLoad =>
      (signal_,
       {| sender_signal := sender_signal t;
          sender_at := if signal_ =? 0 then AtExchange else AtDecrementRef;
          sender_decrements := sender_decrements t;
          sender_installed := sender_installed t |})
  | AtExchange =>
      let '(cell, _, ok) :=
        compare_exchange_weak spurious signal_ 0 (sender_signal t) in
      (cell,
       {| sender_signal := sender_signal t;
          sender_at := if ok then Returned else AtLoad;
          sender_decrements := sender_decrements t;
          sender_installed := ok |})
  | AtDecrementRef =>
      (signal_,
       {| sender_signal := sender_signal t;
          sender_at := Returned;
          sender_decrements := S (sender_decrements t);
          sender_installed := sender_installed t |})
  | Returned => (signal_, t)
  end.

(** One step of the thread [i] (a step of a thread that does not exist
    changes nothing); a schedule is a list of such steps. *)
Definition signal_step (step : nat * bool) (st : Z * list Sender)
  : Z * list Sender :=
  let '(i, spurious) := step in
  let '(signal_, senders) := st in
  match senders !! i with
  | Some t =>
      let '(cell, t') := sender_step spurious signal_ t in
      (cell, <[i := t']> senders)
  | None => st
  end.

Definition signal_run (schedule : list (nat * bool)) (st : Z * list Sender)
  : Z * list Sender :=
  foldl (fun st step => signal_step step st) st schedule.

(** ** Interrupt requests *)

Section InterruptRequests.
Context {platform : Platform}.

(** [Process::SetStackMarker] on the process; [fails] lists the spurious
    failures of its weak exchange. *)
Definition Process_SetStackMarker (fails : list bool) (marker : Z) (p : Process)
  : option Process :=
  l ← SetStackMarker_loop fails marker (stack_limit_ p) (stack_limit_ p);
  Some (set_stack_limit l p).

Definition Process_Preempt (fails : list bool) (p : Process) : option Process :=
  Process_SetStackMarker fails kPreemptMarker p.

Definition Process_DebugInterrupt (fails : list bool) (p : Process)
  : option Process :=
  Process_SetStackMarker fails kDebugInterruptMarker p.

Definition Process_Profile (fails : list bool) (p : Process) : option Process :=
  Process_SetStackMarker fails kProfileMarker p.

End InterruptRequests.

(** ** Chaining the stacks during a collection *)

(** [ScavengeAndChainStacksVisitor]: the space the objects are copied to
    and the number of stacks met so far. *)
Record ChainVisitor := {
  to_ : Heap;
  number_of_stacks_ : Z
}.

(** [stack->set_next(v)] on the stack at [a]. *)
Definition Stack_set_next_at (a : Z) (v : Object) (p : Process)
  : option Process :=
  '(_, s) ← Stack_cast (HeapPointer a) p;
  Some (store_stack a (Stack_set_next v s) p).

(** [ScavengeAndChainStacksVisitor::ChainStack] on the stack at
    [stack_a]. *)
Definition ChainStack (stack_a : Z) (v : ChainVisitor) (p : Process)
  : option (ChainVisitor * Process) :=
  _ ← Stack_cast (HeapPointer stack_a) p;
  let v := {| to_ := to_ v;
              number_of_stacks_ := to_int (number_of_stacks_ v + 1) |} in
  '(process_stack, ps) ← stack p;
  if negb (process_stack =? stack_a) then
    if negb (Includes (to_ v) process_stack) then None    (* ASSERT *)
    else
      p ← Stack_set_next_at stack_a (Stack_next ps) p;
      p ← Stack_set_next_at process_stack (HeapPointer stack_a) p;
      Some (v, p)
  else Some (v, p).

(** ** The channel native *)

(** [queue->port()->channel()]: the channel instance of the port a message
    was sent to, [NULL] once the channel died ([Port] and [Message] are not
    among the sources; the port of a message is a parameter). *)
Class Ports := { Message_port_channel : Message -> Z }.

Section ChannelNative.
Context {ports : Ports}.

(** The loop of [ProcessQueueGetChannel]; it advances once for each turn,
    so the length of the mailbox bounds its turns. *)
Fixpoint ProcessQueueGetChannel_loop (fuel : nat) (p : Process)
  : option (Process * Object) :=
  match head (mailbox_ p) with
  | Some queue =>
      let channel := Message_port_channel queue in
      if negb (channel =? 0) then Some (p, HeapPointer channel)
      else
        match fuel with
        | O => None
        | S fuel => ProcessQueueGetChannel_loop fuel (AdvanceCurrentMessage p)
        end
  | None => Some (p, null_object (program_ p))
  end.

Definition ProcessQueueGetChannel (p : Process) : option (Process * Object) :=
  ProcessQueueGetChannel_loop (length (mailbox_ p)) p.

End ChannelNative.

(** ** The system-call shims of the STM32 board

    [platforms/stm/disco_fletch/src/syscalls.c].  The board is a 32-bit
    machine: a pointer is a [Z] in [0, 2^32) and pointer arithmetic wraps
    there. *)

Definition to_pointer (z : Z) : Z := z mod 2 ^ 32.

(** What the shim reads from the board: the address of the linker symbol
    [end] and the words of the memory ([*(unsigned int* ) a]). *)
Class Board := {
  end_address : Z;
  read_uint : Z -> Z
}.

Definition MAX_STACK_SIZE : Z := 0x2000.

(** [ENOMEM] of the C library. *)
Definition ENOMEM : Z := 12.

(** The state of the C library the shim writes: its static [heap_end]
    ([NULL] before the first call) and [errno]. *)
Record Libc := {
  heap_end : Z;
  errno : Z
}.

Section Shims.
Context {board : Board}.

(** [_sbrk]: the state after the call and the pointer returned. *)
Definition _sbrk (incr : Z) (st : Libc) : Libc * Z :=
  let heap_end := if heap_end st =? 0 then end_address else heap_end st in
  let prev_heap_end := heap_end in
  let min_stack_ptr := read_uint (read_uint 0xE000ED08) in
  let min_stack_ptr := to_pointer (min_stack_ptr - MAX_STACK_SIZE) in
  if to_pointer (heap_end + incr) >? min_stack_ptr then
    ({| heap_end := heap_end; errno := ENOMEM |}, to_pointer (-1))
  else
    ({| heap_end := to_pointer (heap_end + incr); errno := errno st |},
     prev_heap_end).

End Shims.

(** ** The end of a process *)

(** The fields the destructor of [Process] reads besides the delta lists:
    the head of the list of ports, the link of the process queue and the
    slot of the pending signal. *)
Record ProcessLinks := {
  ports_ : Z;
  next_ : Z;
  signal_ : Z
}.

(** [Process::~Process].  The result lists the signals it calls
    [Signal::DecrementRef] on.  What it does to the monitors, to the process
    handle, to the weak pointers and to the debug info is the work of
    classes that are not among the sources and touches none of these
    fields. *)
Definition Process_destructor (l : ProcessLinks) (p : Process)
  : option (list Z) :=
  if negb (ports_ l =? 0) then None                       (* ASSERT *)
  else
    let signal := signal_ l in
    let released := if negb (signal =? 0) then [signal] else [] in
    if negb (next_ l =? 0) then None                      (* ASSERT *)
    else
      match cooked_stack_deltas_ p with
      | [] => Some released
      | _ :: _ => None                                    (* ASSERT *)
      end.

(** ** The finalizer of foreign memory *)

Section Finalizers.
Context {platform : Platform}.

Definition Instance_GetInstanceField (a : Z) (index : Z) (m : Memory)
  : option Object :=
  match m !! a with
  | Some (InstanceObject _ _ fields) => List_get fields index
  | _ => None
  end.

(** [Instance::GetConsecutiveSmis] ([object.h] is not among the sources):
    the word [Instance_SetConsecutiveSmis] spread over two fields. *)
Definition Instance_GetConsecutiveSmis (a : Z) (index : Z) (m : Memory)
  : option Z :=
  let half := 2 ^ (kBitsPerWord / 2) in
  low ← Instance_GetInstanceField a index m;
  high ← Instance_GetInstanceField a (index + 1) m;
  match low, high with
  | Smi low, Smi high => Some (to_uword (low + high * half))
  | _, _ => None                                          (* Smi::cast *)
  end.

Definition FreedForeignMemory (size : Z) (h : Heap) : Heap :=
  Heap_set_foreign_memory (foreign_memory h - size) h.

(** [Process::FinalizeForeign], the callback [ProcessQueueGetMessage]
    registers for a finalized foreign.  The result is the heap after the
    call and the pointer given to [free]. *)
Definition FinalizeForeign (foreign : Z) (heap : Heap) (m : Memory)
  : option (Heap * Z) :=
  match m !! foreign with
  | Some (InstanceObject _ _ _) =>
      value ← Instance_GetConsecutiveSmis foreign 0 m;
      field ← Instance_GetInstanceField foreign 2 m;
      match field with
      | Smi length =>
          let length := to_uword length in
          Some (FreedForeignMemory length heap, value)
      | _ => None                                         (* Smi::cast *)
      end
  | _ => None                                             (* Instance::cast *)
  end.

End Finalizers.

(** * The notions of the properties

    The predicates and functions the statements below are written with;
    none of them is part of the program. *)

(** ** Interrupts at the stack check *)

Definition Marker_eqb (m m' : Marker) : bool :=
  match m, m' with
  | Preempt, Preempt | Profile, Profile | DebugInterrupt, DebugInterrupt => true
  | _, _ => false
  end.

(** What the stack check returns for the marker it services. *)
Definition marker_result (m : Marker) : StackCheckResult :=
  match m with
  | Preempt => kStackCheckInterrupt
  | DebugInterrupt => kStackCheckDebugInterrupt
  | Profile => kStackCheckContinue
  end.

Section InterruptNotions.
Context {platform : Platform} {collector : Collector}.

(** A marker is pending when its bit is set in the word. *)
Definition pending (m : Marker) (l : Z) : bool :=
  negb (Z.land l (marker_bit m) =? 0).

(** The first pending marker in the order preempt, debug-interrupt,
    profile. *)
Definition first_pending (l : Z) : option Marker :=
  if pending Preempt l then Some Preempt
  else if pending DebugInterrupt l then Some DebugInterrupt
  else if pending Profile l then Some Profile
  else None.

End InterruptNotions.

(** ** The current stack and the store buffer *)



Section TrackingNotions.
Context {platform : Platform} {collector : Collector}.




(** No interrupt is pending: the word is a real limit below the sentinel, or
    no marker bit is set in it. *)
Definition no_marker_pending (l : Z) : Prop :=
  l < kMaxStackMarker \/ first_pending l = None.

(** The size [HandleStackOverflow] asks for. *)
Definition grown_size (addition : Z) (s : Stack) : Z :=
  to_int (Stack_length s + Z.max 256 (to_int (RoundUpToPowerOfTwo addition))).

(** The allocation of the new stack, with the one collection and the one
    retry. *)
Definition allocate_new_stack (new_size : Z) (p : Process)
  : option (Process * Object) :=
  let '(p, new_stack_object) := NewStack new_size p in
  if is_retry_after_gc new_stack_object then
    p ← CollectMutableGarbage p; Some (NewStack new_size p)
  else Some (p, new_stack_object).


End TrackingNotions.

(** ** The lookup-cache miss path *)

Section LookupNotions.
Context {dispatch : Dispatch}.

(** The selector the miss path falls back to. *)
Definition no_such_method_selector : Z :=
  Selector_Encode Names_kNoSuchMethodTrampoline Selector_METHOD 0.

(** The indices the call computes are inside the two tables. *)
Definition cache_in_range (cache : LookupCache) (primary_index : Z) : Prop :=
  0 <= primary_index < Z.of_nat (length (primary cache)) /\
  forall c s,
    0 <= ComputeSecondaryIndex c s < Z.of_nat (length (secondary cache)).

(** The secondary entry of the keys holds the keys. *)
Definition secondary_hit (cache : LookupCache) (clazz selector : Z) : bool :=
  match List_get (secondary cache) (ComputeSecondaryIndex clazz selector) with
  | Some e => (Entry_clazz e =? clazz) && (Entry_selector e =? selector)
  | None => false
  end.

End LookupNotions.

(** ** The mailbox native *)

Section NativeNotions.
Context {platform : Platform} {mailbox : Mailbox}.




(** What the native needs of the program and of the two heaps: the classes
    it instantiates have the fields it writes, and each space starts at or
    below its top. *)
Definition native_ready (p : Process) : Prop :=
  NumberOfInstanceFields (program_ p) (foreign_memory_class (program_ p))
    = 4%nat /\
  (2 <= NumberOfInstanceFields (program_ p) (process_class (program_ p)))%nat /\
  (2 <= NumberOfInstanceFields (program_ p)
          (process_death_class (program_ p)))%nat /\
  allocation_base (heap_ p) <= allocation_top (heap_ p) /\
  allocation_base (immutable_heap_ p) <= allocation_top (immutable_heap_ p).


End NativeNotions.

(** ** The pending signal *)

(** What a sender has done by the point it is at: before it returns,
    nothing; once returned, it either installed its signal and did not
    decrement it, or did not install it and decremented it once. *)
Definition sender_ok (t : Sender) : Prop :=
  match sender_at t with
  | Returned =>
      (sender_installed t = true /\ sender_decrements t = 0%nat) \/
      (sender_installed t = false /\ sender_decrements t = 1%nat)
  | _ => sender_installed t = false /\ sender_decrements t = 0%nat
  end.

(** The invariant of the slot and its senders; [slot0] is what the slot
    held before any of them started. *)
Definition signal_invariant (slot0 : Z) (st : Z * list Sender) : Prop :=
  let '(signal_, senders) := st in
  (forall i t, senders !! i = Some t ->
     sender_ok t /\ sender_signal t <> 0 /\
     (sender_installed t = true -> signal_ = sender_signal t /\ slot0 = 0) /\
     (sender_at t = AtDecrementRef \/
      (sender_at t = Returned /\ sender_installed t = false) ->
      signal_ <> 0)) /\
  (forall i j t t', senders !! i = Some t -> senders !! j = Some t' ->
     sender_installed t = true -> sender_installed t' = true -> i = j) /\
  (signal_ = 0 -> forall i t, senders !! i = Some t ->
     sender_installed t = false) /\
  (slot0 <> 0 -> signal_ = slot0).

(** ** Stack growth *)

Section GrowthNotions.
Context {platform : Platform} {collector : Collector}.

(** The slots of the frame-pointer links of a stack, from the word at
    [fp] to the [NULL] link. *)
Fixpoint frame_links (fuel : nat) (a : Z) (ws : list Z) (fp : Z)
  : option (list nat) :=
  match fuel with
  | O => None
  | S fuel' =>
      i ← Stack_slot a (length ws) fp;
      link ← ws !! i;
      if link =? 0 then Some [i]
      else rest ← frame_links fuel' a ws link; Some (i :: rest)
  end.

(** A link moved by [diff]; [NULL] stays. *)
Definition relocate (diff v : Z) : Z := if v =? 0 then 0 else v + diff.

Definition relocate_links (diff : Z) (old : list Z) (shift : nat)
    (links : list nat) (c : list Z) : list Z :=
  foldl (fun c i => <[(i + shift)%nat := relocate diff (default 0 (old !! i))]> c)
        c links.

(** The frame-pointer links of the stack [s] at [a], from its top: the
    slots, which are distinct and in the live part. *)
Definition frames_well_formed (a : Z) (s : Stack) (links : list nat) : Prop :=
  frame_links (S (length (Stack_words s))) a (Stack_words s)
              (Stack_Pointer a (Stack_top s)) = Some links /\
  NoDup links /\
  Forall (fun i => Stack_top s <= Z.of_nat i) links.

(** The stack [install_new_stack] leaves for a stack [s] at [a] grown to
    [new_length] words at [new_a]. *)
Definition grown_stack (new_a new_length a : Z) (s : Stack)
    (links : list nat) : Stack :=
  let shift := Z.to_nat (new_length - Stack_length s) in
  let diff := Stack_Pointer new_a new_length
              - Stack_Pointer a (Stack_length s) in
  {| Stack_top := new_length - (Stack_length s - Stack_top s);
     Stack_next := Smi_zero;
     Stack_words :=
       relocate_links diff (Stack_words s) shift links
         (replicate (Z.to_nat (Stack_top s) + shift) 0
          ++ drop (Z.to_nat (Stack_top s)) (Stack_words s)) |}.

End GrowthNotions.

(** ** Cooking and uncooking the stacks *)

(** [visit_slots body bs ws st]: the body of a frame loop applied to the
    byte-code pointer slots [bs], in order. *)
Fixpoint visit_slots {S : Type} (body : S -> Z -> option (S * Z))
    (bs : list nat) (ws : list Z) (st : S) : option (list Z * S) :=
  match bs with
  | [] => Some (ws, st)
  | b :: bs' =>
      v ← ws !! b;
      '(st', v') ← body st v;
      visit_slots body bs' (<[b := v']> ws) st'
  end.

(** Writing the values [xs] to the slots [bs]. *)
Fixpoint write_slots (bs : list nat) (xs : list Z) (ws : list Z) : list Z :=
  match bs, xs with
  | b :: bs', x :: xs' => write_slots bs' xs' (<[b := x]> ws)
  | _, _ => ws
  end.

(** Writing the values [xs] from the index [index] on. *)
Fixpoint write_from (index : nat) (xs : list Z) (l : list Z) : list Z :=
  match xs with
  | [] => l
  | x :: xs' => write_from (S index) xs' (<[index := x]> l)
  end.

(** The words of [ws] at the slots [bs]. *)
Definition read_slots (bs : list nat) (vs : list Z) (ws : list Z) : Prop :=
  Forall2 (fun b v => ws !! b = Some v) bs vs.

Definition slot_values (bs : list nat) (ws : list Z) : list Z :=
  map (fun b => default 0 (ws !! b)) bs.

(** The stacks of [chain] are linked through their [next] fields, from
    [raw] to the Smi zero. *)
Fixpoint linked (raw : Object) (chain : list (Z * Stack)) : Prop :=
  match chain with
  | [] => raw = Smi 0
  | x :: rest => raw = HeapPointer x.1 /\ linked (Stack_next x.2) rest
  end.

(** [chain] is the chain of the stacks of the memory [m] from [raw] on. *)
Definition stack_chain (m : Memory) (raw : Object) (chain : list (Z * Stack))
  : Prop :=
  linked raw chain /\ NoDup chain.*1 /\
  Forall (fun x => m !! x.1 = Some (StackObject x.2)) chain.

Definition store_stacks (stacks : list (Z * Stack)) (m : Memory) : Memory :=
  foldl (fun m x => <[x.1 := StackObject x.2]> m) m stacks.

(** The chain with every [next] field reset. *)
Definition unchained (chain : list (Z * Stack)) : list (Z * Stack) :=
  map (fun x => (x.1, Stack_set_next (Smi 0) x.2)) chain.

(** The stack at the address [a] of the heap of the process. *)
Definition stack_at (a : Z) (p : Process) : option Stack :=
  match memory_ p !! a with Some (StackObject s) => Some s | _ => None end.

Section CookingNotions.
Context {platform : Platform}.

(** The byte-code pointer slot of the frame at the word [j]. *)
Definition bcp_slot (j : nat) : Z := Z.of_nat j + kBcpSlotOffset.

Definition bcp_slots (frames : list nat) : list nat :=
  map (fun j => Z.to_nat (bcp_slot j)) frames.

(** The byte-code pointer slots of the frames are words of the stack and
    none of them is a link. *)
Definition bcp_slots_ok (n : nat) (links : list nat) : Prop :=
  NoDup links /\
  Forall (fun j => 0 <= bcp_slot j < Z.of_nat n /\
                   Z.to_nat (bcp_slot j) ∉ links) (tail links).

(** The byte-code pointer slots the frame loops visit in the stack at
    [a]. *)
Definition frame_slots (a : Z) (s : Stack) : list nat :=
  match frame_links (frame_fuel s) a (Stack_words s)
          (Stack_Pointer a (Stack_top s)) with
  | Some (_ :: frames) => bcp_slots frames
  | _ => []
  end.

(** The frames of the stack at [a] form a chain that ends, and the
    byte-code pointer slots are words of the stack other than the links. *)
Definition frames_cookable (a : Z) (s : Stack) : Prop :=
  exists links,
    frame_links (frame_fuel s) a (Stack_words s)
      (Stack_Pointer a (Stack_top s)) = Some links /\
    bcp_slots_ok (length (Stack_words s)) links.

(** The stack with [xs] in its byte-code pointer slots. *)
Definition with_slots (a : Z) (s : Stack) (xs : list Z) : Stack :=
  Stack_set_words (write_slots (frame_slots a s) xs (Stack_words s)) s.

(** What [CookStacks] records for a byte-code pointer. *)
Definition cooked_function (program : Program) (bcp : Z) : Z :=
  Function_FromBytecodePointer program bcp.

Definition cooked_delta (program : Program) (bcp : Z) : Z :=
  to_int (bcp - bytecode_address_for (cooked_function program bcp) 0).

(** The byte-code pointer [UncookAndUnchainStacks] rebuilds from the
    function in the slot and the recorded delta. *)
Definition rebuilt (function delta : Z) : Z :=
  bytecode_address_for function 0 + delta.

(** What the loop of [CookStacks] leaves in a stack and in its delta list,
    [L] being the length of the list. *)
Definition cooked_stack (program : Program) (a : Z) (s : Stack) : Stack :=
  with_slots a s
    (map (cooked_function program)
       (slot_values (frame_slots a s) (Stack_words s))).

Definition cooked_deltas (program : Program) (L : nat) (a : Z) (s : Stack)
  : list Z :=
  write_from 0
    (map (cooked_delta program)
       (slot_values (frame_slots a s) (Stack_words s)))
    (replicate L 0).

Definition cooked_chain (program : Program) (chain : list (Z * Stack))
  : list (Z * Stack) :=
  map (fun x => (x.1, cooked_stack program x.1 x.2)) chain.

(** What the loop of [UncookAndUnchainStacks] leaves in a stack whose delta
    list is [deltas]. *)
Definition uncooked_stack (a : Z) (s : Stack) (deltas : list Z) : Stack :=
  with_slots a s
    (zip_with rebuilt (slot_values (frame_slots a s) (Stack_words s))
       (take (length (frame_slots a s)) deltas)).

Definition uncooked_chain (chain : list (Z * Stack)) (dss : list (list Z))
  : list (Z * Stack) :=
  zip_with (fun x deltas =>
              (x.1, Stack_set_next (Smi 0) (uncooked_stack x.1 x.2 deltas)))
    chain dss.

(** The stack has frames the loops can walk, and no more than [L] of
    them. *)
Definition frames_fit (L : nat) (x : Z * Stack) : Prop :=
  frames_cookable x.1 x.2 /\ (length (frame_slots x.1 x.2) <= L)%nat.

(** A cooked stack and its delta list: the byte-code pointer slots hold
    functions, and the list has a delta for every frame. *)
Definition cooked_with (x : Z * Stack) (deltas : list Z) : Prop :=
  frames_cookable x.1 x.2 /\
  (length (frame_slots x.1 x.2) <= length deltas)%nat /\
  Forall (fun f => f <> 0)
    (slot_values (frame_slots x.1 x.2) (Stack_words x.2)).

(** The byte-code pointers of the frames of a stack are within [int] range
    of the first byte code of their functions. *)
Definition restorable (program : Program) (x : Z * Stack) : Prop :=
  Forall (fun bcp =>
            cooked_function program bcp <> 0 /\
            is_int (bcp - bytecode_address_for (cooked_function program bcp) 0))
    (slot_values (frame_slots x.1 x.2) (Stack_words x.2)).

End CookingNotions.

(** ** Interrupt requests and their delivery *)

Section DeliveryNotions.
Context {platform : Platform} {collector : Collector}.

(** A request for an interrupt, with the spurious failures of its
    exchange. *)
Definition request (r : Marker * list bool) (p : Process) : option Process :=
  match r.1 with
  | Preempt => Process_Preempt r.2 p
  | DebugInterrupt => Process_DebugInterrupt r.2 p
  | Profile => Process_Profile r.2 p
  end.

Fixpoint requests (rs : list (Marker * list bool)) (p : Process)
  : option Process :=
  match rs with
  | [] => Some p
  | r :: rs' => p' ← request r p; requests rs' p'
  end.

(** [n] stack checks in a row, with their results. *)
Fixpoint stack_checks (n : nat) (addition : Z) (p : Process)
  : option (Process * list StackCheckResult) :=
  match n with
  | O => Some (p, [])
  | S n' =>
      '(p', r) ← HandleStackOverflow addition p;
      '(p'', rs) ← stack_checks n' addition p';
      Some (p'', r :: rs)
  end.

(** The markers among [ms], each once, in the order the stack check looks
    at them. *)
Definition due (ms : list Marker) : list Marker :=
  filter (fun m => existsb (Marker_eqb m) ms = true)
    [Preempt; DebugInterrupt; Profile].

(** The markers pending in a word, in the same order. *)
Definition pending_list (l : Z) : list Marker :=
  filter (fun m => pending m l = true) [Preempt; DebugInterrupt; Profile].

End DeliveryNotions.

(** ** The coherence of the lookup cache *)

Section CoherenceNotions.
Context {dispatch : Dispatch}.




End CoherenceNotions.

(** ** The chain a cooking pass walks *)

(** The [next] field of the stack at [a], when there is a stack. *)
Definition stack_next_at (m : Memory) (a : Z) : option Object :=
  match m !! a with
  | Some (StackObject s) => Some (Stack_next s)
  | _ => None
  end.

(** The addresses of the stacks met from [raw] along the [next] fields, up
    to [last]. *)
Fixpoint next_path (m : Memory) (raw : Object) (addrs : list Z) (last : Object)
  : Prop :=
  match addrs with
  | [] => raw = last
  | a :: rest =>
      raw = HeapPointer a /\
      exists next, stack_next_at m a = Some next /\ next_path m next rest last
  end.

(** Two memories have stacks at the same addresses, with the same [next]
    fields. *)
Definition same_links (m m' : Memory) : Prop :=
  forall a, stack_next_at m a = stack_next_at m' a.

(** ** Chaining the stacks during a collection *)

(** The visitor meeting the stacks at [addrs], one after the other. *)
Fixpoint ChainStacks (addrs : list Z) (v : ChainVisitor) (p : Process)
  : option (ChainVisitor * Process) :=
  match addrs with
  | [] => Some (v, p)
  | a :: rest => '(v, p) ← ChainStack a v p; ChainStacks rest v p
  end.

(** The pointer to the first stack of a chain. *)
Definition chain_head (chain : list (Z * Stack)) : Object :=
  match chain with
  | [] => Smi 0
  | x :: _ => HeapPointer x.1
  end.

(** The chain behind the current stack once the stacks [others] were met,
    in this order: the last one met comes first. *)
Definition chained (others : list (Z * Stack)) : list (Z * Stack) :=
  foldl (fun done x => (x.1, Stack_set_next (chain_head done) x.2) :: done)
        [] others.

(** ** The break of the board *)

Section BreakNotions.
Context {board : Board}.

(** The break: where the next block starts. *)
Definition current_break (st : Libc) : Z :=
  if heap_end st =? 0 then end_address else heap_end st.

(** The bottom of the area kept for the main stack. *)
Definition stack_bottom : Z :=
  to_pointer (read_uint (read_uint 0xE000ED08) - MAX_STACK_SIZE).

(** Successive calls of [_sbrk], with the pointers they return. *)
Fixpoint sbrk_calls (incrs : list Z) (st : Libc) : Libc * list Z :=
  match incrs with
  | [] => (st, [])
  | incr :: rest =>
      let '(st, r) := _sbrk incr st in
      let '(st, rs) := sbrk_calls rest st in
      (st, r :: rs)
  end.

(** The blocks handed out: the pointer and the size of every call that
    did not answer [(void* ) -1]. *)
Definition granted (incrs rs : list Z) : list (Z * Z) :=
  filter (fun b => b.1 <> to_pointer (-1)) (zip rs incrs).

(** The sizes asked for by the calls that were refused. *)
Definition refused (incrs rs : list Z) : list Z :=
  (filter (fun b => b.1 = to_pointer (-1)) (zip rs incrs)).*2.

(** Blocks that lie one right after the other from [start] on. *)
Fixpoint adjacent (start : Z) (blocks : list (Z * Z)) : Prop :=
  match blocks with
  | [] => True
  | b :: rest => b.1 = start /\ adjacent (start + b.2) rest
  end.

(** The bytes of a list of blocks. *)
Definition total_size (blocks : list (Z * Z)) : Z :=
  foldr Z.add 0 blocks.*2.

(** The answers of an allocator that hands out the memory below [limit]
    from [brk] upwards and refuses what does not fit. *)
Fixpoint bump (limit brk : Z) (incrs : list Z) : list Z :=
  match incrs with
  | [] => []
  | incr :: rest =>
      if brk + incr <=? limit then brk :: bump limit (brk + incr) rest
      else to_pointer (-1) :: bump limit brk rest
  end.

End BreakNotions.

(** ** The end of a process *)

(** The slot holds what it held at the start or the signal of a sender
    that installed it. *)
Definition slot_owned (slot0 : Z) (st : Z * list Sender) : Prop :=
  st.1 = slot0 \/
  exists i t, st.2 !! i = Some t /\ sender_installed t = true /\
              sender_signal t = st.1.

(** ** Receiving the messages of the mailbox *)

#[global] Instance FailureKind_eq_dec : EqDecision FailureKind.
Proof. solve_decision. Defined.

#[global] Instance Object_eq_dec : EqDecision Object.
Proof. solve_decision. Defined.

Section ReceiveNotions.
Context {platform : Platform} {mailbox : Mailbox} {ports : Ports}.

(** A receiver that uses the two natives of the mailbox as they are meant
    to be: it asks for the channel of the current message and, unless
    the answer is the null object, takes the message for this channel,
    again and again.  The result lists the channels with their
    messages. *)
Fixpoint receive_messages (fuel : nat) (p : Process)
  : option (Process * list (Object * Object)) :=
  '(p, channel) ← ProcessQueueGetChannel p;
  if decide (channel = null_object (program_ p)) then Some (p, [])
  else
    match fuel with
    | O => None
    | S fuel =>
        '(p, message) ← ProcessQueueGetMessage p;
        '(p, received) ← receive_messages fuel p;
        Some (p, (channel, message) :: received)
    end.

(** The messages whose channel is alive. *)
Definition live (queue : list Message) : list Message :=
  filter (fun m => Message_port_channel m <> 0) queue.

(** A message whose payload needs no allocation. *)
Definition plain (m : Message) : Prop :=
  Message_kind m = IMMEDIATE \/ Message_kind m = IMMUTABLE_OBJECT.

End ReceiveNotions.

(** * A concrete process *)

Section ConcreteProcess.

(** A 64-bit platform with a stack limit of 128 K words. *)
Definition platform64 : Platform :=
  {| kBitsPerWord := 64; MaxStackSizeInWords := 131072;
     kGuaranteedFrameSize := 32; kStackSize := 32; kArraySize := 16;
     kInstanceSize := 8; kLargeIntegerSize := 16; kFunctionSize := 32;
     kBcpSlotOffset := -1;
     word_bits := or_intror eq_refl;
     max_stack_is_int := ltac:(lia);
     frame_size_nonneg := ltac:(lia);
     stack_header_positive := ltac:(lia);
     headers_nonneg := ltac:(lia) |}.

#[local] Existing Instance platform64.

(** A collector that makes room: it leaves the objects where they are and
    gives the space 64 KiB more. *)
Definition example_collector : Collector :=
  {| CollectSharedGarbage p :=
       set_heap {| allocation_base := allocation_base (heap_ p);
                   allocation_top := allocation_top (heap_ p);
                   allocation_limit := allocation_limit (heap_ p) + 65536;
                   foreign_memory := foreign_memory (heap_ p);
                   weak_pointers := weak_pointers (heap_ p) |} p |}.

#[local] Existing Instance example_collector.

Definition example_mailbox : Mailbox :=
  {| MergeChildHeaps _ mh := mh |}.

#[local] Existing Instance example_mailbox.

(** Functions lie 256 bytes apart in the program heap. *)
Definition example_program : Program :=
  {| null_object := HeapPointer 1024; array_class := 1040; stack_class := 1056;
     coroutine_class := 1072; large_integer_class := 1088;
     foreign_memory_class := 1104; process_class := 1120;
     process_death_class := 1136;
     NumberOfInstanceFields := fun k => if k =? 1104 then 4%nat else 2%nat;
     Function_FromBytecodePointer := fun bcp => bcp / 256 * 256 |}.

(** A stack of 256 words at address 4096 with two frames: the word at the
    top links to the frame at word 252, which links to the frame at word
    255, the last one; the byte-code pointers are at words 251 and 254. *)
Definition example_stack : Stack :=
  {| Stack_top := 250; Stack_next := Smi_zero;
     Stack_words := replicate 250 0 ++
       [Stack_Pointer 4096 252; 2097152 + 32 + 5;
        Stack_Pointer 4096 255; 7; 2097408 + 32 + 12; 0] |}.

Definition example_memory : Memory :=
  <[6176 := InstanceObject 1072 false [HeapPointer 4096; HeapPointer 1024]]>
    (<[4096 := StackObject example_stack]> ∅).

Definition example_heap : Heap :=
  {| allocation_base := 4096; allocation_top := 6200;
     allocation_limit := 69632; foreign_memory := 0; weak_pointers := [] |}.

Definition example_immutable_heap : Heap :=
  {| allocation_base := 1048576; allocation_top := 1048576;
     allocation_limit := 1114112; foreign_memory := 0; weak_pointers := [] |}.

Definition example_process : Process :=
  {| coroutine_ := 6176; stack_limit_ := 4400; program_ := example_program;
     memory_ := example_memory; heap_ := example_heap;
     immutable_heap_ := example_immutable_heap; store_buffer_ := [4096];
     mailbox_ := []; cooked_stack_deltas_ := []; events_ := [] |}.

(** The same process after [Preempt()] and [Profile()]. *)
Definition example_interrupted : Process :=
  set_stack_limit
    (SetStackMarker kProfileMarker (SetStackMarker kPreemptMarker 4400))
    example_process.

(** The same process with no room left in its heap. *)
Definition example_full : Process :=
  set_heap {| allocation_base := 4096; allocation_top := 6200;
              allocation_limit := 6200; foreign_memory := 0;
              weak_pointers := [] |} example_process.


Definition example_foreign : Message :=
  {| Message_kind := FOREIGN_FINALIZED; Message_value := 40960;
     Message_size := 128; Message_object := Smi_zero;
     Message_signal_kind := 0; Message_handle := 0 |}.


(** One class, [1], with a method for the selector [7] and the
    [noSuchMethod] trampoline; no intrinsics. *)
Definition example_dispatch : Dispatch :=
  {| LookupMethod c s :=
       if c =? 1 then (if s =? 7 then 900 else if s =? 3072 then 800 else 0)
       else 0;
     ComputeIntrinsic _ := 0;
     ComputeSecondaryIndex c s := (c + s) mod 4;
     Selector_Encode name kind arity := name * 1024 + kind * 256 + arity;
     Names_kNoSuchMethodTrampoline := 3;
     Selector_METHOD := 0 |}.

#[local] Existing Instance example_dispatch.

Definition empty_entry : Entry :=
  {| Entry_clazz := 0; Entry_selector := 0; Entry_target := 0; Entry_tag := 0 |}.

Definition example_cache : LookupCache :=
  {| primary := replicate 4 empty_entry; secondary := replicate 4 empty_entry |}.

(** Two senders race for a null slot: both load, the second one exchanges
    first, the first one fails its exchange, loads again and decrements. *)
Definition example_race : list (nat * bool) :=
  [(0%nat, false); (1%nat, false); (1%nat, false);
   (0%nat, false); (0%nat, false); (0%nat, false)].

(** The stack of the example process chained to a second stack of 256
    words at address 8192 with two frames of its own. *)
Definition example_first_stack : Stack :=
  Stack_set_next (HeapPointer 8192) example_stack.

Definition example_second_stack : Stack :=
  {| Stack_top := 250; Stack_next := Smi_zero;
     Stack_words := replicate 250 0 ++
       [Stack_Pointer 8192 252; 2097152 + 32 + 5;
        Stack_Pointer 8192 255; 7; 2097408 + 32 + 12; 0] |}.

Definition example_chain : list (Z * Stack) :=
  [(4096, example_first_stack); (8192, example_second_stack)].

Definition example_two : Process :=
  set_memory (store_stacks example_chain example_memory) example_process.

(** The same chain cooked, after the two functions moved up by 4096. *)
Definition example_moved_chain : list (Z * Stack) :=
  [(4096, with_slots 4096 example_first_stack [2101248; 2101504]);
   (8192, with_slots 8192 example_second_stack [2101248; 2101504])].

Definition example_moved : Process :=
  set_cooked_stack_deltas [[5; 12]; [5; 12]]
    (set_memory (store_stacks example_moved_chain example_memory)
       example_process).

(** [n] frames of three words from the word [slot - 1] on: the byte-code
    pointer, the link to the next frame ([NULL] in the last one) and one
    more word. *)
Fixpoint deep_frames (a : Z) (slot : Z) (n : nat) : list Z :=
  match n with
  | O => []
  | S n' =>
      [2097152 + 32 + 5;
       match n' with O => 0 | S _ => Stack_Pointer a (slot + 3) end;
       7] ++ deep_frames a (slot + 3) n'
  end.

(** A stack of 1024 words at address 8192 with 257 frames. *)
Definition deep_stack : Stack :=
  {| Stack_top := 252; Stack_next := Smi_zero;
     Stack_words := replicate 252 0 ++ [Stack_Pointer 8192 254]
                    ++ deep_frames 8192 254 257 |}.

Definition deep_chain : list (Z * Stack) :=
  [(4096, example_first_stack); (8192, deep_stack)].

(** The stack of the example process chained to the deep stack. *)
Definition example_chained : Process :=
  set_memory (store_stacks deep_chain example_memory) example_process.




(** The two stacks of [example_two] before a collection chains them. *)
Definition example_unchained : Process :=
  set_memory (<[8192 := StackObject example_second_stack]> example_memory)
             example_process.

(** A board: the vector table at 0x08000000 starts with the initial stack
    pointer 0x20050000, and the heap starts at 0x20001000. *)
Definition example_board : Board :=
  {| end_address := 0x20001000;
     read_uint := fun a =>
       if a =? 0xE000ED08 then 0x08000000
       else if a =? 0x08000000 then 0x20050000 else 0 |}.

(** Four immediate messages; the port of the messages with an odd value
    has lost its channel, the channel of the others is at 12288. *)
Definition example_immediate (v : Z) : Message :=
  {| Message_kind := IMMEDIATE; Message_value := v;
     Message_size := 0; Message_object := Smi v;
     Message_signal_kind := 0; Message_handle := 0 |}.

Definition example_ports : Ports :=
  {| Message_port_channel := fun m =>
       if Z.odd (Message_value m) then 0 else 12288 |}.

Definition example_waiting : Process :=
  set_mailbox (map example_immediate [1; 2; 3; 4]) example_process.

(** The process with a finalized foreign message as the current one. *)
Definition example_foreign_waiting : Process :=
  set_mailbox [example_foreign] example_process.

End ConcreteProcess.

(** * Properties *)

(** ** The stack-limit word *)

Section LimitProperties.
Context {platform : Platform}.

Lemma kMaxStackMarker_value : kMaxStackMarker = 2 ^ kBitsPerWord - 8.
Proof.
  unfold kMaxStackMarker, to_uword.
  destruct word_bits as [-> | ->]; reflexivity.
Qed.

Lemma word_size_lower : 2 ^ 32 <= 2 ^ kBitsPerWord.
Proof. destruct word_bits as [-> | ->]; lia. Qed.

Lemma kWordSize_positive : 0 < kWordSize.
Proof. unfold kWordSize. destruct word_bits as [-> | ->]; reflexivity. Qed.




Lemma to_uword_is_uword z : is_uword (to_uword z).
Proof.
  unfold is_uword, to_uword. apply Z.mod_pos_bound.
  pose proof word_size_lower. lia.
Qed.

Lemma kMaxStackMarker_is_uword : is_uword kMaxStackMarker.
Proof. apply to_uword_is_uword. Qed.










End LimitProperties.

(** ** Interrupts at the stack check *)

Section InterruptProperties.
Context {platform : Platform} {collector : Collector}.

Lemma SetStackMarker_loop_result fails marker cell :
  SetStackMarker_loop fails marker cell cell = Some (SetStackMarker marker cell).
Proof.
  induction fails as [| [|] fails IH]; cbn;
    unfold compare_exchange_strong; rewrite ?Z.eqb_refl; auto.
Qed.

Lemma ClearStackMarker_loop_result fails marker cell :
  ClearStackMarker_loop fails marker cell cell = ClearStackMarker marker cell.
Proof.
  unfold ClearStackMarker.
  induction fails as [| [|] fails IH]; cbn;
    destruct (Z.land cell marker =? 0) eqn:Hb; auto;
    unfold compare_exchange_strong; rewrite ?Z.eqb_refl; auto.
Qed.

Lemma sentinel_cases l :
  is_uword l -> kMaxStackMarker <= l ->
  exists b, l = 2 ^ kBitsPerWord - 8 + b /\
            (b = 0 \/ b = 1 \/ b = 2 \/ b = 3 \/ b = 4 \/ b = 5 \/ b = 6 \/ b = 7).
Proof.
  unfold is_uword. rewrite kMaxStackMarker_value. intros [_ Hl] Hge.
  exists (l - (2 ^ kBitsPerWord - 8)). split; lia.
Qed.

Ltac sentinel_enumerate H1 H2 :=
  destruct (sentinel_cases _ H1 H2) as
    (b & -> & [-> | [-> | [-> | [-> | [-> | [-> | [-> | ->]]]]]]]).

(** Clearing a marker clears its bit and no other. *)
Lemma clear_marker_bits l m m' :
  is_uword l -> kMaxStackMarker <= l ->
  pending m' (Z.land l (to_uword (Z.lnot (marker_bit m)))) =
  if Marker_eqb m' m then false else pending m' l.
Proof.
  intros H1 H2. unfold pending, to_uword.
  sentinel_enumerate H1 H2;
    destruct word_bits as [-> | ->]; destruct m, m'; reflexivity.
Qed.



Lemma UpdateStackLimit_result p a s :
  stack p = Some (a, s) ->
  UpdateStackLimit p =
  Some (log EvUpdateStackLimit
          (set_stack_limit
             (if stack_limit_ p <=? kMaxStackMarker
              then to_uword (Stack_Pointer a (kGuaranteedFrameSize + 2))
              else stack_limit_ p) p)).
Proof.
  intros Hs. unfold UpdateStackLimit. rewrite Hs. cbn.
  unfold UpdateStackLimit_word, compare_exchange_strong.
  rewrite Z.eqb_refl. destruct (stack_limit_ p <=? kMaxStackMarker); reflexivity.
Qed.

Lemma first_pending_is_pending l m :
  first_pending l = Some m -> pending m l = true.
Proof.
  unfold first_pending.
  destruct (pending Preempt l) eqn:H1; [intros [= <-]; exact H1 |].
  destruct (pending DebugInterrupt l) eqn:H2; [intros [= <-]; exact H2 |].
  destruct (pending Profile l) eqn:H3; [intros [= <-]; exact H3 |].
  discriminate.
Qed.

(** C4.  On a stack-limit word at or above [kMaxStackMarker],
    [HandleStackOverflow] services one pending marker per call, the first in
    the order preempt, debug-interrupt, profile: it clears that bit and no
    other, recomputes the stack limit, and returns [Interrupt],
    [DebugInterrupt] or [Continue] for it; the memory (so the stack object
    of the coroutine), the coroutine and the store buffer are as before. *)
Theorem HandleStackOverflow_services_one_marker
    (addition : Z) (p : Process) (a : Z) (s : Stack) (m : Marker) :
  stack p = Some (a, s) ->
  is_uword (stack_limit_ p) ->
  kMaxStackMarker <= stack_limit_ p ->
  first_pending (stack_limit_ p) = Some m ->
  let cleared := Z.land (stack_limit_ p) (to_uword (Z.lnot (marker_bit m))) in
  let real := to_uword (Stack_Pointer a (kGuaranteedFrameSize + 2)) in
  exists p',
    HandleStackOverflow addition p = Some (p', marker_result m) /\
    events_ p' =
      events_ p ++ [EvClearStackMarker (marker_bit m); EvUpdateStackLimit] /\
    stack_limit_ p' = (if cleared <=? kMaxStackMarker then real else cleared) /\
    (forall m', pending m' cleared =
                if Marker_eqb m' m then false else pending m' (stack_limit_ p)) /\
    memory_ p' = memory_ p /\ coroutine_ p' = coroutine_ p /\
    store_buffer_ p' = store_buffer_ p /\ heap_ p' = heap_ p.
Proof.
  intros Hs Hw Hge Hfirst cleared real.
  assert (Hge' : (kMaxStackMarker <=? stack_limit_ p) = true)
    by (apply Z.leb_le; exact Hge).
  pose proof (first_pending_is_pending _ _ Hfirst) as Hp.
  set (p1 := log (EvClearStackMarker (marker_bit m))
                 (set_stack_limit cleared p)).
  assert (Hclear : Process_ClearStackMarker (marker_bit m) p = Some p1).
  { unfold Process_ClearStackMarker, ClearStackMarker.
    unfold pending in Hp. apply negb_true_iff in Hp. rewrite Hp. reflexivity. }
  assert (Hs1 : stack p1 = Some (a, s)) by exact Hs.
  pose proof (UpdateStackLimit_result p1 a s Hs1) as Hup.
  eexists. split; [| split; [| split; [| split]]].
  - unfold HandleStackOverflow. rewrite Hge'. cbn [andb].
    unfold first_pending in Hfirst. unfold pending in Hfirst.
    cbn [marker_bit] in Hfirst.
    destruct (negb (Z.land (stack_limit_ p) kPreemptMarker =? 0)) eqn:E1.
    { injection Hfirst as <-. cbn [marker_bit] in *.
      rewrite Hclear. cbn [mbind option_bind]. rewrite Hup. reflexivity. }
    destruct (negb (Z.land (stack_limit_ p) kDebugInterruptMarker =? 0)) eqn:E2.
    { injection Hfirst as <-. cbn [marker_bit] in *.
      rewrite Hclear. cbn [mbind option_bind]. rewrite Hup. reflexivity. }
    destruct (negb (Z.land (stack_limit_ p) kProfileMarker =? 0)) eqn:E3.
    { injection Hfirst as <-. cbn [marker_bit] in *.
      rewrite Hclear. cbn [mbind option_bind]. rewrite Hup. reflexivity. }
    discriminate.
  - cbn. rewrite <- app_assoc. reflexivity.
  - reflexivity.
  - intros m'. apply clear_marker_bits; assumption.
  - repeat split; reflexivity.
Qed.

End InterruptProperties.

(** ** The factories and the store buffer *)

Section FactoryProperties.
Context {platform : Platform} {collector : Collector}.

Lemma NewStack_inserts len p p' o :
  NewStack len p = (p', o) -> IsFailure o = false ->
  exists a, o = HeapPointer a /\ a ∈ store_buffer_ p' /\
            store_buffer_ p' = a :: store_buffer_ p /\
            events_ p' = events_ p ++ [EvAllocate o; EvInsert a] /\
            memory_ p' = <[a := StackObject
                               {| Stack_top := len; Stack_next := Smi_zero;
                                  Stack_words := replicate (Z.to_nat len) 0 |}]>
                           (memory_ p) /\
            a = allocation_top (heap_ p) /\
            coroutine_ p' = coroutine_ p /\ stack_limit_ p' = stack_limit_ p /\
            program_ p' = program_ p /\
            cooked_stack_deltas_ p' = cooked_stack_deltas_ p.
Proof.
  unfold NewStack, CreateStack, Heap_create, Allocate.
  destruct (allocation_top (heap_ p) + _ <=? allocation_limit (heap_ p));
    cbn; intros [= <- <-]; [| discriminate].
  intros _. eexists. split; [reflexivity |]. cbn.
  repeat split; [left | rewrite <- app_assoc; reflexivity].
Qed.

Lemma NewStack_fails len p p' o :
  NewStack len p = (p', o) -> IsFailure o = true ->
  o = retry_after_gc /\ events_ p' = events_ p ++ [EvAllocate o] /\
  memory_ p' = memory_ p /\ store_buffer_ p' = store_buffer_ p /\
  coroutine_ p' = coroutine_ p /\ stack_limit_ p' = stack_limit_ p /\
  heap_ p' = heap_ p /\ program_ p' = program_ p.
Proof.
  unfold NewStack, CreateStack, Heap_create, Allocate.
  destruct (allocation_top (heap_ p) + _ <=? allocation_limit (heap_ p));
    cbn; intros [= <- <-]; [discriminate |].
  intros _. repeat split.
Qed.

Lemma NewStack_result_cases len p :
  snd (NewStack len p) = retry_after_gc \/
  exists a, snd (NewStack len p) = HeapPointer a.
Proof.
  unfold NewStack, CreateStack, Heap_create, Allocate.
  destruct (allocation_top (heap_ p) + _ <=? allocation_limit (heap_ p));
    cbn; eauto.
Qed.

Lemma NewArray_leaves_store_buffer len p p' o :
  NewArray len p = (p', o) ->
  store_buffer_ p' = store_buffer_ p /\
  events_ p' = events_ p ++ [EvAllocate o].
Proof.
  unfold NewArray, CreateArray, Heap_create, Allocate.
  destruct (allocation_top (heap_ p) + _ <=? allocation_limit (heap_ p));
    cbn; intros [= <- <-]; split; reflexivity.
Qed.

(** C1, as the code has it.  After [NewStack(n)] returns a stack that is not
    a failure, the stack is in the store buffer: the factory inserted it.
    [NewArray(n)] inserts nothing: it returns what the heap created and
    leaves the store buffer as it was. *)
Theorem NewStack_inserts_NewArray_does_not
    (n : Z) (p p1 p2 : Process) (S A : Object) :
  NewStack n p = (p1, S) -> IsFailure S = false ->
  NewArray n p = (p2, A) ->
  (exists a, S = HeapPointer a /\ a ∈ store_buffer_ p1 /\
             events_ p1 = events_ p ++ [EvAllocate S; EvInsert a]) /\
  store_buffer_ p2 = store_buffer_ p /\
  events_ p2 = events_ p ++ [EvAllocate A].
Proof.
  intros HS Hf HA. split.
  - destruct (NewStack_inserts _ _ _ _ HS Hf) as (a & -> & Hin & _ & Hev & _).
    eauto.
  - eapply NewArray_leaves_store_buffer, HA.
Qed.

End FactoryProperties.

(** ** The current stack stays tracked *)

Section TrackingProperties.
Context {platform : Platform} {collector : Collector}.

Lemma stack_StoreBuffer_Insert a p : stack (StoreBuffer_Insert a p) = stack p.
Proof. reflexivity. Qed.

Lemma UpdateStackLimit_effect p p' :
  UpdateStackLimit p = Some p' ->
  exists a s, stack p = Some (a, s) /\
    p' = log EvUpdateStackLimit
           (set_stack_limit
              (if stack_limit_ p <=? kMaxStackMarker
               then to_uword (Stack_Pointer a (kGuaranteedFrameSize + 2))
               else stack_limit_ p) p).
Proof.
  intros H. destruct (stack p) as [[a s] |] eqn:Hs.
  - rewrite (UpdateStackLimit_result p a s Hs) in H. injection H as <-. eauto.
  - unfold UpdateStackLimit in H. rewrite Hs in H. discriminate.
Qed.

Lemma Coroutine_set_stack_effect c o p p' :
  Coroutine_set_stack c o p = Some p' ->
  exists k i f fields,
    memory_ p !! c = Some (InstanceObject k i (f :: fields)) /\
    p' = set_memory (<[c := InstanceObject k i (o :: fields)]> (memory_ p)) p.
Proof.
  unfold Coroutine_set_stack, heap_object.
  destruct (memory_ p !! c) as [[| | k i [| f fields] |] |]; try discriminate.
  intros [= <-]. eauto 6.
Qed.

(** The stack [Coroutine_set_stack] installs is the one [stack] reads
    back. *)
Lemma stack_after_set_stack p p' new_a a s :
  Coroutine_set_stack (coroutine_ p) (HeapPointer new_a) p = Some p' ->
  stack p' = Some (a, s) -> a = new_a.
Proof.
  intros H. apply Coroutine_set_stack_effect in H as (k & i & f & fields & _ & ->).
  unfold stack, Coroutine_stack, heap_object. cbn.
  rewrite lookup_insert_eq. cbn. unfold heap_object. cbn.
  destruct (_ !! new_a) as [[| s' | |] |]; try discriminate.
  intros [= <- _]. reflexivity.
Qed.

Lemma Stack_cast_pointer o p a s :
  Stack_cast o p = Some (a, s) ->
  o = HeapPointer a /\ memory_ p !! a = Some (StackObject s).
Proof.
  destruct o as [| a0 |]; try discriminate. cbn. unfold heap_object.
  destruct (memory_ p !! a0) as [[| s0 | |] |] eqn:E; try discriminate.
  intros [= <- <-]. auto.
Qed.

Lemma install_new_stack_tracks o p p' r :
  install_new_stack o p = Some (p', r) ->
  r = kStackCheckContinue /\
  exists a s, o = HeapPointer a /\ stack p' = Some (a, s) /\
              store_buffer_ p' = a :: store_buffer_ p /\
              events_ p' = events_ p ++ [EvInsert a; EvUpdateStackLimit].
Proof.
  unfold install_new_stack. intros H.
  apply bind_Some in H as ([new_a new_stack] & Hcast & H).
  apply bind_Some in H as ([old_a old] & Hold & H).
  destruct (Stack_length old - Stack_top old <? 0); [discriminate |].
  apply bind_Some in H as (ws & Hcopy & H).
  apply bind_Some in H as (new_stack' & Hufp & H).
  apply bind_Some in H as (p2 & Hset & H).
  apply bind_Some in H as ([a s] & Hstack & H).
  apply bind_Some in H as (p3 & Hlimit & H).
  injection H as <- <-. split; [reflexivity |].
  assert (a = new_a) as ->.
  { eapply stack_after_set_stack; [exact Hset | exact Hstack]. }
  apply UpdateStackLimit_effect in Hlimit as (a' & s' & Hs' & ->).
  rewrite stack_StoreBuffer_Insert, Hstack in Hs'. injection Hs' as <- <-.
  apply Stack_cast_pointer in Hcast as [-> _].
  apply Coroutine_set_stack_effect in Hset as (k & i & f & fields & _ & ->).
  exists new_a, s. split; [reflexivity | split; [exact Hstack | split]].
  - reflexivity.
  - cbn. rewrite <- app_assoc. reflexivity.
Qed.




Lemma UpdateCoroutine_returns c p a s :
  stack (set_coroutine c p) = Some (a, s) -> is_Some (UpdateCoroutine c p).
Proof.
  intros Hs. unfold UpdateCoroutine. rewrite Hs. cbn.
  rewrite (UpdateStackLimit_result _ a s Hs). cbn. eauto.
Qed.







Lemma HandleStackOverflow_growth k p a s :
  no_marker_pending (stack_limit_ p) ->
  stack p = Some (a, s) ->
  HandleStackOverflow k p =
  if MaxStackSizeInWords <? grown_size k s then Some (p, kStackCheckOverflow)
  else
    '(p', o) ← allocate_new_stack (grown_size k s) p;
    if is_retry_after_gc o then Some (p', kStackCheckOverflow)
    else install_new_stack o p'.
Proof.
  intros Hno Hs. unfold HandleStackOverflow.
  assert (Hc : forall m,
             (kMaxStackMarker <=? stack_limit_ p)
             && negb (Z.land (stack_limit_ p) (marker_bit m) =? 0) = false).
  { intros m. destruct Hno as [Hlt | Hnone].
    - apply Z.leb_gt in Hlt. rewrite Hlt. reflexivity.
    - apply andb_false_iff. right. unfold first_pending, pending in Hnone.
      destruct (negb (Z.land _ (marker_bit Preempt) =? 0)) eqn:E1;
        [discriminate |].
      destruct (negb (Z.land _ (marker_bit DebugInterrupt) =? 0)) eqn:E2;
        [discriminate |].
      destruct (negb (Z.land _ (marker_bit Profile) =? 0)) eqn:E3;
        [discriminate |].
      destruct m; assumption. }
  pose proof (Hc Preempt) as H1. pose proof (Hc DebugInterrupt) as H2.
  pose proof (Hc Profile) as H3. cbn [marker_bit] in H1, H2, H3.
  rewrite H1, H2, H3, Hs. cbn.
  fold (grown_size k s).
  destruct (MaxStackSizeInWords <? grown_size k s); [reflexivity |].
  unfold allocate_new_stack.
  destruct (NewStack (grown_size k s) p) as [p1 o].
  destruct (is_retry_after_gc o) eqn:Hr; cbn; [| rewrite Hr; reflexivity].
  destruct (CollectMutableGarbage p1) as [p2 |]; cbn; [| reflexivity].
  destruct (NewStack (grown_size k s) p2) as [p3 o']. reflexivity.
Qed.



End TrackingProperties.

(** ** The lookup-cache miss path *)

Section LookupProperties.
Context {dispatch : Dispatch}.

Lemma List_get_set {A} (l l' : list A) i v :
  List_set l i v = Some l' -> List_get l' i = Some v.
Proof.
  unfold List_set, List_get.
  destruct (0 <=? i) eqn:H0; cbn; [| discriminate].
  destruct (i <? Z.of_nat (length l)) eqn:H1; [| discriminate].
  intros [= <-]. apply list_lookup_insert_eq.
  apply Z.ltb_lt in H1. apply Z.leb_le in H0. lia.
Qed.

Lemma List_set_in_range {A} (l : list A) i v :
  0 <= i < Z.of_nat (length l) -> is_Some (List_set l i v).
Proof.
  intros [H0 H1]. unfold List_set.
  apply Z.leb_le in H0. apply Z.ltb_lt in H1. rewrite H0, H1. cbn. eauto.
Qed.

Lemma List_get_in_range {A} (l : list A) i :
  0 <= i < Z.of_nat (length l) -> is_Some (List_get l i).
Proof.
  intros [H0 H1]. unfold List_get.
  pose proof H0 as H0'. apply Z.leb_le in H0'. rewrite H0'.
  apply lookup_lt_is_Some. lia.
Qed.

Lemma List_set_length {A} (l l' : list A) i v :
  List_set l i v = Some l' -> length l' = length l.
Proof.
  unfold List_set. destruct (_ && _); [| discriminate].
  intros [= <-]. apply length_insert.
Qed.

(** C2, as the code has it.  Called outside compact mode,
    [LookupEntrySlow(primary, c, s)] returns an entry.  On a hit in the
    secondary table it is the stored entry, and nothing is written.
    Otherwise it is the primary entry, rewritten for [(c, s)]: when
    [c.LookupMethod(s)] finds a target its tag is not zero (the address of
    the intrinsic, or 1); when it finds none and the resolution falls back
    to the [noSuchMethodTrampoline] selector of arity 0, its tag is zero. *)
Theorem LookupEntrySlow_tag
    (primary_index clazz selector : Z) (cache : LookupCache) :
  cache_in_range cache primary_index ->
  LookupMethod clazz selector <> 0 \/
  LookupMethod clazz no_such_method_selector <> 0 ->
  exists cache' e entry,
    LookupEntrySlow false primary_index clazz selector cache = Some (cache', e) /\
    entry_at cache' e = Some entry /\
    (secondary_hit cache clazz selector = true ->
       cache' = cache /\
       e = InSecondary (ComputeSecondaryIndex clazz selector)) /\
    (secondary_hit cache clazz selector = false ->
       e = InPrimary primary_index /\
       Entry_clazz entry = clazz /\ Entry_selector entry = selector /\
       (LookupMethod clazz selector <> 0 ->
          Entry_target entry = LookupMethod clazz selector /\
          Entry_tag entry =
            (if ComputeIntrinsic (LookupMethod clazz selector) =? 0 then 1
             else ComputeIntrinsic (LookupMethod clazz selector)) /\
          Entry_tag entry <> 0) /\
       (LookupMethod clazz selector = 0 ->
          Entry_target entry = LookupMethod clazz no_such_method_selector /\
          Entry_tag entry = 0)).
Proof.
  intros [Hp Hs] Hres. unfold LookupEntrySlow, secondary_hit.
  destruct (List_get_in_range (secondary cache)
              (ComputeSecondaryIndex clazz selector) (Hs _ _)) as [se Hse].
  rewrite Hse. cbn.
  destruct ((Entry_clazz se =? clazz) && (Entry_selector se =? selector)).
  { exists cache, (InSecondary (ComputeSecondaryIndex clazz selector)), se.
    cbn. repeat split; auto; discriminate. }
  fold no_such_method_selector.
  set (found := LookupMethod clazz selector) in *.
  set (fallback := LookupMethod clazz no_such_method_selector) in *.
  set (intrinsic := ComputeIntrinsic found).
  assert (Hdemote : is_Some (DemotePrimary primary_index cache)).
  { unfold DemotePrimary.
    destruct (List_get_in_range (primary cache) primary_index Hp) as [pe ->].
    cbn.
    destruct (List_set_in_range (secondary cache) _ pe
                (Hs (Entry_clazz pe) (Entry_selector pe))) as [l ->].
    cbn. eauto. }
  destruct Hdemote as [cache1 Hd]. rewrite Hd.
  assert (Hlen : length (primary cache1) = length (primary cache)).
  { unfold DemotePrimary in Hd.
    apply bind_Some in Hd as (pe & _ & Hd).
    apply bind_Some in Hd as (l & _ & Hd). injection Hd as <-. reflexivity. }
  assert (Hset : forall v, is_Some (List_set (primary cache1) primary_index v)).
  { intros v. apply List_set_in_range. rewrite Hlen. exact Hp. }
  destruct (found =? 0) eqn:Hf.
  - apply Z.eqb_eq in Hf.
    assert (Hfb : (fallback =? 0) = false)
      by (apply Z.eqb_neq; destruct Hres; [contradiction | assumption]).
    rewrite Hfb. cbn.
    destruct (Hset {| Entry_clazz := clazz; Entry_selector := selector;
                      Entry_target := fallback; Entry_tag := 0 |})
      as [entries Hentries].
    rewrite Hentries. cbn. do 3 eexists. split; [reflexivity |].
    split; [cbn; eapply List_get_set, Hentries |].
    split; [discriminate |]. intros _. cbn.
    repeat split; try reflexivity; intros; contradiction.
  - apply Z.eqb_neq in Hf. apply Z.eqb_neq in Hf as Hf'. rewrite Hf'. cbn.
    destruct (Hset {| Entry_clazz := clazz; Entry_selector := selector;
                      Entry_target := found;
                      Entry_tag := if intrinsic =? 0 then 1 else intrinsic |})
      as [entries Hentries].
    rewrite Hentries. cbn. do 3 eexists. split; [reflexivity |].
    split; [cbn; eapply List_get_set, Hentries |].
    split; [discriminate |]. intros _. cbn.
    repeat split; try reflexivity; try (intros; contradiction).
    destruct (intrinsic =? 0) eqn:Hi; [lia |]. apply Z.eqb_neq in Hi. exact Hi.
Qed.

End LookupProperties.

(** ** The mailbox native *)

Section NativeProperties.
Context {platform : Platform} {mailbox : Mailbox}.




















End NativeProperties.

(** ** The pending signal *)

Lemma signal_invariant_start slot0 signals :
  Forall (fun s => s <> 0) signals ->
  signal_invariant slot0 (slot0, map sender_start signals).
Proof.
  intros Hs. unfold signal_invariant.
  assert (Hstart : forall i t, map sender_start signals !! i = Some t ->
            exists s, t = sender_start s /\ s <> 0).
  { intros i t Ht. rewrite list_lookup_fmap in Ht.
    apply fmap_Some in Ht as (s & Hi & ->). exists s. split; [reflexivity |].
    rewrite Forall_forall in Hs. apply Hs. eapply list_elem_of_lookup_2, Hi. }
  split; [| split; [| split]].
  - intros i t Ht. destruct (Hstart _ _ Ht) as (s & -> & Hne). cbn.
    repeat split; auto; try discriminate.
    intros [H | [H _]]; discriminate.
  - intros i j t t' Ht _ Hi. destruct (Hstart _ _ Ht) as (s & -> & _).
    discriminate.
  - intros _ i t Ht. destruct (Hstart _ _ Ht) as (s & -> & _). reflexivity.
  - auto.
Qed.

Lemma signal_step_preserves slot0 step st :
  signal_invariant slot0 st -> signal_invariant slot0 (signal_step step st).
Proof.
  destruct st as [slot senders], step as [i spurious].
  intros Hinv. unfold signal_step.
  destruct (senders !! i) as [t |] eqn:Hi; [| exact Hinv].
  destruct Hinv as (Hall & Huniq & Hzero & Hkeep).
  destruct (Hall _ _ Hi) as (Hok & Hsig & Hinst & Hdec).
  assert (Hlt : (i < length senders)%nat) by (eapply lookup_lt_Some, Hi).
  (* every sender but [i] is as before *)
  assert (Hother : forall t' j u, <[i := t']> senders !! j = Some u ->
            (j = i /\ u = t') \/ (j <> i /\ senders !! j = Some u)).
  { intros t' j u Hu. destruct (decide (j = i)) as [-> | Hne].
    - rewrite list_lookup_insert_eq in Hu by exact Hlt. left.
      injection Hu as <-. auto.
    - rewrite list_lookup_insert_ne in Hu by congruence. auto. }
  unfold sender_step, sender_ok in *.
  destruct (sender_at t) eqn:Hat.
  - (* the load of the loop condition *)
    destruct Hok as [Hni Hnd].
    split; [| split; [| split]]; [| | | exact Hkeep].
    + intros j u Hu. destruct (Hother _ _ _ Hu) as [[-> ->] | [Hne Hj]];
        [| exact (Hall _ _ Hj)].
      cbn. destruct (slot =? 0) eqn:Hs; cbn.
      * repeat split; auto; try congruence. intros [H | [H _]]; discriminate.
      * apply Z.eqb_neq in Hs. repeat split; auto; congruence.
    + intros j j' u u' Hu Hu' Hiu Hiu'.
      destruct (Hother _ _ _ Hu) as [[-> ->] | [Hne Hj]];
        [cbn in Hiu; congruence |].
      destruct (Hother _ _ _ Hu') as [[-> ->] | [Hne' Hj']];
        [cbn in Hiu'; congruence |].
      eapply Huniq; eauto.
    + intros Hs j u Hu. destruct (Hother _ _ _ Hu) as [[-> ->] | [Hne Hj]];
        [exact Hni | eapply Hzero; eauto].
  - (* the exchange *)
    destruct Hok as [Hni Hnd].
    unfold compare_exchange_weak, compare_exchange_strong.
    destruct spurious; [| destruct (slot =? 0) eqn:Hs].
    + (* a spurious failure *)
      split; [| split; [| split]]; [| | | exact Hkeep].
      * intros j u Hu. destruct (Hother _ _ _ Hu) as [[-> ->] | [Hne Hj]];
          [| exact (Hall _ _ Hj)].
        cbn. repeat split; auto; try congruence.
        intros [H | [H _]]; discriminate.
      * intros j j' u u' Hu Hu' Hiu Hiu'.
        destruct (Hother _ _ _ Hu) as [[-> ->] | [Hne Hj]];
          [cbn in Hiu; congruence |].
        destruct (Hother _ _ _ Hu') as [[-> ->] | [Hne' Hj']];
          [cbn in Hiu'; congruence |].
        eapply Huniq; eauto.
      * intros Hs j u Hu. destruct (Hother _ _ _ Hu) as [[-> ->] | [Hne Hj]];
          [reflexivity | eapply Hzero; eauto].
    + (* the slot is null: the signal is installed *)
      apply Z.eqb_eq in Hs. subst slot.
      assert (Hnone : forall j u, senders !! j = Some u ->
                sender_installed u = false) by (apply Hzero; reflexivity).
      split; [| split; [| split]].
      * intros j u Hu. destruct (Hother _ _ _ Hu) as [[-> ->] | [Hne Hj]].
        -- cbn. split; [left; auto |]. split; [exact Hsig |]. split.
           ++ intros _. split; [reflexivity |].
              destruct (Z.eq_dec slot0 0) as [-> | Hn]; [reflexivity |].
              specialize (Hkeep Hn). congruence.
           ++ intros [H | [_ H]]; discriminate.
        -- destruct (Hall _ _ Hj) as (Hok' & Hsig' & Hinst' & Hdec').
           split; [exact Hok' |]. split; [exact Hsig' |]. split.
           ++ rewrite (Hnone _ _ Hj). discriminate.
           ++ intros _. exact Hsig.
      * intros j j' u u' Hu Hu' Hiu Hiu'.
        destruct (Hother _ _ _ Hu) as [[-> ->] | [Hne Hj]];
          destruct (Hother _ _ _ Hu') as [[-> ->] | [Hne' Hj']]; auto.
        -- rewrite (Hnone _ _ Hj') in Hiu'. discriminate.
        -- rewrite (Hnone _ _ Hj) in Hiu. discriminate.
        -- rewrite (Hnone _ _ Hj) in Hiu. discriminate.
      * intros H. contradiction.
      * intros Hn. specialize (Hkeep Hn). congruence.
    + (* another signal is there: the exchange fails *)
      split; [| split; [| split]]; [| | | exact Hkeep].
      * intros j u Hu. destruct (Hother _ _ _ Hu) as [[-> ->] | [Hne Hj]];
          [| exact (Hall _ _ Hj)].
        cbn. repeat split; auto; try congruence.
        intros [H | [H _]]; discriminate.
      * intros j j' u u' Hu Hu' Hiu Hiu'.
        destruct (Hother _ _ _ Hu) as [[-> ->] | [Hne Hj]];
          [cbn in Hiu; congruence |].
        destruct (Hother _ _ _ Hu') as [[-> ->] | [Hne' Hj']];
          [cbn in Hiu'; congruence |].
        eapply Huniq; eauto.
      * intros H j u Hu. destruct (Hother _ _ _ Hu) as [[-> ->] | [Hne Hj]];
          [reflexivity | eapply Hzero; eauto].
  - (* Signal::DecrementRef *)
    destruct Hok as [Hni Hnd].
    split; [| split; [| split]]; [| | | exact Hkeep].
    + intros j u Hu. destruct (Hother _ _ _ Hu) as [[-> ->] | [Hne Hj]];
        [| exact (Hall _ _ Hj)].
      cbn. rewrite Hni, Hnd. repeat split; auto; try discriminate.
    + intros j j' u u' Hu Hu' Hiu Hiu'.
      destruct (Hother _ _ _ Hu) as [[-> ->] | [Hne Hj]];
        [cbn in Hiu; congruence |].
      destruct (Hother _ _ _ Hu') as [[-> ->] | [Hne' Hj']];
        [cbn in Hiu'; congruence |].
      eapply Huniq; eauto.
    + intros Hs j u Hu. destruct (Hother _ _ _ Hu) as [[-> ->] | [Hne Hj]];
        [exact Hni | eapply Hzero; eauto].
  - (* returned *)
    rewrite list_insert_id by exact Hi.
    exact (conj Hall (conj Huniq (conj Hzero Hkeep))).
Qed.

Lemma signal_run_preserves slot0 schedule st :
  signal_invariant slot0 st -> signal_invariant slot0 (signal_run schedule st).
Proof.
  unfold signal_run. revert st.
  induction schedule as [| step schedule IH]; cbn; intros st Hinv;
    [exact Hinv |].
  apply IH, signal_step_preserves, Hinv.
Qed.



(** ** Stack growth *)

Section GrowthProperties.
Context {platform : Platform} {collector : Collector}.

Lemma Stack_slot_Pointer a n i :
  0 <= i < Z.of_nat n -> Stack_slot a n (Stack_Pointer a i) = Some (Z.to_nat i).
Proof.
  intros Hi. pose proof kWordSize_positive as Hws.
  unfold Stack_slot, Stack_Pointer.
  replace (a + kStackSize + i * kWordSize - (a + kStackSize + 0 * kWordSize))
    with (i * kWordSize) by lia.
  rewrite Z.mod_mul, Z.div_mul by lia.
  replace (0 <=? i * kWordSize) with true by (symmetry; apply Z.leb_le; nia).
  replace (i <? Z.of_nat n) with true by (symmetry; apply Z.ltb_lt; lia).
  rewrite Z.eqb_refl. reflexivity.
Qed.

Lemma Stack_slot_inv a n q j :
  Stack_slot a n q = Some j ->
  q = Stack_Pointer a (Z.of_nat j) /\ (j < n)%nat.
Proof.
  pose proof kWordSize_positive as Hws.
  unfold Stack_slot.
  set (d := q - Stack_Pointer a 0).
  destruct (0 <=? d) eqn:H0; [| discriminate].
  destruct (d mod kWordSize =? 0) eqn:H1; [| discriminate].
  destruct (d / kWordSize <? Z.of_nat n) eqn:H2; [| discriminate].
  cbn. intros [= <-].
  apply Z.leb_le in H0. apply Z.eqb_eq in H1. apply Z.ltb_lt in H2.
  pose proof (Z.div_pos d kWordSize H0 Hws) as Hq.
  split; [| lia].
  rewrite Z2Nat.id by assumption.
  assert (Hnz : kWordSize <> 0) by lia.
  pose proof (Z.div_mod d kWordSize Hnz) as Hd.
  rewrite H1 in Hd. unfold Stack_Pointer in *. subst d. lia.
Qed.

Lemma Stack_slot_shift old_a new_a n shift fp i :
  Stack_slot old_a n fp = Some i ->
  Stack_slot new_a (n + shift)
    (fp + (Stack_Pointer new_a (Z.of_nat (n + shift))
           - Stack_Pointer old_a (Z.of_nat n)))
  = Some (i + shift)%nat.
Proof.
  intros H. apply Stack_slot_inv in H as [-> Hlt].
  replace (Stack_Pointer old_a (Z.of_nat i) +
           (Stack_Pointer new_a (Z.of_nat (n + shift))
            - Stack_Pointer old_a (Z.of_nat n)))
    with (Stack_Pointer new_a (Z.of_nat (i + shift)))
    by (unfold Stack_Pointer; lia).
  rewrite Stack_slot_Pointer by lia. f_equal. lia.
Qed.



Lemma UpdateFramePointers_loop_spec old_a new_a old shift :
  let diff := Stack_Pointer new_a (Z.of_nat (length old + shift))
              - Stack_Pointer old_a (Z.of_nat (length old)) in
  forall fuel links c fp,
    frame_links fuel old_a old fp = Some links ->
    NoDup links ->
    length c = (length old + shift)%nat ->
    (forall i, i ∈ links -> c !! (i + shift)%nat = old !! i) ->
    UpdateFramePointers_loop fuel new_a diff c (fp + diff)
    = Some (relocate_links diff old shift links c).
Proof.
  intros diff fuel. induction fuel as [| fuel IH]; intros links c fp Hl Hnd Hlen Hc;
    [discriminate |].
  cbn in Hl. apply bind_Some in Hl as (i & Hi & Hl).
  apply bind_Some in Hl as (link & Hlink & Hl).
  assert (Hslot : Stack_slot new_a (length c) (fp + diff) = Some (i + shift)%nat).
  { rewrite Hlen. apply Stack_slot_shift, Hi. }
  assert (Hlt : (i + shift < length c)%nat).
  { apply Stack_slot_inv in Hi as [_ Hi]. lia. }
  cbn. unfold Stack_load, Stack_store. rewrite Hslot. cbn.
  destruct (link =? 0) eqn:Hz.
  - injection Hl as <-. rewrite (Hc i) by left. rewrite Hlink. cbn. rewrite Hz.
    unfold relocate_links. cbn. rewrite Hlink. cbn. unfold relocate. rewrite Hz.
    apply Z.eqb_eq in Hz. subst link.
    rewrite list_insert_id; [reflexivity |]. rewrite (Hc i) by left. exact Hlink.
  - apply bind_Some in Hl as (rest & Hrest & [= <-]).
    apply NoDup_cons in Hnd as [Hni Hnd].
    rewrite (Hc i) by left. rewrite Hlink. cbn. rewrite Hz.
    rewrite (IH rest (<[(i + shift)%nat := link + diff]> c) link Hrest Hnd).
    + unfold relocate_links. cbn. rewrite Hlink. cbn.
      change (relocate diff link) with (if link =? 0 then 0 else link + diff).
      rewrite Hz. reflexivity.
    + rewrite length_insert. exact Hlen.
    + intros j Hj. rewrite list_lookup_insert_ne.
      * apply Hc. right. exact Hj.
      * intros Heq. assert (i = j) by lia. subst j. contradiction.
Qed.

Lemma frame_links_fuel fuel fuel' a ws fp links :
  frame_links fuel a ws fp = Some links -> (fuel <= fuel')%nat ->
  frame_links fuel' a ws fp = Some links.
Proof.
  revert fuel' fp links. induction fuel as [| fuel IH];
    intros fuel' fp links H Hle; [discriminate |].
  destruct fuel' as [| fuel']; [lia |]. cbn in *.
  destruct (Stack_slot a (length ws) fp) as [i |]; [| discriminate]. cbn in *.
  destruct (ws !! i) as [link |]; [| discriminate]. cbn in *.
  destruct (link =? 0); [exact H |].
  apply bind_Some in H as (rest & Hrest & [= <-]).
  rewrite (IH fuel' link rest Hrest) by lia. reflexivity.
Qed.

Lemma to_int_small z : is_int z -> to_int z = z.
Proof.
  unfold is_int, to_int. intros H. rewrite Z.mod_small by lia. lia.
Qed.


Lemma stack_inv p a s :
  stack p = Some (a, s) ->
  memory_ p !! a = Some (StackObject s) /\
  exists k i fields,
    memory_ p !! coroutine_ p
    = Some (InstanceObject k i (HeapPointer a :: fields)).
Proof.
  unfold stack, Coroutine_stack, heap_object. intros H.
  apply bind_Some in H as (o & Ho & H).
  destruct (memory_ p !! coroutine_ p) as [[| | k i [| f fields] |] |] eqn:Hc;
    try discriminate.
  injection Ho as ->. apply Stack_cast_pointer in H as [-> Hm].
  split; [exact Hm |]. eauto.
Qed.

Lemma stack_intro p a s k i fields :
  memory_ p !! a = Some (StackObject s) ->
  memory_ p !! coroutine_ p
    = Some (InstanceObject k i (HeapPointer a :: fields)) ->
  stack p = Some (a, s).
Proof.
  intros Ha Hc. unfold stack, Coroutine_stack, heap_object. rewrite Hc. cbn.
  unfold heap_object. rewrite Ha. reflexivity.
Qed.

Lemma frames_well_formed_top a s links :
  frames_well_formed a s links -> 0 <= Stack_top s < Stack_length s.
Proof.
  intros (Hl & _ & _). cbn in Hl.
  apply bind_Some in Hl as (i & Hi & _).
  apply Stack_slot_inv in Hi as [Heq Hlt].
  pose proof kWordSize_positive. unfold Stack_Pointer in Heq.
  assert (Stack_top s = Z.of_nat i) by nia. unfold Stack_length. lia.
Qed.

Lemma memcpy_live_words (n : nat) (top : nat) (old : list Z) (shift : nat) :
  (top <= length old)%nat -> n = (length old + shift)%nat ->
  memcpy_words (replicate n 0) (Z.of_nat (top + shift)) old (Z.of_nat top)
               (Z.of_nat (length old - top))
  = Some (replicate (top + shift) 0 ++ drop top old).
Proof.
  intros Htop ->. unfold memcpy_words. rewrite length_replicate.
  replace (_ && _ && _ && _ && _) with true.
  2:{ symmetry. repeat (apply andb_true_iff; split); apply Z.leb_le; lia. }
  rewrite !Nat2Z.id.
  replace (Z.to_nat (Z.of_nat (top + shift) + Z.of_nat (length old - top)))
    with (length old + shift)%nat by lia.
  rewrite take_replicate, drop_replicate.
  replace (length old + shift - (length old + shift))%nat with 0%nat by lia.
  rewrite Nat.min_l by lia. cbn. rewrite app_nil_r.
  rewrite take_ge by (rewrite length_drop; lia). reflexivity.
Qed.

Lemma install_new_stack_result p new_a new_length a s links k i fields :
  memory_ p !! new_a =
    Some (StackObject {| Stack_top := new_length; Stack_next := Smi_zero;
                         Stack_words := replicate (Z.to_nat new_length) 0 |}) ->
  memory_ p !! a = Some (StackObject s) ->
  memory_ p !! coroutine_ p
    = Some (InstanceObject k i (HeapPointer a :: fields)) ->
  frames_well_formed a s links ->
  Stack_length s <= new_length ->
  exists p',
    install_new_stack (HeapPointer new_a) p = Some (p', kStackCheckContinue) /\
    stack p' = Some (new_a, grown_stack new_a new_length a s links).
Proof.
  intros Hnew Ha Hc Hwf Hlen.
  pose proof (frames_well_formed_top _ _ _ Hwf) as Htop.
  destruct Hwf as (Hlinks & Hnd & Hlive).
  assert (Hne : new_a <> coroutine_ p) by (intros ->; congruence).
  set (topn := Z.to_nat (Stack_top s)).
  set (shift := Z.to_nat (new_length - Stack_length s)).
  set (old := Stack_words s) in *.
  assert (HL : Stack_length s = Z.of_nat (length old)) by reflexivity.
  assert (Ht : Stack_top s = Z.of_nat topn) by (unfold topn; lia).
  assert (Hn : new_length = Z.of_nat (length old + shift))
    by (unfold shift; lia).
  assert (Hfresh : Stack_length
            {| Stack_top := new_length; Stack_next := Smi_zero;
               Stack_words := replicate (Z.to_nat new_length) 0 |}
          = new_length).
  { unfold Stack_length. cbn. rewrite length_replicate. lia. }
  unfold install_new_stack.
  assert (Hcast : Stack_cast (HeapPointer new_a) p =
            Some (new_a, {| Stack_top := new_length; Stack_next := Smi_zero;
                            Stack_words := replicate (Z.to_nat new_length) 0 |})).
  { unfold Stack_cast, heap_object. rewrite Hnew. reflexivity. }
  rewrite Hcast. cbn [mbind option_bind].
  rewrite (stack_intro p a s k i fields Ha Hc). cbn [mbind option_bind].
  replace (Stack_length s - Stack_top s <? 0) with false
    by (symmetry; apply Z.ltb_ge; lia).
  rewrite Hfresh.
  cbn [Stack_set_top Stack_set_words Stack_words Stack_top Stack_next].
  fold old.
  replace (new_length - (Stack_length s - Stack_top s))
    with (Z.of_nat (topn + shift)) by lia.
  replace (Stack_length s - Stack_top s) with (Z.of_nat (length old - topn))
    by lia.
  rewrite Ht.
  rewrite (memcpy_live_words (Z.to_nat new_length) topn old shift) by lia.
  cbn [mbind option_bind].
  (* the frame pointers *)
  set (c := replicate (topn + shift) 0 ++ drop topn old).
  assert (Hclen : length c = (length old + shift)%nat).
  { unfold c. rewrite length_app, length_replicate, length_drop. lia. }
  unfold UpdateFramePointers.
  cbn [Stack_set_top Stack_set_words Stack_words Stack_top Stack_next].
  fold old.
  assert (Hclen' : forall x, Stack_length (Stack_set_words c x)
                              = Z.of_nat (length old + shift)).
  { intros x. unfold Stack_length. cbn. rewrite Hclen. reflexivity. }
  rewrite Hclen', HL.
  set (diff := Stack_Pointer new_a (Z.of_nat (length old + shift))
               - Stack_Pointer a (Z.of_nat (length old))).
  replace (Stack_Pointer new_a (Z.of_nat (topn + shift)))
    with (Stack_Pointer a (Z.of_nat topn) + diff)
    by (unfold diff, Stack_Pointer; lia).
  unfold diff.
  rewrite (UpdateFramePointers_loop_spec a new_a old shift
             (S (length c)) links c (Stack_Pointer a (Z.of_nat topn))).
  2:{ eapply frame_links_fuel; [rewrite <- Ht; exact Hlinks | lia]. }
  2:{ exact Hnd. }
  2:{ exact Hclen. }
  2:{ intros j Hj. rewrite Forall_forall in Hlive. specialize (Hlive j Hj).
      unfold c. rewrite lookup_app_r by (rewrite length_replicate; lia).
      rewrite length_replicate, lookup_drop. f_equal. lia. }
  cbn [mbind option_bind].
  (* the coroutine takes the new stack *)
  unfold Coroutine_set_stack, heap_object, store_stack.
  cbn [memory_ set_memory coroutine_].
  rewrite lookup_insert_ne by exact Hne. rewrite Hc. cbn [mbind option_bind].
  match goal with
  | |- context [stack ?q] =>
      assert (Hs : stack q = Some (new_a, grown_stack new_a new_length a s links))
  end.
  { eapply stack_intro; cbn [memory_ set_memory coroutine_].
    - rewrite lookup_insert_ne by congruence. rewrite lookup_insert_eq.
      unfold grown_stack. fold old topn shift. rewrite Hn, HL.
      unfold Stack_set_words, Stack_set_top. cbn [Stack_top Stack_next].
      do 3 f_equal. lia.
    - rewrite lookup_insert_eq. reflexivity. }
  rewrite Hs. cbn [mbind option_bind].
  match goal with
  | |- context [UpdateStackLimit ?q] =>
      rewrite (UpdateStackLimit_result q new_a _ Hs)
  end.
  cbn [mbind option_bind].
  eexists. split; [reflexivity |]. exact Hs.
Qed.

(** C7.  When the allocation of the new stack returns [retry_after_gc],
    [HandleStackOverflow] runs [CollectMutableGarbage] and asks once more,
    and no further time: a second [retry_after_gc] makes it return
    [Overflow]; a success at either attempt goes on to install the new
    stack, which returns [Continue] and nothing else, and does return when
    the old stack has a well-formed chain of frame pointers. *)
Theorem HandleStackOverflow_retries_once
    (k : Z) (p p1 : Process) (a : Z) (s : Stack) (o1 : Object) :
  no_marker_pending (stack_limit_ p) ->
  stack p = Some (a, s) ->
  grown_size k s <= MaxStackSizeInWords ->
  NewStack (grown_size k s) p = (p1, o1) ->
  (o1 <> retry_after_gc ->
     HandleStackOverflow k p = install_new_stack o1 p1 /\
     exists a1, events_ p1 = events_ p ++ [EvAllocate o1; EvInsert a1]) /\
  (o1 = retry_after_gc ->
     forall p2 p3 o2,
       CollectMutableGarbage p1 = Some p2 ->
       NewStack (grown_size k s) p2 = (p3, o2) ->
       events_ p2 = events_ p ++ [EvAllocate retry_after_gc;
                                  EvCollectMutableGarbage; EvUpdateStackLimit] /\
       (o2 = retry_after_gc ->
          events_ p3 = events_ p2 ++ [EvAllocate retry_after_gc] /\
          HandleStackOverflow k p = Some (p3, kStackCheckOverflow)) /\
       (o2 <> retry_after_gc ->
          HandleStackOverflow k p = install_new_stack o2 p3 /\
          exists a2, events_ p3 = events_ p2 ++ [EvAllocate o2; EvInsert a2])) /\
  (forall o q q' r,
     install_new_stack o q = Some (q', r) -> r = kStackCheckContinue) /\
  (forall q new_a new_length a' s' links kl i fields,
     memory_ q !! new_a =
       Some (StackObject {| Stack_top := new_length; Stack_next := Smi_zero;
                            Stack_words := replicate (Z.to_nat new_length) 0 |}) ->
     memory_ q !! a' = Some (StackObject s') ->
     memory_ q !! coroutine_ q
       = Some (InstanceObject kl i (HeapPointer a' :: fields)) ->
     frames_well_formed a' s' links ->
     Stack_length s' <= new_length ->
     exists q',
       install_new_stack (HeapPointer new_a) q = Some (q', kStackCheckContinue)).
Proof.
  intros Hno Hs Hmax Hnew.
  pose proof (HandleStackOverflow_growth k p a s Hno Hs) as Hg.
  apply Z.ltb_ge in Hmax. rewrite Hmax in Hg.
  unfold allocate_new_stack in Hg. rewrite Hnew in Hg.
  assert (Hcases : forall n q q' o, NewStack n q = (q', o) ->
            (o = retry_after_gc /\ is_retry_after_gc o = true /\
             IsFailure o = true) \/
            (o <> retry_after_gc /\ is_retry_after_gc o = false /\
             IsFailure o = false)).
  { intros n q q' o Hq. pose proof (NewStack_result_cases n q) as Hc.
    rewrite Hq in Hc. cbn in Hc. destruct Hc as [-> | [a' ->]]; [left | right];
      repeat split; discriminate. }
  split; [| split; [| split]].
  - intros Hne. destruct (Hcases _ _ _ _ Hnew) as [[-> _] | (_ & Hr & Hf)];
      [contradiction |].
    rewrite Hr in Hg. cbn in Hg. rewrite Hr in Hg. split; [exact Hg |].
    destruct (NewStack_inserts _ _ _ _ Hnew Hf) as (a1 & _ & _ & _ & He & _).
    eauto.
  - intros -> p2 p3 o2 Hgc Hnew'. cbn in Hg. rewrite Hgc in Hg. cbn in Hg.
    rewrite Hnew' in Hg.
    destruct (NewStack_fails _ _ _ _ Hnew eq_refl) as (_ & He1 & _).
    assert (He2 : events_ p2 = events_ p1
                               ++ [EvCollectMutableGarbage; EvUpdateStackLimit]).
    { unfold CollectMutableGarbage in Hgc.
      apply UpdateStackLimit_effect in Hgc as (a' & s' & _ & ->). cbn.
      rewrite <- app_assoc. reflexivity. }
    split; [rewrite He2, He1, <- app_assoc; reflexivity |].
    split.
    + intros ->. cbn in Hg. split; [| exact Hg].
      destruct (NewStack_fails _ _ _ _ Hnew' eq_refl) as (_ & He3 & _).
      exact He3.
    + intros Hne. destruct (Hcases _ _ _ _ Hnew') as [[-> _] | (_ & Hr & Hf)];
        [contradiction |].
      rewrite Hr in Hg. split; [exact Hg |].
      destruct (NewStack_inserts _ _ _ _ Hnew' Hf) as (a2 & _ & _ & _ & He & _).
      eauto.
  - intros o q q' r H. apply install_new_stack_tracks in H as [-> _].
    reflexivity.
  - intros q new_a new_length a' s' links kl i fields Hfresh Ha Hc Hwf Hlen.
    destruct (install_new_stack_result q new_a new_length a' s' links kl i
                fields Hfresh Ha Hc Hwf Hlen) as (q' & Hq & _).
    exists q'. exact Hq.
Qed.


End GrowthProperties.

(** ** Cooking and uncooking the stacks *)

Lemma read_slots_insert bs vs ws b x :
  b ∉ bs -> read_slots bs vs ws -> read_slots bs vs (<[b := x]> ws).
Proof.
  intros Hb H. induction H as [| b' v bs vs Hv _ IH]; [constructor |].
  apply not_elem_of_cons in Hb as [Hne Hb].
  constructor; [| exact (IH Hb)].
  rewrite list_lookup_insert_ne by exact Hne. exact Hv.
Qed.

Lemma read_slots_values bs xs ws :
  read_slots bs xs ws -> slot_values bs ws = xs.
Proof.
  intros H. induction H as [| b x bs xs Hb _ IH]; [reflexivity |].
  unfold slot_values in *. cbn. rewrite Hb, IH. reflexivity.
Qed.

Lemma write_slots_length bs : forall xs ws,
  length (write_slots bs xs ws) = length ws.
Proof.
  induction bs as [| b bs IH]; intros [| x xs] ws; cbn; try reflexivity.
  rewrite IH. apply length_insert.
Qed.

Lemma write_slots_insert bs : forall xs ws b x,
  b ∉ bs ->
  write_slots bs xs (<[b := x]> ws) = <[b := x]> (write_slots bs xs ws).
Proof.
  induction bs as [| b' bs IH]; intros [| x' xs] ws b x Hb; cbn;
    try reflexivity.
  apply not_elem_of_cons in Hb as [Hne Hb].
  rewrite list_insert_insert_ne by congruence. apply IH. exact Hb.
Qed.

Lemma write_slots_other bs : forall xs ws i,
  i ∉ bs -> write_slots bs xs ws !! i = ws !! i.
Proof.
  induction bs as [| b bs IH]; intros [| x xs] ws i Hi; cbn; try reflexivity.
  apply not_elem_of_cons in Hi as [Hne Hi].
  rewrite IH by exact Hi. apply list_lookup_insert_ne. congruence.
Qed.

Lemma write_slots_read bs : forall xs vs ws,
  NoDup bs -> length xs = length bs -> read_slots bs vs ws ->
  read_slots bs xs (write_slots bs xs ws).
Proof.
  induction bs as [| b bs IH]; intros xs vs ws Hnd Hlen Hr.
  { destruct xs; [constructor | discriminate]. }
  destruct xs as [| x xs]; [discriminate |].
  apply NoDup_cons in Hnd as [Hb Hnd].
  inversion Hr as [| ? v ? vs' Hv Hr']; subst.
  cbn. constructor.
  - rewrite write_slots_other by exact Hb.
    apply list_lookup_insert_eq. apply lookup_lt_Some in Hv. exact Hv.
  - apply (IH xs vs'); [exact Hnd | cbn in Hlen; lia |].
    apply read_slots_insert; assumption.
Qed.

Lemma write_slots_lookup bs xs vs ws k b x :
  NoDup bs -> length xs = length bs -> read_slots bs vs ws ->
  bs !! k = Some b -> xs !! k = Some x ->
  write_slots bs xs ws !! b = Some x.
Proof.
  intros Hnd Hlen Hr Hb Hx.
  pose proof (write_slots_read bs xs vs ws Hnd Hlen Hr) as H.
  exact (Forall2_lookup_lr _ _ _ _ _ _ H Hb Hx).
Qed.

(** Writing back what the slots held undoes a write to them. *)
Lemma write_slots_restore bs : forall xs vs ws,
  NoDup bs -> read_slots bs vs ws -> length xs = length bs ->
  write_slots bs vs (write_slots bs xs ws) = ws.
Proof.
  induction bs as [| b bs IH]; intros xs vs ws Hnd Hr Hlen.
  { inversion Hr; subst. destruct xs; reflexivity. }
  inversion Hr as [| ? v ? vs' Hv Hr']; subst.
  destruct xs as [| x xs]; [discriminate |].
  apply NoDup_cons in Hnd as [Hb Hnd]. cbn.
  rewrite (write_slots_insert bs xs ws b x Hb).
  rewrite list_insert_insert_eq.
  rewrite <- (write_slots_insert bs xs ws b v Hb).
  rewrite (list_insert_id ws b v Hv).
  apply IH; [exact Hnd | exact Hr' | cbn in Hlen; lia].
Qed.

Lemma write_from_length xs : forall index l,
  length (write_from index xs l) = length l.
Proof.
  induction xs as [| x xs IH]; intros index l; cbn; [reflexivity |].
  rewrite IH. apply length_insert.
Qed.

Lemma write_from_earlier xs : forall index i l,
  (i < index)%nat -> write_from index xs l !! i = l !! i.
Proof.
  induction xs as [| x xs IH]; intros index i l Hi; cbn; [reflexivity |].
  rewrite IH by lia. apply list_lookup_insert_ne. lia.
Qed.

Lemma take_write_from xs : forall index l,
  (index + length xs <= length l)%nat ->
  take (length xs) (drop index (write_from index xs l)) = xs.
Proof.
  induction xs as [| x xs IH]; intros index l Hlen; [apply take_0 |].
  cbn in *.
  assert (Hx : write_from (S index) xs (<[index := x]> l) !! index = Some x).
  { rewrite write_from_earlier by lia. apply list_lookup_insert_eq. lia. }
  rewrite (drop_S _ x index Hx). cbn. f_equal.
  apply IH. rewrite length_insert. lia.
Qed.

Lemma store_stacks_cons x stacks m :
  store_stacks (x :: stacks) m
  = store_stacks stacks (<[x.1 := StackObject x.2]> m).
Proof. reflexivity. Qed.

Lemma store_stacks_other stacks : forall m a,
  a ∉ stacks.*1 -> store_stacks stacks m !! a = m !! a.
Proof.
  induction stacks as [| x stacks IH]; intros m a Ha; [reflexivity |].
  rewrite fmap_cons in Ha. apply not_elem_of_cons in Ha as [Hne Ha].
  rewrite store_stacks_cons, IH by exact Ha.
  apply lookup_insert_ne. congruence.
Qed.

Lemma store_stacks_lookup stacks : forall m,
  NoDup stacks.*1 ->
  Forall (fun x => store_stacks stacks m !! x.1 = Some (StackObject x.2))
    stacks.
Proof.
  induction stacks as [| x stacks IH]; intros m Hnd; [constructor |].
  rewrite fmap_cons in Hnd. apply NoDup_cons in Hnd as [Hx Hnd].
  rewrite store_stacks_cons. constructor.
  - rewrite store_stacks_other by exact Hx. apply lookup_insert_eq.
  - exact (IH _ Hnd).
Qed.

Lemma store_stacks_twice A B (m : Memory) :
  A.*1 = B.*1 -> NoDup B.*1 ->
  store_stacks B (store_stacks A m) = store_stacks B m.
Proof.
  intros Hkeys Hnd. apply map_eq. intros a.
  destruct (decide (a ∈ B.*1)) as [Hin | Hout].
  - apply list_elem_of_fmap in Hin as (x & -> & Hx).
    pose proof (store_stacks_lookup B (store_stacks A m) Hnd) as H1.
    pose proof (store_stacks_lookup B m Hnd) as H2.
    rewrite Forall_forall in H1, H2. rewrite (H1 x Hx), (H2 x Hx).
    reflexivity.
  - rewrite (store_stacks_other B) by exact Hout.
    rewrite (store_stacks_other B) by exact Hout.
    apply store_stacks_other. rewrite Hkeys. exact Hout.
Qed.

Lemma stack_chain_store m raw a s' rest :
  linked raw rest -> NoDup (a :: rest.*1) ->
  Forall (fun x => m !! x.1 = Some (StackObject x.2)) rest ->
  stack_chain (<[a := StackObject s']> m) raw rest.
Proof.
  intros Hlink Hnd Hm. apply NoDup_cons in Hnd as [Ha Hnd].
  split; [exact Hlink |]. split; [exact Hnd |].
  rewrite Forall_forall in Hm. apply Forall_forall. intros x Hx.
  rewrite lookup_insert_ne; [exact (Hm x Hx) |].
  intros ->. apply Ha. apply list_elem_of_fmap.
  exists x. split; [reflexivity | exact Hx].
Qed.

Lemma set_deltas_memory_store c dss m a s p :
  set_cooked_stack_deltas dss
    (set_memory m (set_cooked_stack_deltas c (store_stack a s p)))
  = set_cooked_stack_deltas dss (set_memory m p).
Proof. destruct p; reflexivity. Qed.

Lemma set_deltas_memory_store' c dss m a s p :
  set_cooked_stack_deltas dss
    (set_memory m (store_stack a s (set_cooked_stack_deltas c p)))
  = set_cooked_stack_deltas dss (set_memory m p).
Proof. destruct p; reflexivity. Qed.

Lemma Coroutine_stack_store a s s0 raw p :
  Coroutine_stack p = Some raw -> memory_ p !! a = Some (StackObject s0) ->
  Coroutine_stack (store_stack a s p) = Some raw.
Proof.
  unfold Coroutine_stack, heap_object, store_stack. cbn. intros H Ha.
  destruct (decide (a = coroutine_ p)) as [-> | Hne].
  - rewrite Ha in H. discriminate.
  - rewrite lookup_insert_ne by exact Hne. exact H.
Qed.

Section CookingProperties.
Context {platform : Platform}.

Lemma frame_links_insert fuel a ws fp links b v :
  frame_links fuel a ws fp = Some links -> b ∉ links ->
  frame_links fuel a (<[b := v]> ws) fp = Some links.
Proof.
  revert fp links. induction fuel as [| fuel IH]; intros fp links H Hb;
    [discriminate |].
  cbn in *. rewrite length_insert.
  destruct (Stack_slot a (length ws) fp) as [i |]; [| discriminate]. cbn in *.
  destruct (ws !! i) as [link |] eqn:Hi; [| discriminate]. cbn in *.
  assert (Hne : b <> i).
  { intros ->. apply Hb. destruct (link =? 0).
    - injection H as <-. left.
    - apply bind_Some in H as (rest & _ & [= <-]). left. }
  rewrite list_lookup_insert_ne by exact Hne. rewrite Hi. cbn.
  destruct (link =? 0); [exact H |].
  apply bind_Some in H as (rest & Hrest & [= <-]).
  rewrite (IH link rest Hrest); [reflexivity |].
  intros Hin. apply Hb. right. exact Hin.
Qed.

Lemma frame_links_write_slots fuel a fp links bs : forall xs ws,
  frame_links fuel a ws fp = Some links -> Forall (fun b => b ∉ links) bs ->
  frame_links fuel a (write_slots bs xs ws) fp = Some links.
Proof.
  induction bs as [| b bs IH]; intros [| x xs] ws H Hbs; cbn; try exact H.
  apply Forall_cons in Hbs as [Hb Hbs].
  apply IH; [| exact Hbs]. apply frame_links_insert; assumption.
Qed.

Lemma frame_links_nonempty fuel a ws fp links :
  frame_links fuel a ws fp = Some links ->
  exists i0 frames, links = i0 :: frames.
Proof.
  destruct fuel as [| fuel]; [discriminate |]. cbn.
  intros H. apply bind_Some in H as (i & _ & H).
  apply bind_Some in H as (link & _ & H).
  destruct (link =? 0); [injection H as <-; eauto |].
  apply bind_Some in H as (r & _ & [= <-]). eauto.
Qed.

Lemma Stack_slot_bcp a n j :
  0 <= bcp_slot j < Z.of_nat n ->
  Stack_slot a n (Stack_Pointer a (Z.of_nat j) + kBcpSlotOffset * kWordSize)
  = Some (Z.to_nat (bcp_slot j)).
Proof.
  intros H.
  replace (Stack_Pointer a (Z.of_nat j) + kBcpSlotOffset * kWordSize)
    with (Stack_Pointer a (bcp_slot j))
    by (unfold Stack_Pointer, bcp_slot; lia).
  apply Stack_slot_Pointer, H.
Qed.

(** A frame loop visits the byte-code pointer slots of the frames, from
    the newest frame to the oldest. *)
Lemma while_MovePrevious_visits {S : Type} (body : S -> Z -> option (S * Z))
    fuel a ws fp st i0 frames :
  frame_links fuel a ws fp = Some (i0 :: frames) ->
  Forall (fun j => 0 <= bcp_slot j < Z.of_nat (length ws) /\
                   Z.to_nat (bcp_slot j) ∉ i0 :: frames) frames ->
  while_MovePrevious body fuel a ws fp st
  = visit_slots body (bcp_slots frames) ws st.
Proof.
  revert ws fp st i0 frames.
  induction fuel as [| fuel IH]; intros ws fp st i0 frames Hl Hok;
    [discriminate |].
  cbn in Hl. apply bind_Some in Hl as (i & Hi & Hl).
  apply bind_Some in Hl as (link & Hlink & Hl).
  cbn [while_MovePrevious].
  unfold Frame_PreviousFramePointer, Stack_load at 1.
  rewrite Hi. cbn [mbind option_bind]. rewrite Hlink. cbn [mbind option_bind].
  destruct (link =? 0) eqn:Hz.
  { injection Hl as <- <-. reflexivity. }
  apply bind_Some in Hl as (rest & Hrest & [= <- <-]).
  destruct fuel as [| fuel']; [discriminate |].
  pose proof Hrest as Hrest'. cbn in Hrest'.
  apply bind_Some in Hrest' as (j & Hj & Hrest').
  apply bind_Some in Hrest' as (link' & Hlink' & Hrest').
  assert (exists frames', rest = j :: frames') as [frames' ->].
  { destruct (link' =? 0); [injection Hrest' as <-; eauto |].
    apply bind_Some in Hrest' as (r & _ & [= <-]). eauto. }
  apply Stack_slot_inv in Hj as [-> Hjlt].
  apply Forall_cons in Hok as [[Hrange Hnot] Hok].
  unfold Frame_ByteCodePointer, Frame_SetByteCodePointer, Stack_load,
    Stack_store.
  rewrite (Stack_slot_bcp a (length ws) j Hrange).
  cbn [mbind option_bind bcp_slots map visit_slots].
  destruct (ws !! Z.to_nat (bcp_slot j)) as [v |]; [| reflexivity].
  cbn [mbind option_bind].
  destruct (body st v) as [[st' v'] |]; [| reflexivity].
  cbn [mbind option_bind].
  apply (IH _ _ _ j frames').
  - apply frame_links_insert; [exact Hrest |].
    intros Hin. apply Hnot. right. exact Hin.
  - rewrite length_insert. eapply Forall_impl; [exact Hok |].
    cbn. intros x [Hx Hn]. split; [exact Hx |].
    intros Hin. apply Hn. right. exact Hin.
Qed.

Lemma bcp_slots_NoDup n i0 frames :
  bcp_slots_ok n (i0 :: frames) -> NoDup (bcp_slots frames).
Proof.
  intros [Hnd Hok]. cbn in Hok. apply NoDup_cons in Hnd as [_ Hnd].
  assert (Hpos : Forall (fun j => 0 <= bcp_slot j) frames).
  { eapply Forall_impl; [exact Hok |]. cbn. lia. }
  clear Hok. induction frames as [| j fr IH]; [constructor |].
  apply NoDup_cons in Hnd as [Hj Hnd].
  apply Forall_cons in Hpos as [Hj0 Hpos].
  cbn. constructor; [| exact (IH Hnd Hpos)].
  intros Hin. apply Hj. unfold bcp_slots in Hin.
  apply list_elem_of_fmap in Hin as (j' & Heq & Hin).
  rewrite Forall_forall in Hpos. pose proof (Hpos j' Hin) as Hj'.
  unfold bcp_slot in *. assert (j = j') as -> by lia. exact Hin.
Qed.

Lemma bcp_slots_read i0 frames ws :
  bcp_slots_ok (length ws) (i0 :: frames) ->
  read_slots (bcp_slots frames) (slot_values (bcp_slots frames) ws) ws.
Proof.
  intros [_ Hok]. cbn in Hok.
  assert (Hin : Forall (fun j => 0 <= bcp_slot j < Z.of_nat (length ws))
                  frames).
  { eapply Forall_impl; [exact Hok |]. cbn. tauto. }
  clear Hok. induction frames as [| j fr IH]; [constructor |].
  apply Forall_cons in Hin as [Hj Hin].
  cbn. constructor; [| exact (IH Hin)].
  destruct (lookup_lt_is_Some_2 ws (Z.to_nat (bcp_slot j))) as [v Hv]; [lia |].
  rewrite Hv. reflexivity.
Qed.

Lemma bcp_slots_not_links n i0 frames :
  bcp_slots_ok n (i0 :: frames) ->
  Forall (fun b => b ∉ i0 :: frames) (bcp_slots frames).
Proof.
  intros [_ Hok]. cbn in Hok. unfold bcp_slots. rewrite Forall_fmap.
  eapply Forall_impl; [exact Hok |]. cbn. tauto.
Qed.

Lemma while_MovePrevious_frame_slots {S : Type}
    (body : S -> Z -> option (S * Z)) a s st :
  frames_cookable a s ->
  while_MovePrevious body (frame_fuel s) a (Stack_words s)
    (Stack_Pointer a (Stack_top s)) st
  = visit_slots body (frame_slots a s) (Stack_words s) st.
Proof.
  intros (links & Hl & Hok).
  destruct (frame_links_nonempty _ _ _ _ _ Hl) as (i0 & frames & ->).
  unfold frame_slots. rewrite Hl.
  apply (while_MovePrevious_visits body _ _ _ _ _ i0 frames Hl).
  destruct Hok as [_ Hok]. exact Hok.
Qed.

Lemma frames_cookable_slots a s :
  frames_cookable a s ->
  NoDup (frame_slots a s) /\
  read_slots (frame_slots a s)
    (slot_values (frame_slots a s) (Stack_words s)) (Stack_words s).
Proof.
  intros (links & Hl & Hok).
  destruct (frame_links_nonempty _ _ _ _ _ Hl) as (i0 & frames & ->).
  unfold frame_slots. rewrite Hl. split.
  - exact (bcp_slots_NoDup _ _ _ Hok).
  - exact (bcp_slots_read _ _ _ Hok).
Qed.

Lemma with_slots_frame_slots a s xs :
  frames_cookable a s ->
  frames_cookable a (with_slots a s xs) /\
  frame_slots a (with_slots a s xs) = frame_slots a s.
Proof.
  intros (links & Hl & Hok).
  destruct (frame_links_nonempty _ _ _ _ _ Hl) as (i0 & frames & ->).
  assert (Hl' : frame_links (frame_fuel (with_slots a s xs)) a
                  (Stack_words (with_slots a s xs))
                  (Stack_Pointer a (Stack_top (with_slots a s xs)))
                = Some (i0 :: frames)).
  { unfold frame_fuel, with_slots. cbn [Stack_words Stack_top Stack_set_words].
    rewrite write_slots_length.
    apply frame_links_write_slots; [exact Hl |].
    unfold frame_slots. rewrite Hl. exact (bcp_slots_not_links _ _ _ Hok). }
  split.
  - exists (i0 :: frames). split; [exact Hl' |].
    unfold with_slots. cbn [Stack_words Stack_set_words].
    rewrite write_slots_length. exact Hok.
  - unfold frame_slots at 1. rewrite Hl'. unfold frame_slots. rewrite Hl.
    reflexivity.
Qed.

Lemma visit_cook program bs : forall vs ws deltas index,
  NoDup bs -> read_slots bs vs ws ->
  (index + length bs <= length deltas)%nat ->
  visit_slots (cook_frame program) bs ws (deltas, Z.of_nat index)
  = Some (write_slots bs (map (cooked_function program) vs) ws,
          (write_from index (map (cooked_delta program) vs) deltas,
           Z.of_nat (index + length bs))).
Proof.
  induction bs as [| b bs IH]; intros vs ws deltas index Hnd Hr Hlen.
  { inversion Hr; subst. cbn. rewrite Nat.add_0_r. reflexivity. }
  inversion Hr as [| ? v ? vs' Hv Hr']; subst.
  apply NoDup_cons in Hnd as [Hb Hnd]. cbn in Hlen.
  cbn [visit_slots]. rewrite Hv. cbn [mbind option_bind cook_frame].
  unfold List_set.
  replace (0 <=? Z.of_nat index) with true by (symmetry; apply Z.leb_le; lia).
  replace (Z.of_nat index <? Z.of_nat (length deltas)) with true
    by (symmetry; apply Z.ltb_lt; lia).
  cbn [andb mbind option_bind]. rewrite Nat2Z.id.
  replace (Z.of_nat index + 1) with (Z.of_nat (S index)) by lia.
  rewrite (IH vs'); [| exact Hnd | apply read_slots_insert; assumption
                     | rewrite length_insert; lia].
  cbn. do 4 f_equal. lia.
Qed.

Lemma visit_uncook bs : forall fs ds ws deltas index,
  NoDup bs -> read_slots bs fs ws -> Forall (fun f => f <> 0) fs ->
  length ds = length bs ->
  (forall k d, ds !! k = Some d -> deltas !! (index + k)%nat = Some d) ->
  visit_slots uncook_frame bs ws (deltas, Z.of_nat index)
  = Some (write_slots bs (zip_with rebuilt fs ds) ws,
          (deltas, Z.of_nat (index + length bs))).
Proof.
  induction bs as [| b bs IH]; intros fs ds ws deltas index Hnd Hr Hnz Hlen Hd.
  { inversion Hr; subst. cbn. rewrite Nat.add_0_r. reflexivity. }
  inversion Hr as [| ? f ? fs' Hf Hr']; subst.
  destruct ds as [| d ds]; [discriminate |].
  apply NoDup_cons in Hnd as [Hb Hnd].
  apply Forall_cons in Hnz as [Hf0 Hnz].
  cbn [visit_slots]. rewrite Hf. cbn [mbind option_bind uncook_frame].
  apply Z.eqb_neq in Hf0. rewrite Hf0.
  unfold List_get.
  replace (0 <=? Z.of_nat index) with true by (symmetry; apply Z.leb_le; lia).
  rewrite Nat2Z.id.
  pose proof (Hd 0%nat d eq_refl) as H0. rewrite Nat.add_0_r in H0.
  rewrite H0. cbn [mbind option_bind].
  replace (Z.of_nat index + 1) with (Z.of_nat (S index)) by lia.
  rewrite (IH fs' ds); [| exact Hnd | apply read_slots_insert; assumption
                        | exact Hnz | cbn in Hlen; lia |].
  - cbn. do 3 f_equal. lia.
  - intros k d' Hk. replace (S index + k)%nat with (index + S k)%nat by lia.
    apply Hd. exact Hk.
Qed.

(** The frame loop of [CookStacks] on one stack, given a delta list with
    room for its frames. *)
Lemma cook_stack program a s L :
  frames_cookable a s -> (length (frame_slots a s) <= L)%nat ->
  while_MovePrevious (cook_frame program) (frame_fuel s) a (Stack_words s)
    (Stack_Pointer a (Stack_top s)) (replicate L 0, 0)
  = Some (Stack_words (cooked_stack program a s),
          (cooked_deltas program L a s,
           Z.of_nat (length (frame_slots a s)))).
Proof.
  intros Hwf Hlen. destruct (frames_cookable_slots a s Hwf) as [Hnd Hr].
  rewrite while_MovePrevious_frame_slots by exact Hwf.
  exact (visit_cook program _ _ _ _ 0%nat Hnd Hr
           ltac:(rewrite length_replicate; exact Hlen)).
Qed.

(** The frame loop of [UncookAndUnchainStacks] on one stack. *)
Lemma uncook_stack a s deltas :
  frames_cookable a s -> (length (frame_slots a s) <= length deltas)%nat ->
  Forall (fun f => f <> 0) (slot_values (frame_slots a s) (Stack_words s)) ->
  while_MovePrevious uncook_frame (frame_fuel s) a (Stack_words s)
    (Stack_Pointer a (Stack_top s)) (deltas, 0)
  = Some (Stack_words (uncooked_stack a s deltas),
          (deltas, Z.of_nat (length (frame_slots a s)))).
Proof.
  intros Hwf Hlen Hnz. destruct (frames_cookable_slots a s Hwf) as [Hnd Hr].
  rewrite while_MovePrevious_frame_slots by exact Hwf.
  apply (visit_uncook _ _ _ _ _ 0%nat Hnd Hr Hnz).
  - rewrite length_take. lia.
  - intros k d Hk. cbn. apply lookup_take_Some in Hk as [Hk _]. exact Hk.
Qed.

Lemma CookStacks_loop_spec L rest : forall i raw p a0 s0,
  stack_chain (memory_ p) raw rest ->
  Coroutine_stack p = Some (HeapPointer a0) ->
  memory_ p !! a0 = Some (StackObject s0) ->
  length (Stack_words s0) = L ->
  Forall (frames_fit L) rest ->
  (i + length rest <= length (cooked_stack_deltas_ p))%nat ->
  CookStacks_loop (length rest) i raw p
  = Some (set_cooked_stack_deltas
            (take i (cooked_stack_deltas_ p)
             ++ map (fun x => cooked_deltas (program_ p) L x.1 x.2) rest
             ++ drop (i + length rest) (cooked_stack_deltas_ p))
            (set_memory
               (store_stacks (cooked_chain (program_ p) rest) (memory_ p)) p),
          Smi 0).
Proof.
  induction rest as [| [a s] rest IH];
    intros i raw p a0 s0 (Hlink & Hnd & Hm) Hco Ha0 HL Hfit Hlen.
  { cbn in *. subst raw. rewrite Nat.add_0_r, take_drop.
    destruct p; reflexivity. }
  cbn in Hlink, Hnd, Hlen. destruct Hlink as [-> Hlink].
  apply Forall_cons in Hm as [Hs Hm]. cbn in Hs.
  apply Forall_cons in Hfit as [[Hwf Hfr] Hfit]. cbn in Hwf, Hfr.
  cbn [length CookStacks_loop].
  unfold Stack_cast at 1, heap_object. rewrite Hs. cbn [mbind option_bind].
  unfold stack. rewrite Hco. cbn [mbind option_bind].
  unfold Stack_cast at 1, heap_object. rewrite Ha0. cbn [mbind option_bind].
  unfold Stack_length. rewrite Nat2Z.id, HL.
  rewrite (cook_stack (program_ p) a s L Hwf Hfr). cbn [mbind option_bind fst].
  unfold List_set.
  replace (0 <=? Z.of_nat i) with true by (symmetry; apply Z.leb_le; lia).
  replace (Z.of_nat i <? _) with true
    by (symmetry; apply Z.ltb_lt; cbn; lia).
  cbn [andb mbind option_bind]. rewrite Nat2Z.id.
  set (c := cooked_stack (program_ p) a s).
  replace (Stack_set_words (Stack_words c) s) with c by reflexivity.
  set (dss := cooked_stack_deltas_ p) in *.
  change (cooked_stack_deltas_ (store_stack a c p)) with dss.
  set (d := cooked_deltas (program_ p) L a s).
  assert (exists s0', memory_ (store_stack a c p) !! a0
                      = Some (StackObject s0') /\
                      length (Stack_words s0') = L) as (s0' & Ha0' & HL').
  { cbn. destruct (decide (a = a0)) as [-> | Hne].
    - exists c. rewrite lookup_insert_eq. split; [reflexivity |].
      rewrite Ha0 in Hs. injection Hs as ->.
      unfold c, cooked_stack, with_slots. cbn. rewrite write_slots_length.
      exact HL.
    - exists s0. rewrite lookup_insert_ne by exact Hne. eauto. }
  rewrite (IH (S i) (Stack_next s)
             (set_cooked_stack_deltas (<[i := d]> dss) (store_stack a c p))
             a0 s0').
  - cbn [program_ set_cooked_stack_deltas store_stack set_memory memory_
         cooked_stack_deltas_].
    rewrite set_deltas_memory_store. fold dss. do 3 f_equal.
    rewrite (take_S_r _ _ d)
      by (apply list_lookup_insert_eq; lia).
    rewrite take_insert_ge by lia. rewrite <- app_assoc. cbn.
    do 3 f_equal. rewrite drop_insert_lt by lia. f_equal. lia.
  - exact (stack_chain_store _ _ a c rest Hlink Hnd Hm).
  - exact (Coroutine_stack_store a c s _ p Hco Hs).
  - exact Ha0'.
  - exact HL'.
  - exact Hfit.
  - cbn. rewrite length_insert. fold dss. lia.
Qed.

(** [CookStacks(n)] on a chain of [n] stacks none of which has more frames
    than the current stack has words: every byte-code pointer slot holds
    the function of the frame and the delta lists hold the offsets. *)
Lemma CookStacks_cooks_chain p raw chain a0 s0 :
  Coroutine_stack p = Some raw ->
  stack_chain (memory_ p) raw chain ->
  head chain = Some (a0, s0) ->
  Forall (frames_fit (length (Stack_words s0))) chain ->
  CookStacks (Z.of_nat (length chain)) p
  = Some (set_cooked_stack_deltas
            (map (fun x => cooked_deltas (program_ p)
                             (length (Stack_words s0)) x.1 x.2) chain)
            (set_memory
               (store_stacks (cooked_chain (program_ p) chain) (memory_ p))
               p)).
Proof.
  intros Hco Hchain Hhead Hfit. unfold CookStacks. rewrite Nat2Z.id.
  set (p0 := set_cooked_stack_deltas (replicate (length chain) []) p).
  change (Coroutine_stack p0) with (Coroutine_stack p). rewrite Hco.
  cbn [mbind option_bind].
  destruct chain as [| [a s] rest]; [discriminate |].
  injection Hhead as -> ->.
  pose proof Hchain as ([Hraw _] & _ & Hm). cbn in Hraw. subst raw.
  apply Forall_cons in Hm as [Hs _]. cbn in Hs.
  rewrite (CookStacks_loop_spec (length (Stack_words s0)) ((a0, s0) :: rest)
             0 (HeapPointer a0) p0 a0 s0 Hchain Hco Hs eq_refl Hfit)
    by (unfold p0; cbn; rewrite length_replicate; lia).
  cbn [mbind option_bind]. f_equal. unfold p0.
  cbn [cooked_stack_deltas_ set_cooked_stack_deltas program_ memory_ take
       app].
  rewrite drop_ge by (cbn; rewrite length_replicate; lia).
  rewrite app_nil_r. destruct p; reflexivity.
Qed.

Lemma UncookAndUnchainStacks_loop_spec rest : forall dss i raw q,
  stack_chain (memory_ q) raw rest ->
  Forall2 cooked_with rest dss ->
  (forall k deltas, dss !! k = Some deltas ->
     cooked_stack_deltas_ q !! (i + k)%nat = Some deltas) ->
  exists dss',
    UncookAndUnchainStacks_loop (length rest) i raw q
    = Some (set_cooked_stack_deltas dss'
              (set_memory (store_stacks (uncooked_chain rest dss) (memory_ q))
                 q),
            Smi 0).
Proof.
  induction rest as [| [a s] rest IH];
    intros dss i raw q (Hlink & Hnd & Hm) Hck Hdss.
  { cbn in *. subst raw. inversion Hck; subst.
    exists (cooked_stack_deltas_ q). destruct q; reflexivity. }
  inversion Hck as [| ? deltas ? dss0 (Hwf & Hfr & Hnz) Hck']; subst.
  cbn in Hwf, Hfr, Hnz, Hlink, Hnd. destruct Hlink as [-> Hlink].
  apply Forall_cons in Hm as [Hs Hm]. cbn in Hs.
  cbn [length UncookAndUnchainStacks_loop].
  unfold Stack_cast at 1, heap_object. rewrite Hs. cbn [mbind option_bind].
  pose proof (Hdss 0%nat deltas eq_refl) as Hd. rewrite Nat.add_0_r in Hd.
  unfold List_get, List_set.
  replace (0 <=? Z.of_nat i) with true by (symmetry; apply Z.leb_le; lia).
  rewrite Nat2Z.id, Hd. cbn [mbind option_bind].
  rewrite (uncook_stack a s deltas Hwf Hfr Hnz). cbn [mbind option_bind].
  replace (Z.of_nat i <? _) with true
    by (symmetry; apply Z.ltb_lt; apply lookup_lt_Some in Hd; lia).
  cbn [andb mbind option_bind].
  set (u := Stack_set_next (Smi 0) (uncooked_stack a s deltas)).
  replace (Stack_set_next (Smi 0)
             (Stack_set_words (Stack_words (uncooked_stack a s deltas)) s))
    with u by reflexivity.
  set (q' := store_stack a u
               (set_cooked_stack_deltas (<[i := []]> (cooked_stack_deltas_ q))
                  q)).
  destruct (IH dss0 (S i) (Stack_next s) q') as [dss' Hloop].
  - exact (stack_chain_store _ _ a u rest Hlink Hnd Hm).
  - exact Hck'.
  - intros k dl Hk. cbn. rewrite list_lookup_insert_ne by lia.
    replace (S (i + k)) with (i + S k)%nat by lia. apply Hdss. exact Hk.
  - exists dss'. rewrite Hloop. unfold q'.
    cbn [memory_ store_stack set_memory set_cooked_stack_deltas].
    rewrite set_deltas_memory_store'. reflexivity.
Qed.

(** [UncookAndUnchainStacks] on a chain of cooked stacks, wherever the
    functions in the slots are now: every byte-code pointer is rebuilt as the
    first byte code of the function in the slot plus the recorded delta,
    every [next] field is reset, and the delta lists are gone. *)
Lemma UncookAndUnchainStacks_rebuilds_chain q raw chain :
  Coroutine_stack q = Some raw ->
  stack_chain (memory_ q) raw chain ->
  Forall2 cooked_with chain (cooked_stack_deltas_ q) ->
  UncookAndUnchainStacks q
  = Some (set_cooked_stack_deltas []
            (set_memory
               (store_stacks (uncooked_chain chain (cooked_stack_deltas_ q))
                  (memory_ q)) q)).
Proof.
  intros Hco Hchain Hck. unfold UncookAndUnchainStacks. rewrite Hco.
  cbn [mbind option_bind].
  rewrite <- (Forall2_length _ _ _ Hck).
  destruct (UncookAndUnchainStacks_loop_spec chain (cooked_stack_deltas_ q)
              0 raw q Hchain Hck) as [dss' ->]; [intros k dl Hk; exact Hk |].
  cbn [mbind option_bind]. destruct q; reflexivity.
Qed.

Lemma rebuilt_cooked program vs :
  Forall (fun bcp =>
            cooked_function program bcp <> 0 /\
            is_int (bcp - bytecode_address_for (cooked_function program bcp) 0))
    vs ->
  zip_with rebuilt (map (cooked_function program) vs)
    (map (cooked_delta program) vs) = vs.
Proof.
  intros H. induction H as [| v vs [_ Hv] _ IH]; [reflexivity |].
  cbn. rewrite IH. f_equal.
  unfold rebuilt, cooked_delta. rewrite to_int_small by exact Hv. lia.
Qed.

(** Uncooking a cooked stack whose functions have not moved. *)
Lemma cooked_stack_cooked program L a s :
  frames_cookable a s -> (length (frame_slots a s) <= L)%nat ->
  restorable program (a, s) ->
  cooked_with (a, cooked_stack program a s) (cooked_deltas program L a s) /\
  Stack_set_next (Smi 0)
    (uncooked_stack a (cooked_stack program a s) (cooked_deltas program L a s))
  = Stack_set_next (Smi 0) s.
Proof.
  intros Hwf Hfr Hres. unfold restorable in Hres. cbn [fst snd] in Hres.
  destruct (frames_cookable_slots a s Hwf) as [Hnd Hr].
  set (bs := frame_slots a s) in *.
  set (vs := slot_values bs (Stack_words s)) in *.
  destruct (with_slots_frame_slots a s (map (cooked_function program) vs) Hwf)
    as [Hwf' Hbs'].
  fold bs in Hbs'.
  set (c := with_slots a s (map (cooked_function program) vs)) in *.
  assert (Hwords : Stack_words c
                   = write_slots bs (map (cooked_function program) vs)
                       (Stack_words s)) by reflexivity.
  assert (Hlen : length vs = length bs)
    by (unfold vs, slot_values; apply length_map).
  assert (Hvals : slot_values bs (Stack_words c)
                  = map (cooked_function program) vs).
  { rewrite Hwords. apply read_slots_values.
    apply (write_slots_read bs _ vs); [exact Hnd | | exact Hr].
    rewrite length_map. exact Hlen. }
  unfold cooked_stack. fold bs vs c. split.
  - unfold cooked_with. cbn [fst snd]. rewrite Hbs', Hvals.
    split; [exact Hwf' |]. split.
    + unfold cooked_deltas. rewrite write_from_length, length_replicate.
      exact Hfr.
    + rewrite Forall_fmap. eapply Forall_impl; [exact Hres |]. cbn. tauto.
  - unfold uncooked_stack. rewrite Hbs', Hvals.
    unfold cooked_deltas. fold bs vs.
    pose proof (take_write_from (map (cooked_delta program) vs) 0
                  (replicate L 0)) as Htake.
    rewrite length_map, Hlen, drop_0 in Htake.
    rewrite Htake by (rewrite length_replicate; cbn; lia).
    rewrite (rebuilt_cooked program vs Hres).
    unfold with_slots at 1. rewrite Hbs', Hwords.
    rewrite (write_slots_restore bs _ vs _ Hnd Hr)
      by (rewrite length_map; exact Hlen).
    destruct s; reflexivity.
Qed.

Lemma cooked_chain_keys program chain :
  (cooked_chain program chain).*1 = chain.*1.
Proof.
  unfold cooked_chain. rewrite <- list_fmap_compose. reflexivity.
Qed.

Lemma linked_cooked_chain program chain : forall raw,
  linked raw chain -> linked raw (cooked_chain program chain).
Proof.
  induction chain as [| x chain IH]; intros raw H; [exact H |].
  destruct H as [-> H]. split; [reflexivity |]. apply IH. exact H.
Qed.

Lemma Coroutine_stack_store_stacks p raw chain dss :
  Coroutine_stack p = Some raw ->
  Forall (fun x => memory_ p !! x.1 = Some (StackObject x.2)) chain ->
  Coroutine_stack
    (set_cooked_stack_deltas dss
       (set_memory
          (store_stacks (cooked_chain (program_ p) chain) (memory_ p)) p))
  = Some raw.
Proof.
  intros Hco Hm. unfold Coroutine_stack, heap_object in *. cbn.
  rewrite store_stacks_other; [exact Hco |].
  rewrite cooked_chain_keys. intros Hin.
  apply list_elem_of_fmap in Hin as (x & Heq & Hx).
  rewrite Forall_forall in Hm. rewrite Heq, (Hm x Hx) in Hco. discriminate.
Qed.

(** X1.  The round trip of C5 where the delta lists have room.
    [UncookAndUnchainStacks] after [CookStacks(n)], when no function moved
    in between, on a chain of [n] stacks none of which has more frames than
    the current stack has words: the two passes return, every byte-code
    pointer has its original value, every [next] field is the Smi zero, and
    nothing else of the process has changed. *)
Theorem CookStacks_UncookAndUnchainStacks_restores p raw chain a0 s0 :
  Coroutine_stack p = Some raw ->
  stack_chain (memory_ p) raw chain ->
  head chain = Some (a0, s0) ->
  Forall (frames_fit (length (Stack_words s0))) chain ->
  Forall (restorable (program_ p)) chain ->
  exists p1,
    CookStacks (Z.of_nat (length chain)) p = Some p1 /\
    UncookAndUnchainStacks p1
    = Some (set_cooked_stack_deltas []
              (set_memory (store_stacks (unchained chain) (memory_ p)) p)).
Proof.
  intros Hco Hchain Hhead Hfit Hres.
  set (L := length (Stack_words s0)) in *.
  eexists. split; [exact (CookStacks_cooks_chain p raw chain a0 s0 Hco Hchain
                            Hhead Hfit) |].
  fold L. destruct Hchain as (Hlink & Hnd & Hm).
  set (p1 := set_cooked_stack_deltas _ _).
  assert (Hboth : Forall (fun x =>
            cooked_with (x.1, cooked_stack (program_ p) x.1 x.2)
              (cooked_deltas (program_ p) L x.1 x.2) /\
            Stack_set_next (Smi 0)
              (uncooked_stack x.1 (cooked_stack (program_ p) x.1 x.2)
                 (cooked_deltas (program_ p) L x.1 x.2))
            = Stack_set_next (Smi 0) x.2) chain).
  { rewrite Forall_forall in Hfit, Hres. apply Forall_forall. intros x Hx.
    destruct (Hfit x Hx) as [Hwf Hfr].
    apply (cooked_stack_cooked (program_ p) L x.1 x.2 Hwf Hfr).
    destruct x; exact (Hres _ Hx). }
  rewrite (UncookAndUnchainStacks_rebuilds_chain p1 raw
             (cooked_chain (program_ p) chain)).
  - f_equal. unfold p1.
    cbn [cooked_stack_deltas_ memory_ set_cooked_stack_deltas set_memory].
    assert (Hun : uncooked_chain (cooked_chain (program_ p) chain)
                    (map (fun x => cooked_deltas (program_ p) L x.1 x.2) chain)
                  = unchained chain).
    { clear -Hboth. induction Hboth as [| x chain [_ Hx] _ IH]; [reflexivity |].
      cbn. cbn in Hx. rewrite Hx. f_equal. exact IH. }
    rewrite Hun. rewrite store_stacks_twice.
    + destruct p; reflexivity.
    + rewrite cooked_chain_keys. unfold unchained.
      rewrite <- list_fmap_compose. reflexivity.
    + unfold unchained. rewrite <- list_fmap_compose. exact Hnd.
  - exact (Coroutine_stack_store_stacks p raw chain _ Hco Hm).
  - split; [exact (linked_cooked_chain (program_ p) chain raw Hlink) |].
    split; [rewrite cooked_chain_keys; exact Hnd |].
    unfold p1. cbn [memory_ set_cooked_stack_deltas set_memory].
    apply store_stacks_lookup. rewrite cooked_chain_keys. exact Hnd.
  - unfold p1. cbn [cooked_stack_deltas_ set_cooked_stack_deltas].
    unfold cooked_chain. apply Forall2_fmap. apply Forall_Forall2_diag.
    eapply Forall_impl; [exact Hboth |]. cbn. tauto.
Qed.

(** X2.  The second pass of C5.  [UncookAndUnchainStacks] on a chain of cooked
    stacks, wherever the collector has put the functions in the meantime:
    the pass returns, the delta lists are gone, and in every stack of the
    chain the [next] field is the Smi zero, the byte-code pointer slot of
    the [k]-th frame holds the first byte code of the function that was in
    the slot plus the [k]-th recorded delta, and the other words are as they
    were. *)
Theorem UncookAndUnchainStacks_rebuilds q raw chain :
  Coroutine_stack q = Some raw ->
  stack_chain (memory_ q) raw chain ->
  Forall2 cooked_with chain (cooked_stack_deltas_ q) ->
  exists q',
    UncookAndUnchainStacks q = Some q' /\
    cooked_stack_deltas_ q' = [] /\
    forall i a s deltas,
      chain !! i = Some (a, s) ->
      cooked_stack_deltas_ q !! i = Some deltas ->
      exists s',
        stack_at a q' = Some s' /\
        Stack_next s' = Smi 0 /\
        Stack_top s' = Stack_top s /\
        length (Stack_words s') = length (Stack_words s) /\
        (forall k b function delta,
           frame_slots a s !! k = Some b ->
           Stack_words s !! b = Some function ->
           deltas !! k = Some delta ->
           Stack_words s' !! b
           = Some (bytecode_address_for function 0 + delta)) /\
        (forall j, j ∉ frame_slots a s ->
           Stack_words s' !! j = Stack_words s !! j).
Proof.
  intros Hco Hchain Hck.
  eexists. split;
    [exact (UncookAndUnchainStacks_rebuilds_chain q raw chain Hco Hchain Hck) |].
  split; [reflexivity |].
  intros i a s deltas Hi Hd.
  destruct Hchain as (_ & Hnd & _).
  set (u := Stack_set_next (Smi 0) (uncooked_stack a s deltas)).
  assert (Hin : (a, u) ∈ uncooked_chain chain (cooked_stack_deltas_ q)).
  { apply list_elem_of_lookup. exists i. unfold uncooked_chain.
    rewrite lookup_zip_with, Hi. cbn. rewrite Hd. reflexivity. }
  assert (Hkeys : (uncooked_chain chain (cooked_stack_deltas_ q)).*1
                  = chain.*1).
  { clear -Hck. unfold uncooked_chain.
    induction Hck as [| x d chain dss _ _ IH]; [reflexivity |].
    cbn. f_equal. exact IH. }
  pose proof (store_stacks_lookup
                (uncooked_chain chain (cooked_stack_deltas_ q)) (memory_ q)
                ltac:(rewrite Hkeys; exact Hnd)) as Hl.
  rewrite Forall_forall in Hl. specialize (Hl _ Hin). cbn in Hl.
  exists u. unfold stack_at. cbn [memory_ set_cooked_stack_deltas set_memory].
  rewrite Hl. split; [reflexivity |]. split; [reflexivity |].
  split; [reflexivity |].
  destruct (Forall2_lookup_lr _ _ _ _ _ _ Hck Hi Hd) as (Hwf & Hfr & _).
  cbn [fst snd] in Hwf, Hfr.
  destruct (frames_cookable_slots a s Hwf) as [Hnds Hr].
  unfold u, uncooked_stack, with_slots.
  cbn [Stack_words Stack_set_next Stack_set_words].
  split; [apply write_slots_length |]. split.
  - intros k b f d Hb Hf Hdk.
    eapply (write_slots_lookup _ _ _ _ k b _ Hnds); [| exact Hr | exact Hb |].
    + rewrite length_zip_with, length_take. unfold slot_values.
      rewrite length_map. lia.
    + rewrite lookup_zip_with. unfold slot_values.
      rewrite list_lookup_fmap, Hb. cbn. rewrite Hf. cbn.
      rewrite lookup_take_lt by (apply lookup_lt_Some in Hb; exact Hb).
      rewrite Hdk. reflexivity.
  - intros j Hj. apply write_slots_other. exact Hj.
Qed.

End CookingProperties.

(** ** Interrupt requests and their delivery *)

Section DeliveryProperties.
Context {platform : Platform} {collector : Collector}.

Ltac sentinel_bits H1 H2 :=
  destruct (sentinel_cases _ H1 H2) as
    (b & -> & [-> | [-> | [-> | [-> | [-> | [-> | [-> | ->]]]]]]]).

Ltac closed_Z :=
  vm_compute; repeat split; first [reflexivity | discriminate].

Lemma sentinel_not_pending m : pending m kMaxStackMarker = false.
Proof.
  unfold pending. rewrite kMaxStackMarker_value.
  destruct word_bits as [-> | ->]; destruct m; reflexivity.
Qed.

(** Setting a marker in a word at or above the sentinel sets its bit and no
    other, and the word stays there. *)
Lemma set_marker_bits l m :
  is_uword l -> kMaxStackMarker <= l ->
  is_uword (Z.lor l (marker_bit m)) /\
  kMaxStackMarker < Z.lor l (marker_bit m) /\
  forall m', pending m' (Z.lor l (marker_bit m))
             = Marker_eqb m' m || pending m' l.
Proof.
  intros H1 H2. unfold pending, is_uword. rewrite kMaxStackMarker_value.
  sentinel_bits H1 H2;
    destruct word_bits as [-> | ->]; destruct m;
    (split; [closed_Z | split; [closed_Z | intros []; reflexivity]]).
Qed.

(** Clearing a marker in a word above the sentinel leaves a word at or above
    it, which is the sentinel exactly when no marker is left. *)
Lemma clear_marker_word l m :
  is_uword l -> kMaxStackMarker <= l ->
  let c := Z.land l (to_uword (Z.lnot (marker_bit m))) in
  is_uword c /\ kMaxStackMarker <= c /\
  (pending_list c = [] -> c = kMaxStackMarker) /\
  (pending_list c <> [] -> kMaxStackMarker < c).
Proof.
  intros H1 H2. unfold pending_list, pending, is_uword, to_uword.
  rewrite kMaxStackMarker_value.
  sentinel_bits H1 H2;
    destruct word_bits as [-> | ->]; destruct m;
    (split; [closed_Z | split; [closed_Z | split]]);
    vm_compute; intros H; first [reflexivity | discriminate | congruence].
Qed.

Lemma request_result r p :
  request r p
  = Some (set_stack_limit (SetStackMarker (marker_bit r.1) (stack_limit_ p)) p).
Proof.
  unfold request, Process_Preempt, Process_DebugInterrupt, Process_Profile,
    Process_SetStackMarker.
  destruct r as [[] fails]; cbn [fst snd marker_bit];
    rewrite SetStackMarker_loop_result; reflexivity.
Qed.

Lemma requests_result rs : forall p,
  is_uword (stack_limit_ p) ->
  exists l1,
    requests rs p = Some (set_stack_limit l1 p) /\
    (rs = [] -> l1 = stack_limit_ p) /\
    (rs <> [] ->
     is_uword l1 /\ kMaxStackMarker < l1 /\
     forall m, pending m l1
               = existsb (Marker_eqb m) (map fst rs)
                 || ((kMaxStackMarker <=? stack_limit_ p)
                     && pending m (stack_limit_ p))).
Proof.
  induction rs as [| r rs IH]; intros p Hw.
  { exists (stack_limit_ p). split; [destruct p; reflexivity |].
    split; [reflexivity | congruence]. }
  cbn [requests]. rewrite request_result. cbn [mbind option_bind].
  set (l := stack_limit_ p) in *.
  set (base := if l <? kMaxStackMarker then kMaxStackMarker else l).
  assert (Hbase : is_uword base /\ kMaxStackMarker <= base /\
                  forall m, pending m base
                            = (kMaxStackMarker <=? l) && pending m l).
  { unfold base. destruct (l <? kMaxStackMarker) eqn:E.
    - apply Z.ltb_lt in E. split; [apply kMaxStackMarker_is_uword |].
      split; [lia |]. intros m. rewrite sentinel_not_pending.
      replace (kMaxStackMarker <=? l) with false
        by (symmetry; apply Z.leb_gt; lia).
      reflexivity.
    - apply Z.ltb_ge in E. split; [exact Hw |]. split; [exact E |].
      intros m. replace (kMaxStackMarker <=? l) with true
        by (symmetry; apply Z.leb_le; lia).
      reflexivity. }
  destruct Hbase as (Hb1 & Hb2 & Hb3).
  destruct (set_marker_bits base r.1 Hb1 Hb2) as (Hs1 & Hs2 & Hs3).
  change (SetStackMarker (marker_bit r.1) l) with (Z.lor base (marker_bit r.1)).
  set (l' := Z.lor base (marker_bit r.1)) in *.
  destruct (IH (set_stack_limit l' p) Hs1) as (l1 & Hrun & Hnil & Hcons).
  exists l1. split; [rewrite Hrun; reflexivity |].
  split; [discriminate |]. intros _.
  destruct rs as [| r' rs'].
  { rewrite (Hnil eq_refl). cbn [stack_limit_ set_stack_limit].
    split; [exact Hs1 |]. split; [exact Hs2 |]. intros m.
    rewrite Hs3, Hb3. cbn. rewrite orb_false_r. reflexivity. }
  destruct (Hcons ltac:(discriminate)) as (H1 & H2 & H3).
  split; [exact H1 |]. split; [exact H2 |]. intros m.
  rewrite H3. cbn [stack_limit_ set_stack_limit].
  replace (kMaxStackMarker <=? l') with true
    by (symmetry; apply Z.leb_le; lia).
  rewrite Hs3, Hb3. cbn [map fst existsb andb].
  destruct (Marker_eqb m r.1), (Marker_eqb m r'.1),
    (existsb (Marker_eqb m) (map fst rs')); reflexivity.
Qed.

(** One stack check on a word above the sentinel. *)
Lemma stack_check_step k p a s m rest :
  stack p = Some (a, s) ->
  is_uword (stack_limit_ p) -> kMaxStackMarker <= stack_limit_ p ->
  pending_list (stack_limit_ p) = m :: rest ->
  let c := Z.land (stack_limit_ p) (to_uword (Z.lnot (marker_bit m))) in
  HandleStackOverflow k p
  = Some (log EvUpdateStackLimit
            (set_stack_limit
               (if c <=? kMaxStackMarker
                then to_uword (Stack_Pointer a (kGuaranteedFrameSize + 2))
                else c)
               (log (EvClearStackMarker (marker_bit m)) (set_stack_limit c p))),
          marker_result m) /\
  pending_list c = rest.
Proof.
  intros Hs Hw Hge Hlist c.
  assert (Hp : pending m (stack_limit_ p) = true).
  { assert (Hin : m ∈ pending_list (stack_limit_ p))
      by (rewrite Hlist; left).
    apply list_elem_of_filter in Hin as [Hin _]. exact Hin. }
  assert (Hclear : Process_ClearStackMarker (marker_bit m) p
                   = Some (log (EvClearStackMarker (marker_bit m))
                             (set_stack_limit c p))).
  { unfold Process_ClearStackMarker, ClearStackMarker.
    unfold pending in Hp. apply negb_true_iff in Hp. rewrite Hp. reflexivity. }
  pose proof (UpdateStackLimit_result
                (log (EvClearStackMarker (marker_bit m)) (set_stack_limit c p))
                a s Hs) as Hup.
  cbn [stack_limit_ log set_stack_limit] in Hup.
  assert (Hrest : pending_list c = rest).
  { unfold pending_list in *. cbn [filter list_filter] in *.
    unfold c. rewrite !clear_marker_bits by assumption.
    revert Hlist. cbn.
    destruct (pending Preempt (stack_limit_ p)),
      (pending DebugInterrupt (stack_limit_ p)),
      (pending Profile (stack_limit_ p)); cbn;
      intros [= <- <-]; cbn; reflexivity. }
  split; [| exact Hrest].
  unfold HandleStackOverflow.
  replace (kMaxStackMarker <=? stack_limit_ p) with true
    by (symmetry; apply Z.leb_le; exact Hge).
  cbn [andb]. revert Hlist. unfold pending_list, pending.
  cbn [filter list_filter marker_bit].
  destruct (negb (Z.land (stack_limit_ p) kPreemptMarker =? 0)) eqn:E1.
  { cbn. intros [= <- _]. cbn [marker_bit] in *.
    rewrite Hclear. cbn [mbind option_bind]. rewrite Hup. reflexivity. }
  destruct (negb (Z.land (stack_limit_ p) kDebugInterruptMarker =? 0)) eqn:E2.
  { cbn. intros [= <- _]. cbn [marker_bit] in *.
    rewrite Hclear. cbn [mbind option_bind]. rewrite Hup. reflexivity. }
  destruct (negb (Z.land (stack_limit_ p) kProfileMarker =? 0)) eqn:E3.
  { cbn. intros [= <- _]. cbn [marker_bit] in *.
    rewrite Hclear. cbn [mbind option_bind]. rewrite Hup. reflexivity. }
  cbn. discriminate.
Qed.

Lemma stack_checks_deliver k a s : forall n p,
  stack p = Some (a, s) ->
  is_uword (stack_limit_ p) -> kMaxStackMarker <= stack_limit_ p ->
  length (pending_list (stack_limit_ p)) = n ->
  exists p2,
    stack_checks n k p
    = Some (p2, map marker_result (pending_list (stack_limit_ p))) /\
    stack_limit_ p2
    = (if Nat.eqb n 0 then stack_limit_ p
       else to_uword (Stack_Pointer a (kGuaranteedFrameSize + 2))) /\
    memory_ p2 = memory_ p /\ coroutine_ p2 = coroutine_ p /\
    store_buffer_ p2 = store_buffer_ p /\ heap_ p2 = heap_ p.
Proof.
  induction n as [| n IH]; intros p Hs Hw Hge Hlen.
  { apply nil_length_inv in Hlen. rewrite Hlen. exists p.
    repeat split; reflexivity. }
  destruct (pending_list (stack_limit_ p)) as [| m rest] eqn:Hlist;
    [discriminate |].
  injection Hlen as Hlen.
  destruct (stack_check_step k p a s m rest Hs Hw Hge Hlist) as [Hstep Hrest].
  destruct (clear_marker_word (stack_limit_ p) m Hw Hge)
    as (Hc1 & Hc2 & Hc3 & Hc4).
  set (c := Z.land (stack_limit_ p) (to_uword (Z.lnot (marker_bit m)))) in *.
  cbn [stack_checks]. rewrite Hstep. cbn [mbind option_bind].
  destruct rest as [| m' rest'].
  - subst n. rewrite (Hc3 Hrest). rewrite Z.leb_refl.
    eexists. split; [reflexivity |]. repeat split; reflexivity.
  - assert (Hgt : kMaxStackMarker < c) by (apply Hc4; rewrite Hrest; discriminate).
    replace (c <=? kMaxStackMarker) with false
      by (symmetry; apply Z.leb_gt; exact Hgt).
    match goal with
    | |- context [stack_checks n k ?q] =>
        destruct (IH q Hs Hc1 Hc2
                    ltac:(cbn [stack_limit_ log set_stack_limit];
                          rewrite Hrest; exact Hlen))
          as (p2 & Hrun & Hl & Hm & Hco & Hb & Hh)
    end.
    cbn [stack_limit_ log set_stack_limit] in Hrun, Hl.
    rewrite Hrest in Hrun.
    exists p2. rewrite Hrun. cbn [mbind option_bind].
    split; [reflexivity |]. subst n. cbn in Hl. cbn.
    repeat split; assumption.
Qed.

(** X3.  Interrupt delivery.  On a process whose stack-limit word is a real
    limit, after any sequence of [Preempt], [DebugInterrupt] and [Profile]
    requests (whatever the spurious failures of their exchanges), the next
    stack checks return [Interrupt], [DebugInterrupt] and [Continue], one for
    each marker requested however often it was, in this order; after them
    the word is the real limit of the current stack, and the heap, the
    coroutine and the store buffer are as before the requests. *)
Theorem requested_interrupts_are_delivered_once
    (rs : list (Marker * list bool)) (k : Z) (p : Process) (a : Z) (s : Stack) :
  stack p = Some (a, s) ->
  0 <= stack_limit_ p <= kMaxStackMarker ->
  let ms := due (map fst rs) in
  exists p1 p2,
    requests rs p = Some p1 /\
    (rs <> [] -> kMaxStackMarker < stack_limit_ p1) /\
    stack_checks (length ms) k p1 = Some (p2, map marker_result ms) /\
    stack_limit_ p2
    = (if Nat.eqb (length ms) 0 then stack_limit_ p
       else to_uword (Stack_Pointer a (kGuaranteedFrameSize + 2))) /\
    memory_ p2 = memory_ p /\ coroutine_ p2 = coroutine_ p /\
    store_buffer_ p2 = store_buffer_ p /\ heap_ p2 = heap_ p.
Proof.
  intros Hs Hl ms.
  assert (Hw : is_uword (stack_limit_ p)).
  { pose proof kMaxStackMarker_is_uword as Hk. unfold is_uword in *. lia. }
  destruct (requests_result rs p Hw) as (l1 & Hrun & Hnil & Hcons).
  exists (set_stack_limit l1 p).
  destruct rs as [| r rs'].
  { rewrite (Hnil eq_refl) in *. exists (set_stack_limit (stack_limit_ p) p).
    split; [exact Hrun |]. split; [congruence |].
    repeat split; reflexivity. }
  destruct (Hcons ltac:(discriminate)) as (H1 & H2 & H3).
  assert (Hdue : pending_list l1 = ms).
  { unfold pending_list, ms, due. apply list_filter_iff. intros m.
    rewrite H3.
    assert (Hz : (kMaxStackMarker <=? stack_limit_ p)
                 && pending m (stack_limit_ p) = false).
    { destruct (kMaxStackMarker <=? stack_limit_ p) eqn:E; [| reflexivity].
      apply Z.leb_le in E.
      replace (stack_limit_ p) with kMaxStackMarker by lia.
      apply sentinel_not_pending. }
    rewrite Hz, orb_false_r. reflexivity. }
  destruct (stack_checks_deliver k a s (length ms) (set_stack_limit l1 p)
              Hs H1 ltac:(cbn [stack_limit_ set_stack_limit]; lia)
              ltac:(cbn [stack_limit_ set_stack_limit]; rewrite Hdue;
                    reflexivity))
    as (p2 & Hchecks & Hl2 & Hm & Hco & Hb & Hh).
  cbn [stack_limit_ set_stack_limit] in Hchecks, Hl2. rewrite Hdue in Hchecks.
  exists p2. split; [exact Hrun |]. split; [intros _; exact H2 |].
  split; [exact Hchecks |]. split.
  - rewrite Hl2. destruct (Nat.eqb (length ms) 0) eqn:E; [| reflexivity].
    apply Nat.eqb_eq in E. apply nil_length_inv in E. exfalso.
    assert (Hin : r.1 ∈ ms).
    { unfold ms, due. apply list_elem_of_filter. split.
      - cbn. destruct r.1; reflexivity.
      - destruct r.1;
          repeat first [apply list_elem_of_here | apply list_elem_of_further]. }
    rewrite E in Hin. inversion Hin.
  - repeat split; assumption.
Qed.

End DeliveryProperties.

(** ** The coherence of the lookup cache *)

Section CoherenceProperties.
Context {dispatch : Dispatch}.




End CoherenceProperties.

(** ** The chain a cooking pass walks *)

Lemma next_path_ext m m' : same_links m m' ->
  forall addrs raw last, next_path m raw addrs last -> next_path m' raw addrs last.
Proof.
  intros Hl. induction addrs as [| a rest IH]; intros raw last H; [exact H |].
  destruct H as (-> & next & Hn & H). split; [reflexivity |].
  exists next. split; [rewrite <- Hl; exact Hn | exact (IH _ _ H)].
Qed.

Lemma same_links_store m a s s' :
  m !! a = Some (StackObject s) -> Stack_next s' = Stack_next s ->
  same_links m (<[a := StackObject s']> m).
Proof.
  intros Ha Hn b. unfold stack_next_at.
  destruct (decide (b = a)) as [-> | Hne].
  - rewrite lookup_insert_eq, Ha, Hn. reflexivity.
  - rewrite lookup_insert_ne by congruence. reflexivity.
Qed.

(** A path to the Smi zero is the only one from its start. *)
Lemma next_path_unique m : forall l1 l2 raw,
  next_path m raw l1 (Smi 0) -> next_path m raw l2 (Smi 0) -> l1 = l2.
Proof.
  induction l1 as [| a l1 IH]; intros [| b l2] raw H1 H2; cbn in *.
  - reflexivity.
  - destruct H2 as [-> _]. discriminate.
  - destruct H1 as [-> _]. discriminate.
  - destruct H1 as (-> & n1 & Hn1 & H1). destruct H2 as ([= <-] & n2 & Hn2 & H2).
    rewrite Hn1 in Hn2. injection Hn2 as <-. f_equal. exact (IH _ _ H1 H2).
Qed.

Lemma next_path_suffix m : forall pre post raw last a,
  next_path m raw (pre ++ a :: post) last ->
  next_path m (HeapPointer a) (a :: post) last.
Proof.
  induction pre as [| b pre IH]; intros post raw last a H; cbn in H.
  - destruct H as (-> & H). split; [reflexivity | exact H].
  - destruct H as (-> & next & _ & H). exact (IH _ _ _ _ H).
Qed.

Lemma next_path_NoDup m : forall addrs raw,
  next_path m raw addrs (Smi 0) -> NoDup addrs.
Proof.
  induction addrs as [| a rest IH]; intros raw H; [constructor |].
  pose proof H as (-> & next & Hn & Hrest). constructor; [| exact (IH _ Hrest)].
  intros Hin. apply list_elem_of_split in Hin as (pre & post & ->).
  pose proof (next_path_suffix m pre post next (Smi 0) a Hrest) as Hsuf.
  pose proof (next_path_unique m _ _ _ H Hsuf) as Heq.
  apply (f_equal length) in Heq. cbn in Heq. rewrite length_app in Heq.
  cbn in Heq. lia.
Qed.

Lemma next_path_chain m : forall addrs raw,
  next_path m raw addrs (Smi 0) ->
  exists chain, chain.*1 = addrs /\ linked raw chain /\
                Forall (fun x => m !! x.1 = Some (StackObject x.2)) chain.
Proof.
  induction addrs as [| a rest IH]; intros raw H.
  { exists []. repeat split; [exact H | constructor]. }
  destruct H as (-> & next & Hn & H).
  unfold stack_next_at in Hn.
  destruct (m !! a) as [[| s | |] |] eqn:Ha; try discriminate.
  injection Hn as <-.
  destruct (IH _ H) as (chain & Hk & Hl & Hm).
  exists ((a, s) :: chain). cbn. rewrite Hk.
  split; [reflexivity |]. split; [split; [reflexivity | exact Hl] |].
  constructor; [exact Ha | exact Hm].
Qed.

Section ChainProperties.
Context {platform : Platform}.

Lemma CookStacks_loop_path : forall n i raw p p' raw',
  CookStacks_loop n i raw p = Some (p', raw') ->
  exists addrs,
    length addrs = n /\ next_path (memory_ p) raw addrs raw' /\
    same_links (memory_ p) (memory_ p') /\
    length (cooked_stack_deltas_ p') = length (cooked_stack_deltas_ p).
Proof.
  induction n as [| n IH]; intros i raw p p' raw' H.
  { injection H as <- <-. exists []. repeat split; reflexivity. }
  cbn [CookStacks_loop] in H.
  apply bind_Some in H as ([a current] & Hcast & H).
  apply bind_Some in H as ([a0 s0] & _ & H).
  apply bind_Some in H as ([ws st] & _ & H).
  apply bind_Some in H as (cooked & Hset & H).
  apply IH in H as (addrs & Hlen & Hpath & Hlinks & Hdl).
  cbn [memory_ set_cooked_stack_deltas store_stack set_memory
       cooked_stack_deltas_] in Hpath, Hlinks, Hdl.
  unfold Stack_cast, heap_object in Hcast.
  destruct raw as [| ra |]; try discriminate.
  destruct (memory_ p !! ra) as [[| s | |] |] eqn:Ha; try discriminate.
  injection Hcast as <- <-.
  assert (Hstep : same_links (memory_ p)
                    (<[ra := StackObject (Stack_set_words ws s)]> (memory_ p)))
    by (apply (same_links_store _ _ s); [exact Ha | reflexivity]).
  exists (ra :: addrs). split; [cbn; lia |]. split; [| split].
  - split; [reflexivity |]. exists (Stack_next s). split.
    + unfold stack_next_at. rewrite Ha. reflexivity.
    + apply (next_path_ext _ (memory_ p)) in Hpath; [exact Hpath |].
      intros b. symmetry. apply Hstep.
  - intros b. rewrite (Hstep b). apply Hlinks.
  - rewrite Hdl. exact (List_set_length _ _ _ _ Hset).
Qed.

(** X5.  [CookStacks(n)] returns only on a whole chain.  When it returns, the
    stacks chained from the stack of the current coroutine through their
    [next] fields are exactly [n], all distinct, and the last one has the
    Smi zero as [next]; the pass has made [n] delta lists and has left every
    [next] field as it was. *)
Theorem CookStacks_returns_only_on_whole_chain (n : Z) (p p' : Process) :
  CookStacks n p = Some p' ->
  exists raw chain,
    Coroutine_stack p = Some raw /\
    stack_chain (memory_ p) raw chain /\
    length chain = Z.to_nat n /\
    length (cooked_stack_deltas_ p') = Z.to_nat n /\
    same_links (memory_ p) (memory_ p').
Proof.
  unfold CookStacks. intros H.
  apply bind_Some in H as (raw & Hraw & H).
  apply bind_Some in H as ([q raw'] & Hloop & H).
  destruct raw' as [z | |]; try discriminate.
  destruct z; try discriminate. injection H as <-.
  apply CookStacks_loop_path in Hloop as (addrs & Hlen & Hpath & Hlinks & Hdl).
  cbn [memory_ set_cooked_stack_deltas cooked_stack_deltas_] in *.
  rewrite length_replicate in Hdl.
  destruct (next_path_chain _ _ _ Hpath) as (chain & Hk & Hl & Hm).
  exists raw, chain. split; [exact Hraw |]. split.
  - split; [exact Hl |]. split; [| exact Hm].
    rewrite Hk. exact (next_path_NoDup _ _ _ Hpath).
  - split; [rewrite <- Hlen, <- Hk; symmetry; apply length_fmap |].
    split; [exact Hdl | exact Hlinks].
Qed.

End ChainProperties.

(** ** Chaining the stacks during a collection *)

Lemma set_memory_set_memory m m' p :
  set_memory m' (set_memory m p) = set_memory m' p.
Proof. destruct p; reflexivity. Qed.

Lemma set_memory_same p : set_memory (memory_ p) p = p.
Proof. destruct p; reflexivity. Qed.

Lemma Stack_set_next_at_result a v s p :
  memory_ p !! a = Some (StackObject s) ->
  Stack_set_next_at a v p
  = Some (set_memory (<[a := StackObject (Stack_set_next v s)]> (memory_ p)) p).
Proof.
  intros Ha. unfold Stack_set_next_at, Stack_cast, heap_object. rewrite Ha.
  reflexivity.
Qed.

Lemma chained_snoc others x :
  chained (others ++ [x])
  = (x.1, Stack_set_next (chain_head (chained others)) x.2) :: chained others.
Proof. unfold chained. rewrite foldl_app. reflexivity. Qed.

Lemma chained_keys others : (chained others).*1 = rev others.*1.
Proof.
  induction others as [| x others IH] using rev_ind; [reflexivity |].
  rewrite chained_snoc, fmap_app, rev_app_distr. cbn. rewrite IH. reflexivity.
Qed.

Lemma chained_linked others : linked (chain_head (chained others)) (chained others).
Proof.
  induction others as [| x others IH] using rev_ind; [reflexivity |].
  rewrite chained_snoc. split; [reflexivity | exact IH].
Qed.

Section ChainingProperties.
Context {platform : Platform}.

(** Meeting a stack other than the current one puts it right behind the
    current stack. *)
Lemma ChainStack_other a s c cq v p :
  stack p = Some (c, cq) -> c <> a -> Includes (to_ v) c = true ->
  memory_ p !! a = Some (StackObject s) ->
  ChainStack a v p
  = Some ({| to_ := to_ v;
             number_of_stacks_ := to_int (number_of_stacks_ v + 1) |},
          set_memory
            (<[c := StackObject (Stack_set_next (HeapPointer a) cq)]>
               (<[a := StackObject (Stack_set_next (Stack_next cq) s)]>
                  (memory_ p))) p).
Proof.
  intros Hs Hne Hin Ha. unfold ChainStack.
  unfold Stack_cast at 1, heap_object. rewrite Ha. cbn [mbind option_bind].
  rewrite Hs. cbn [mbind option_bind to_].
  replace (c =? a) with false by (symmetry; apply Z.eqb_neq; exact Hne).
  rewrite Hin. cbn [negb].
  rewrite (Stack_set_next_at_result a _ s p Ha). cbn [mbind option_bind].
  destruct (stack_inv p c cq Hs) as (Hc & _).
  rewrite (Stack_set_next_at_result c _ cq).
  - cbn [mbind option_bind memory_ set_memory].
    rewrite set_memory_set_memory. reflexivity.
  - cbn [memory_ set_memory]. rewrite lookup_insert_ne by congruence. exact Hc.
Qed.

(** Meeting the current stack only counts it. *)
Lemma ChainStack_current c cq v p :
  stack p = Some (c, cq) ->
  ChainStack c v p
  = Some ({| to_ := to_ v;
             number_of_stacks_ := to_int (number_of_stacks_ v + 1) |}, p).
Proof.
  intros Hs. unfold ChainStack.
  destruct (stack_inv p c cq Hs) as (Hc & _).
  unfold Stack_cast at 1, heap_object. rewrite Hc. cbn [mbind option_bind].
  rewrite Hs. cbn [mbind option_bind]. rewrite Z.eqb_refl. reflexivity.
Qed.

(** The stacks [others], none of them the current one, met one after the
    other: each is put between the current stack and the stacks met
    before it. *)
Lemma ChainStacks_others others :
  forall done v q c cq,
    stack q = Some (c, cq) -> Includes (to_ v) c = true ->
    Stack_next cq = chain_head done ->
    Forall (fun x => memory_ q !! x.1 = Some (StackObject x.2)) done ->
    Forall (fun x => memory_ q !! x.1 = Some (StackObject x.2)) others ->
    NoDup (c :: done.*1 ++ others.*1) ->
    0 <= number_of_stacks_ v ->
    number_of_stacks_ v + Z.of_nat (length others) < 2 ^ 31 ->
    let done' :=
      foldl (fun done x =>
               (x.1, Stack_set_next (chain_head done) x.2) :: done)
            done others in
    exists m,
      ChainStacks others.*1 v q
      = Some ({| to_ := to_ v;
                 number_of_stacks_ :=
                   number_of_stacks_ v + Z.of_nat (length others) |},
              set_memory m q) /\
      m !! c = Some (StackObject (Stack_set_next (chain_head done') cq)) /\
      Forall (fun x => m !! x.1 = Some (StackObject x.2)) done' /\
      (forall b, b <> c -> b ∉ others.*1 -> m !! b = memory_ q !! b).
Proof.
  induction others as [| x others IH];
    intros done v q c cq Hs Hin Hnext Hdone Hothers Hnd Hlo Hhi done'.
  - exists (memory_ q). cbn. rewrite set_memory_same, Z.add_0_r.
    destruct (stack_inv q c cq Hs) as (Hc & _).
    repeat split.
    + destruct v; reflexivity.
    + rewrite Hc. subst done'. cbn. rewrite <- Hnext. destruct cq; reflexivity.
    + exact Hdone.
  - apply Forall_cons in Hothers as [Hx Hothers].
    apply NoDup_cons in Hnd as [Hc Hnd].
    rewrite fmap_cons in Hc, Hnd.
    apply NoDup_app in Hnd as (Hnd_done & Hdisj & Hnd_others).
    apply NoDup_cons in Hnd_others as [Hx_others Hnd_others].
    assert (Hcx : c <> x.1).
    { intros ->. apply Hc, elem_of_app. right. apply list_elem_of_here. }
    assert (Hx_done : x.1 ∉ done.*1).
    { intros Hd. apply (Hdisj _ Hd). apply list_elem_of_here. }
    destruct (stack_inv q c cq Hs) as (Hmc & k & i & fields & Hco).
    cbn [fmap list_fmap ChainStacks]. change (list_fmap _ _ ?f ?l) with (f <$> l).
    rewrite (ChainStack_other x.1 x.2 c cq v q Hs Hcx Hin Hx).
    cbn [mbind option_bind].
    set (m1 := <[c := StackObject (Stack_set_next (HeapPointer x.1) cq)]>
                 (<[x.1 := StackObject (Stack_set_next (Stack_next cq) x.2)]>
                    (memory_ q))).
    set (v1 := {| to_ := to_ v;
                  number_of_stacks_ := to_int (number_of_stacks_ v + 1) |}).
    assert (Hframe : forall b, b <> c -> b <> x.1 -> m1 !! b = memory_ q !! b).
    { intros b Hb1 Hb2. unfold m1.
      rewrite lookup_insert_ne by congruence.
      rewrite lookup_insert_ne by congruence. reflexivity. }
    assert (Hs1 : stack (set_memory m1 q)
                  = Some (c, Stack_set_next (HeapPointer x.1) cq)).
    { apply (stack_intro _ _ _ k i fields).
      - cbn. unfold m1. apply lookup_insert_eq.
      - change (coroutine_ (set_memory m1 q)) with (coroutine_ q).
        change (memory_ (set_memory m1 q)) with m1.
        rewrite Hframe; [exact Hco | |]; intros Heq; rewrite Heq in Hco;
          congruence. }
    assert (Hcount : to_int (number_of_stacks_ v + 1) = number_of_stacks_ v + 1).
    { apply to_int_small. unfold is_int. cbn [length] in Hhi. lia. }
    destruct (IH ((x.1, Stack_set_next (chain_head done) x.2) :: done)
                v1 (set_memory m1 q) c (Stack_set_next (HeapPointer x.1) cq))
      as (m & Hrun & Hm_c & Hm_done & Hm_frame).
    + exact Hs1.
    + exact Hin.
    + reflexivity.
    + apply Forall_cons. split.
      * cbn. unfold m1. rewrite lookup_insert_ne by congruence.
        rewrite lookup_insert_eq, Hnext. reflexivity.
      * apply Forall_forall. intros y Hy.
        pose proof (proj1 (Forall_forall _ _) Hdone y Hy) as Hmy. cbn.
        rewrite Hframe; [exact Hmy | |].
        -- intros Heq. apply Hc, elem_of_app. left. rewrite <- Heq.
           apply list_elem_of_fmap. exists y. split; [reflexivity | exact Hy].
        -- intros Heq. apply Hx_done. rewrite <- Heq.
           apply list_elem_of_fmap. exists y. split; [reflexivity | exact Hy].
    + apply Forall_forall. intros y Hy.
      pose proof (proj1 (Forall_forall _ _) Hothers y Hy) as Hmy. cbn.
      rewrite Hframe; [exact Hmy | |].
      * intros Heq. apply Hc, elem_of_app. right. apply list_elem_of_further.
        rewrite <- Heq.
        apply list_elem_of_fmap. exists y. split; [reflexivity | exact Hy].
      * intros Heq. apply Hx_others. rewrite <- Heq.
        apply list_elem_of_fmap. exists y. split; [reflexivity | exact Hy].
    + apply NoDup_cons. split.
      * intros Hin'. apply Hc. rewrite fmap_cons in Hin'. cbn in Hin'.
        apply elem_of_cons in Hin' as [Heq | Hin']; [congruence |].
        apply elem_of_app in Hin' as [Hd | Ho]; apply elem_of_app.
        -- left. exact Hd.
        -- right. apply list_elem_of_further. exact Ho.
      * rewrite fmap_cons. cbn. apply NoDup_cons. split.
        -- intros Hin'. apply elem_of_app in Hin' as [Hd | Ho]; tauto.
        -- apply NoDup_app. repeat split; [exact Hnd_done | | exact Hnd_others].
           intros b Hb Hb'. apply (Hdisj _ Hb). apply list_elem_of_further.
           exact Hb'.
    + unfold v1. cbn. rewrite Hcount. lia.
    + unfold v1. cbn. rewrite Hcount. cbn [length] in Hhi. lia.
    + exists m. repeat split.
      * rewrite Hrun. unfold v1. cbn [to_ number_of_stacks_].
        rewrite Hcount, set_memory_set_memory. cbn [length].
        do 3 f_equal. lia.
      * exact Hm_c.
      * exact Hm_done.
      * intros b Hb Hb'. rewrite Hm_frame.
        -- cbn. apply Hframe; [exact Hb |]. intros ->. apply Hb'.
           apply list_elem_of_here.
        -- exact Hb.
        -- intros Ho. apply Hb'. apply list_elem_of_further. exact Ho.
Qed.

Lemma chained_length others : length (chained others) = length others.
Proof.
  rewrite <- (length_fmap fst (chained others)), chained_keys, length_rev.
  apply length_fmap.
Qed.

Lemma chained_frames_fit L others :
  Forall (frames_fit L) others -> Forall (frames_fit L) (chained others).
Proof.
  induction others as [| x others IH] using rev_ind; [constructor |].
  intros H. apply Forall_app in H as [Ho Hx].
  apply Forall_cons in Hx as [Hx _].
  rewrite chained_snoc. apply Forall_cons. split; [exact Hx | exact (IH Ho)].
Qed.

(** X6. The visitor of a collection meets the current stack of the
    process first and then the other live stacks, each once; the next
    field of the current stack is the Smi zero, as the unchaining leaves
    it.  Then [ChainStack] counts every stack and links them all into one
    chain that starts at the current stack, the stack met last right behind
    it and the one met first at the end; the coroutine of the process
    still points to the current stack and nothing but the stacks met is
    written.  [CookStacks] called with the count of the visitor, as
    [Program] does after the collection, finds the chain it asserts: if no
    stack has more frames than the current stack has words it returns,
    with one delta list for each stack. *)
Theorem ChainStack_builds_the_chain
    (to : Heap) (others : list (Z * Stack)) (p : Process) (c : Z) (cs : Stack) :
  stack p = Some (c, cs) ->
  Stack_next cs = Smi 0 ->
  Includes to c = true ->
  NoDup (c :: others.*1) ->
  Forall (fun x => memory_ p !! x.1 = Some (StackObject x.2)) others ->
  1 + Z.of_nat (length others) < 2 ^ 31 ->
  let chain :=
    (c, Stack_set_next (chain_head (chained others)) cs) :: chained others in
  exists v' p',
    ChainStacks (c :: others.*1) {| to_ := to; number_of_stacks_ := 0 |} p
    = Some (v', p') /\
    number_of_stacks_ v' = Z.of_nat (length chain) /\
    Coroutine_stack p' = Some (HeapPointer c) /\
    stack_chain (memory_ p') (HeapPointer c) chain /\
    (forall b, b <> c -> b ∉ others.*1 -> memory_ p' !! b = memory_ p !! b) /\
    (Forall (frames_fit (length (Stack_words cs))) ((c, cs) :: others) ->
     exists p'',
       CookStacks (number_of_stacks_ v') p' = Some p'' /\
       length (cooked_stack_deltas_ p'') = length chain).
Proof.
  intros Hs Hnext Hin Hnd Hothers Hcount chain.
  destruct (stack_inv p c cs Hs) as (Hmc & k & i & fields & Hco).
  destruct (ChainStacks_others others [] {| to_ := to; number_of_stacks_ := 1 |}
              p c cs Hs Hin Hnext (Forall_nil_2 _) Hothers)
    as (m & Hrun & Hm_c & Hm_done & Hm_frame).
  { exact Hnd. }
  { cbn. lia. }
  { cbn. exact Hcount. }
  cbn [to_ number_of_stacks_] in Hrun. fold (chained others) in Hm_c, Hm_done.
  assert (Hlen : 1 + Z.of_nat (length others) = Z.of_nat (length chain)).
  { unfold chain. cbn [length]. rewrite chained_length. lia. }
  assert (Hco' : Coroutine_stack (set_memory m p) = Some (HeapPointer c)).
  { unfold Coroutine_stack, heap_object.
    change (coroutine_ (set_memory m p)) with (coroutine_ p).
    change (memory_ (set_memory m p)) with m.
    rewrite Hm_frame, Hco; [reflexivity | |].
    - intros Heq. rewrite Heq in Hco. congruence.
    - intros Hel. apply list_elem_of_fmap in Hel as (y & Hy1 & Hy2).
      pose proof (proj1 (Forall_forall _ _) Hothers y Hy2) as Hmy. cbn in Hmy.
      rewrite <- Hy1 in Hmy. congruence. }
  assert (Hchain : stack_chain m (HeapPointer c) chain).
  { unfold chain. repeat split.
    - apply chained_linked.
    - cbn. rewrite chained_keys. apply NoDup_cons in Hnd as [Hc Hnd].
      apply NoDup_cons. split.
      + intros Hel. apply Hc. apply list_elem_of_In. apply in_rev.
        apply list_elem_of_In. exact Hel.
      + apply NoDup_ListNoDup, NoDup_rev, NoDup_ListNoDup. exact Hnd.
    - apply Forall_cons. split; [exact Hm_c | exact Hm_done]. }
  exists {| to_ := to; number_of_stacks_ := 1 + Z.of_nat (length others) |},
         (set_memory m p).
  split; [| split; [| split; [| split; [| split]]]].
  - cbn [fmap list_fmap ChainStacks]. change (list_fmap _ _ ?f ?l) with (f <$> l).
    rewrite (ChainStack_current c cs _ p Hs). cbn [mbind option_bind].
    exact Hrun.
  - exact Hlen.
  - exact Hco'.
  - exact Hchain.
  - intros b Hb Hb'. cbn. apply Hm_frame; assumption.
  - intros Hfit. apply Forall_cons in Hfit as [Hfit_c Hfit_o].
    cbn [number_of_stacks_]. rewrite Hlen.
    rewrite (CookStacks_cooks_chain (set_memory m p) (HeapPointer c) chain c
               (Stack_set_next (chain_head (chained others)) cs) Hco' Hchain
               eq_refl).
    + eexists. split; [reflexivity |]. cbn [cooked_stack_deltas_ set_cooked_stack_deltas]. apply length_map.
    + apply Forall_cons. split; [exact Hfit_c |].
      apply chained_frames_fit. exact Hfit_o.
Qed.

End ChainingProperties.

Section ChannelProperties.
Context {ports : Ports}.

Lemma ProcessQueueGetChannel_loop_spec (queue : list Message) :
  forall fuel p,
    mailbox_ p = queue -> (length queue <= fuel)%nat ->
    exists dead rest,
      queue = dead ++ rest /\
      Forall (fun m => Message_port_channel m = 0) dead /\
      match rest with
      | [] => True
      | m :: _ => Message_port_channel m <> 0
      end /\
      ProcessQueueGetChannel_loop fuel p
      = Some (Nat.iter (length dead) AdvanceCurrentMessage p,
              match rest with
              | [] => null_object (program_ p)
              | m :: _ => HeapPointer (Message_port_channel m)
              end).
Proof.
  induction queue as [| m queue IH]; intros fuel p Hq Hfuel.
  - exists [], []. repeat split; [constructor |].
    destruct fuel; cbn; rewrite Hq; reflexivity.
  - destruct (Z.eqb_spec (Message_port_channel m) 0) as [Hdead | Hlive].
    + destruct fuel as [| fuel]; [cbn in Hfuel; lia |].
      destruct (IH fuel (AdvanceCurrentMessage p)) as
        (dead & rest & Hsplit & Hdeads & Hrest & Hrun).
      { cbn. rewrite Hq. reflexivity. }
      { cbn in Hfuel. lia. }
      exists (m :: dead), rest. repeat split.
      * cbn. rewrite Hsplit. reflexivity.
      * constructor; assumption.
      * exact Hrest.
      * cbn [ProcessQueueGetChannel_loop]. rewrite Hq. cbn [head].
        rewrite Hdead. cbn [Z.eqb negb]. rewrite Hrun.
        cbn [length]. rewrite Nat.iter_succ_r. reflexivity.
    + exists [], (m :: queue). repeat split; [constructor | exact Hlive |].
      destruct fuel; cbn [ProcessQueueGetChannel_loop]; rewrite Hq; cbn [head];
        apply Z.eqb_neq in Hlive; rewrite Hlive; reflexivity.
Qed.

Lemma tail_drop {A} (n : nat) (l : list A) : tail (drop n l) = drop (S n) l.
Proof.
  revert l. induction n as [| n IH]; intros [| x l]; cbn; try reflexivity.
  apply IH.
Qed.

Lemma AdvanceCurrentMessage_iter n p :
  let p' := Nat.iter n AdvanceCurrentMessage p in
  mailbox_ p' = drop n (mailbox_ p) /\
  events_ p' = events_ p ++ replicate n EvAdvanceCurrentMessage /\
  memory_ p' = memory_ p /\ heap_ p' = heap_ p /\
  immutable_heap_ p' = immutable_heap_ p /\
  store_buffer_ p' = store_buffer_ p /\
  coroutine_ p' = coroutine_ p /\ stack_limit_ p' = stack_limit_ p /\
  program_ p' = program_ p /\
  cooked_stack_deltas_ p' = cooked_stack_deltas_ p.
Proof.
  induction n as [| n IH]; cbn zeta.
  - cbn. rewrite app_nil_r. repeat split.
  - cbn zeta in IH. destruct IH as (Hm & He & IH).
    cbn [Nat.iter nat_rect].
    split; [| split].
    + cbn. unfold Nat.iter in Hm. rewrite Hm.
      apply tail_drop.
    + cbn. unfold Nat.iter in He. rewrite He, <- app_assoc.
      f_equal. symmetry. apply replicate_S_end.
    + exact IH.
Qed.

(** X7. [ProcessQueueGetChannel] always returns.  It drops from the front
    of the mailbox exactly the messages whose channel has died, up to the
    first message with a live channel: it returns that channel and leaves
    that message the current one, for [ProcessQueueGetMessage] to take.
    With no such message it empties the mailbox and returns the null
    object of the program.  It advances the mailbox once for each message
    dropped and touches nothing else of the process. *)
Theorem ProcessQueueGetChannel_drops_dead_channels (p : Process) :
  exists dead rest p',
    mailbox_ p = dead ++ rest /\
    Forall (fun m => Message_port_channel m = 0) dead /\
    match rest with
    | [] => True
    | m :: _ => Message_port_channel m <> 0
    end /\
    ProcessQueueGetChannel p
    = Some (p', match rest with
                | [] => null_object (program_ p)
                | m :: _ => HeapPointer (Message_port_channel m)
                end) /\
    mailbox_ p' = rest /\
    events_ p' = events_ p ++ replicate (length dead) EvAdvanceCurrentMessage /\
    memory_ p' = memory_ p /\ heap_ p' = heap_ p /\
    immutable_heap_ p' = immutable_heap_ p /\
    store_buffer_ p' = store_buffer_ p /\
    coroutine_ p' = coroutine_ p /\ stack_limit_ p' = stack_limit_ p /\
    program_ p' = program_ p /\
    cooked_stack_deltas_ p' = cooked_stack_deltas_ p.
Proof.
  destruct (ProcessQueueGetChannel_loop_spec (mailbox_ p)
              (length (mailbox_ p)) p eq_refl (le_n _))
    as (dead & rest & Hsplit & Hdead & Hrest & Hrun).
  destruct (AdvanceCurrentMessage_iter (length dead) p) as (Hm & He & Hsame).
  exists dead, rest, (Nat.iter (length dead) AdvanceCurrentMessage p).
  split; [exact Hsplit |]. split; [exact Hdead |]. split; [exact Hrest |].
  split; [exact Hrun |]. split; [| split; [exact He | exact Hsame]].
  rewrite Hm, Hsplit. apply drop_app_length.
Qed.

End ChannelProperties.

Section BreakProperties.
Context {board : Board}.

Lemma _sbrk_step incr st :
  0 < end_address -> stack_bottom <= 2 ^ 31 ->
  end_address <= current_break st <= stack_bottom ->
  0 <= incr < 2 ^ 31 ->
  let brk := current_break st in
  _sbrk incr st
  = if brk + incr <=? stack_bottom
    then ({| heap_end := brk + incr; errno := errno st |}, brk)
    else ({| heap_end := brk; errno := ENOMEM |}, to_pointer (-1)).
Proof.
  intros Hend Hlimit Hbrk Hincr brk. unfold _sbrk.
  fold (current_break st). fold brk. fold stack_bottom.
  assert (Hp : to_pointer (brk + incr) = brk + incr).
  { unfold to_pointer. apply Z.mod_small. subst brk. lia. }
  rewrite Hp.
  destruct (Z.leb_spec (brk + incr) stack_bottom) as [Hfit | Hnot].
  - replace (brk + incr >? stack_bottom) with false; [reflexivity |].
    symmetry. rewrite Z.gtb_ltb. apply Z.ltb_ge. exact Hfit.
  - replace (brk + incr >? stack_bottom) with true; [reflexivity |].
    symmetry. rewrite Z.gtb_ltb. apply Z.ltb_lt. exact Hnot.
Qed.

Lemma current_break_granted brk e :
  0 < brk -> current_break {| heap_end := brk; errno := e |} = brk.
Proof.
  intros Hpos. unfold current_break. cbn.
  destruct (Z.eqb_spec brk 0); [lia | reflexivity].
Qed.

Lemma sbrk_calls_spec incrs :
  forall st,
    0 < end_address -> stack_bottom <= 2 ^ 31 ->
    end_address <= current_break st <= stack_bottom ->
    Forall (fun incr => 0 <= incr < 2 ^ 31) incrs ->
    let brk := current_break st in
    let st' := (sbrk_calls incrs st).1 in
    let rs := (sbrk_calls incrs st).2 in
    rs = bump stack_bottom brk incrs /\
    adjacent brk (granted incrs rs) /\
    current_break st' = brk + total_size (granted incrs rs) /\
    current_break st' <= stack_bottom /\
    errno st' = (if bool_decide (refused incrs rs = []) then errno st
                 else ENOMEM).
Proof.
  induction incrs as [| incr incrs IH]; intros st Hend Hlimit Hbrk Hincrs.
  - cbn. repeat split; lia.
  - apply Forall_cons in Hincrs as [Hincr Hincrs].
    cbn zeta. cbn [sbrk_calls].
    rewrite (_sbrk_step incr st Hend Hlimit Hbrk Hincr).
    set (brk := current_break st).
    assert (Hfail : forall b : Z, end_address <= b <= stack_bottom ->
                                  b <> to_pointer (-1)).
    { intros b Hb. unfold to_pointer.
      change ((-1) mod 2 ^ 32) with (2 ^ 32 - 1). lia. }
    destruct (Z.leb_spec (brk + incr) stack_bottom) as [Hfit | Hnot].
    + set (st1 := {| heap_end := brk + incr; errno := errno st |}).
      assert (Hbrk1 : current_break st1 = brk + incr).
      { apply current_break_granted. subst brk. lia. }
      destruct (IH st1 Hend Hlimit ltac:(rewrite Hbrk1; subst brk; lia) Hincrs)
        as (Hrs & Hadj & Hsum & Hle & Herr).
      rewrite Hbrk1 in Hrs, Hadj, Hsum.
      destruct (sbrk_calls incrs st1) as [st' rs] eqn:Hcalls.
      cbn [fst snd] in *.
      assert (Hgranted : granted (incr :: incrs) (brk :: rs)
                         = (brk, incr) :: granted incrs rs).
      { unfold granted. cbn [zip zip_with]. rewrite filter_cons_True; [reflexivity |].
        cbn. apply Hfail. subst brk. lia. }
      assert (Hrefused : refused (incr :: incrs) (brk :: rs) = refused incrs rs).
      { unfold refused. cbn [zip zip_with]. rewrite filter_cons_False; [reflexivity |].
        cbn. intros Heq. apply (Hfail brk); [subst brk; lia | exact Heq]. }
      rewrite Hgranted, Hrefused. cbn [bump].
      replace (brk + incr <=? stack_bottom) with true
        by (symmetry; apply Z.leb_le; exact Hfit).
      repeat split.
      * rewrite Hrs. reflexivity.
      * exact Hadj.
      * rewrite Hsum. unfold total_size. cbn [fmap list_fmap foldr snd]. lia.
      * exact Hle.
      * exact Herr.
    + set (st1 := {| heap_end := brk; errno := ENOMEM |}).
      assert (Hbrk1 : current_break st1 = brk).
      { apply current_break_granted. subst brk. lia. }
      destruct (IH st1 Hend Hlimit ltac:(rewrite Hbrk1; subst brk; lia) Hincrs)
        as (Hrs & Hadj & Hsum & Hle & Herr).
      rewrite Hbrk1 in Hrs, Hadj, Hsum.
      destruct (sbrk_calls incrs st1) as [st' rs] eqn:Hcalls.
      cbn [fst snd] in *.
      assert (Hgranted : granted (incr :: incrs) (to_pointer (-1) :: rs)
                         = granted incrs rs).
      { unfold granted. cbn [zip zip_with]. rewrite filter_cons_False; [reflexivity |].
        cbn. intros Hne. apply Hne. reflexivity. }
      assert (Hrefused : refused (incr :: incrs) (to_pointer (-1) :: rs)
                         = incr :: refused incrs rs).
      { unfold refused. cbn [zip zip_with]. rewrite filter_cons_True; [reflexivity |].
        reflexivity. }
      rewrite Hgranted, Hrefused. cbn [bump].
      replace (brk + incr <=? stack_bottom) with false
        by (symmetry; apply Z.leb_gt; exact Hnot).
      repeat split.
      * rewrite Hrs. reflexivity.
      * exact Hadj.
      * exact Hsum.
      * exact Hle.
      * rewrite Herr. cbn [errno st1].
        rewrite (bool_decide_eq_false_2 (incr :: _ = [])) by discriminate.
        destruct (bool_decide (refused incrs rs = [])); reflexivity.
Qed.

Lemma total_size_nonneg blocks :
  Forall (fun b : Z * Z => 0 <= b.2) blocks -> 0 <= total_size blocks.
Proof.
  induction 1 as [| b blocks Hb _ IH]; unfold total_size in *; cbn; lia.
Qed.

Lemma adjacent_within limit blocks :
  forall start,
    adjacent start blocks ->
    Forall (fun b : Z * Z => 0 <= b.2) blocks ->
    start + total_size blocks <= limit ->
    Forall (fun b => start <= b.1 /\ b.1 + b.2 <= limit) blocks.
Proof.
  induction blocks as [| b blocks IH]; intros start Hadj Hsizes Hle;
    [constructor |].
  destruct Hadj as [Hb Hadj]. apply Forall_cons in Hsizes as [Hsize Hsizes].
  pose proof (total_size_nonneg blocks Hsizes) as Htotal.
  assert (Hsplit : total_size (b :: blocks) = b.2 + total_size blocks)
    by reflexivity.
  apply Forall_cons. split; [lia |].
  eapply Forall_impl; [apply (IH (start + b.2) Hadj Hsizes); lia |].
  cbn. intros b' [H1 H2]. lia.
Qed.

Lemma granted_sizes incrs rs :
  Forall (fun incr => 0 <= incr < 2 ^ 31) incrs ->
  Forall (fun b : Z * Z => 0 <= b.2) (granted incrs rs).
Proof.
  intros Hincrs. apply Forall_forall. intros [r incr] Hb.
  apply list_elem_of_filter in Hb as [_ Hb]. apply elem_of_zip_r in Hb.
  cbn. apply (proj1 (Forall_forall _ _) Hincrs incr Hb).
Qed.

(** X8. Calls of [_sbrk] with sizes that are not negative, from a break
    between the symbol [end] and the bottom of the area kept for the main
    stack (which [_sbrk] finds [MAX_STACK_SIZE] below the initial stack
    pointer of the vector table): a call is granted exactly when the block
    still fits below the stack area, and is otherwise answered by
    [(void* ) -1] without moving the break, so that a smaller request after
    it can still be granted.  The blocks granted lie one right after the
    other from the first break on, so no two of them overlap, and none
    reaches into the stack area; the break ends behind the last of them.
    [errno] is [ENOMEM] once a call was refused and is left alone
    otherwise. *)
Theorem _sbrk_hands_out_adjacent_blocks (incrs : list Z) (st : Libc) :
  0 < end_address -> stack_bottom <= 2 ^ 31 ->
  end_address <= current_break st <= stack_bottom ->
  Forall (fun incr => 0 <= incr < 2 ^ 31) incrs ->
  let brk := current_break st in
  let st' := (sbrk_calls incrs st).1 in
  let rs := (sbrk_calls incrs st).2 in
  rs = bump stack_bottom brk incrs /\
  adjacent brk (granted incrs rs) /\
  Forall (fun b => brk <= b.1 /\ b.1 + b.2 <= stack_bottom)
    (granted incrs rs) /\
  current_break st' = brk + total_size (granted incrs rs) /\
  errno st' = (if bool_decide (refused incrs rs = []) then errno st
               else ENOMEM).
Proof.
  intros Hend Hlimit Hbrk Hincrs brk st' rs.
  destruct (sbrk_calls_spec incrs st Hend Hlimit Hbrk Hincrs)
    as (Hrs & Hadj & Hsum & Hle & Herr).
  fold brk st' rs in Hrs, Hadj, Hsum, Hle, Herr.
  repeat split; try assumption.
  apply adjacent_within; [exact Hadj | apply granted_sizes; exact Hincrs |].
  rewrite <- Hsum. exact Hle.
Qed.

End BreakProperties.

Lemma signal_step_owned slot0 step st :
  signal_invariant slot0 st -> slot_owned slot0 st ->
  slot_owned slot0 (signal_step step st).
Proof.
  destruct st as [slot senders], step as [i spurious].
  intros Hinv Hown. unfold signal_step.
  destruct (senders !! i) as [t |] eqn:Hi; [| exact Hown].
  destruct Hinv as (Hall & _).
  destruct (Hall _ _ Hi) as (Hok & _).
  assert (Hlt : (i < length senders)%nat) by (eapply lookup_lt_Some, Hi).
  unfold sender_step. unfold sender_ok in Hok.
  assert (Hkeep : forall t',
            sender_installed t' = sender_installed t ->
            sender_signal t' = sender_signal t ->
            slot_owned slot0 (slot, <[i := t']> senders)).
  { intros t' Hinst Hsig. destruct Hown as [Hown | (j & u & Hj & Hu & Hs)];
      [left; exact Hown | right]. cbn [fst snd] in *.
    destruct (decide (j = i)) as [-> | Hne].
    - exists i, t'. rewrite list_lookup_insert_eq by exact Hlt.
      rewrite Hi in Hj. injection Hj as <-.
      repeat split; congruence.
    - exists j, u. rewrite list_lookup_insert_ne by congruence.
      repeat split; assumption. }
  destruct (sender_at t) eqn:Hat.
  - apply Hkeep; reflexivity.
  - destruct Hok as [Hni _].
    unfold compare_exchange_weak, compare_exchange_strong.
    destruct spurious; [apply Hkeep; cbn; congruence |].
    destruct (slot =? 0) eqn:Hslot; [| apply Hkeep; cbn; congruence].
    right. exists i. eexists. cbn [fst snd].
    rewrite list_lookup_insert_eq by exact Hlt.
    split; [reflexivity |]. split; reflexivity.
  - apply Hkeep; reflexivity.
  - rewrite list_insert_id by exact Hi. exact Hown.
Qed.

Lemma signal_run_owned slot0 schedule :
  forall st,
    signal_invariant slot0 st -> slot_owned slot0 st ->
    slot_owned slot0 (signal_run schedule st).
Proof.
  unfold signal_run.
  induction schedule as [| step schedule IH]; cbn; intros st Hinv Hown;
    [exact Hown |].
  apply IH; [apply signal_step_preserves, Hinv |].
  apply signal_step_owned; assumption.
Qed.

(** X9. No signal sent to a process is lost or released twice.  Any number
    of threads send their signals to a process whose slot is empty, as the
    constructor leaves it, in any interleaving; when all of them have
    returned and the process, its ports cleared and its stacks uncooked,
    is destroyed, the destructor returns, every sender whose signal was
    not installed has called [Signal::DecrementRef] on it once, and the
    destructor calls it once on the signal that was installed, which no
    sender has decremented; with no sender it releases nothing. *)
Theorem every_signal_is_released_once
    (schedule : list (nat * bool)) (signals : list Z)
    (l : ProcessLinks) (p : Process) :
  Forall (fun s => s <> 0) signals ->
  let st := signal_run schedule (0, map sender_start signals) in
  Forall (fun t => sender_at t = Returned) st.2 ->
  signal_ l = st.1 ->
  ports_ l = 0 -> next_ l = 0 -> cooked_stack_deltas_ p = [] ->
  exists released,
    Process_destructor l p = Some released /\
    (forall i t, st.2 !! i = Some t -> sender_installed t = false ->
       sender_decrements t = 1%nat) /\
    (forall i t, st.2 !! i = Some t -> sender_installed t = true ->
       sender_decrements t = 0%nat /\ released = [sender_signal t]) /\
    ((forall i t, st.2 !! i = Some t -> sender_installed t = false) ->
     released = []).
Proof.
  intros Hs st Hreturned Hsignal Hports Hnext Hdeltas.
  pose proof (signal_invariant_start 0 signals Hs) as Hstart.
  pose proof (signal_run_preserves 0 schedule _ Hstart) as Hinv.
  pose proof (signal_run_owned 0 schedule _ Hstart
                ltac:(left; reflexivity)) as Hown.
  fold st in Hinv, Hown. destruct st as [slot senders] eqn:Hst.
  cbn [fst snd] in *.
  destruct Hinv as (Hall & _ & Hzero & _).
  exists (if negb (slot =? 0) then [slot] else []).
  split; [| split; [| split]].
  - unfold Process_destructor. rewrite Hports, Hnext, Hdeltas, Hsignal.
    reflexivity.
  - intros i t Ht Hni. destruct (Hall _ _ Ht) as (Hok & _).
    pose proof (proj1 (Forall_forall _ _) Hreturned t
                  (list_elem_of_lookup_2 _ _ _ Ht)) as Hat.
    unfold sender_ok in Hok. rewrite Hat in Hok.
    destruct Hok as [[? ?] | [? ?]]; congruence.
  - intros i t Ht Hi. destruct (Hall _ _ Ht) as (Hok & Hne & Hinst & _).
    pose proof (proj1 (Forall_forall _ _) Hreturned t
                  (list_elem_of_lookup_2 _ _ _ Ht)) as Hat.
    unfold sender_ok in Hok. rewrite Hat in Hok.
    destruct (Hinst Hi) as [Hslot _]. split.
    + destruct Hok as [[? ?] | [? ?]]; congruence.
    + rewrite Hslot. replace (sender_signal t =? 0) with false; [reflexivity |].
      symmetry. apply Z.eqb_neq. exact Hne.
  - intros Hnone. unfold slot_owned in Hown. cbn [fst snd] in Hown.
    destruct Hown as [-> | (i & t & Ht & Hi & _)]; [reflexivity |].
    rewrite (Hnone _ _ Ht) in Hi. discriminate.
Qed.

Section ReceiveProperties.
Context {platform : Platform} {mailbox : Mailbox} {ports : Ports}.

Lemma ProcessQueueGetMessage_plain p m rest :
  mailbox_ p = m :: rest -> plain m ->
  ProcessQueueGetMessage p = Some (AdvanceCurrentMessage p, Message_object m).
Proof.
  intros Hbox Hplain. unfold ProcessQueueGetMessage. rewrite Hbox. cbn [head].
  cbn [mbind option_bind]. unfold materialize.
  destruct Hplain as [-> | ->]; reflexivity.
Qed.

Lemma live_dead dead queue :
  Forall (fun m => Message_port_channel m = 0) dead ->
  live (dead ++ queue) = live queue.
Proof.
  induction 1 as [| m dead Hm _ IH]; [reflexivity |].
  cbn [app]. unfold live in *. rewrite filter_cons_False; [exact IH |].
  intros Hne. apply Hne. exact Hm.
Qed.

Lemma receive_messages_spec (n : nat) :
  forall fuel p,
    length (mailbox_ p) = n -> (n <= fuel)%nat ->
    Forall plain (mailbox_ p) ->
    Forall (fun m => HeapPointer (Message_port_channel m)
                     <> null_object (program_ p)) (mailbox_ p) ->
    exists p',
      receive_messages fuel p
      = Some (p', map (fun m => (HeapPointer (Message_port_channel m),
                                 Message_object m))
                      (live (mailbox_ p))) /\
      mailbox_ p' = [] /\
      events_ p' = events_ p ++ replicate n EvAdvanceCurrentMessage /\
      memory_ p' = memory_ p /\ heap_ p' = heap_ p /\
      immutable_heap_ p' = immutable_heap_ p /\
      store_buffer_ p' = store_buffer_ p.
Proof.
  induction n as [n IH] using lt_wf_ind.
  intros fuel p Hn Hfuel Hplain Hnull.
  destruct (ProcessQueueGetChannel_loop_spec (mailbox_ p)
              (length (mailbox_ p)) p eq_refl (le_n _))
    as (dead & rest & Hsplit & Hdead & Hrest & Hrun).
  destruct (AdvanceCurrentMessage_iter (length dead) p)
    as (Hm1 & He1 & Hmem1 & Hheap1 & Himm1 & Hsb1 & _ & _ & Hprog1 & _).
  set (p1 := Nat.iter (length dead) AdvanceCurrentMessage p) in *.
  assert (Hbox1 : mailbox_ p1 = rest).
  { rewrite Hm1, Hsplit. apply drop_app_length. }
  assert (Hlen : (length dead + length rest = n)%nat).
  { rewrite <- Hn, Hsplit, length_app. reflexivity. }
  rewrite Hsplit, (live_dead dead rest Hdead).
  destruct rest as [| m rest'].
  - exists p1. split; [| split; [| split; [| split; [| split; [| split]]]]];
      try assumption.
    + destruct fuel; cbn [receive_messages];
        fold (ProcessQueueGetChannel p); unfold ProcessQueueGetChannel;
        rewrite Hrun; cbn [mbind option_bind]; rewrite Hprog1;
        rewrite decide_True by reflexivity; reflexivity.
    + rewrite He1. cbn in Hlen. rewrite Nat.add_0_r in Hlen. rewrite Hlen.
      reflexivity.
  - rewrite Hsplit in Hplain, Hnull.
    apply Forall_app in Hplain as [_ Hplain].
    apply Forall_app in Hnull as [_ Hnull].
    apply Forall_cons in Hplain as [Hm_plain Hplain].
    apply Forall_cons in Hnull as [Hm_null Hnull].
    cbn [length] in Hlen.
    destruct fuel as [| fuel]; [lia |].
    set (p2 := AdvanceCurrentMessage p1).
    assert (Hbox2 : mailbox_ p2 = rest') by (cbn; rewrite Hbox1; reflexivity).
    destruct (IH (length rest') ltac:(lia) fuel p2) as
      (p' & Hrec & Hbox' & He' & Hmem' & Hheap' & Himm' & Hsb').
    { rewrite Hbox2. reflexivity. }
    { lia. }
    { rewrite Hbox2. exact Hplain. }
    { rewrite Hbox2. change (program_ p2) with (program_ p1). rewrite Hprog1.
      exact Hnull. }
    exists p'. split; [| split; [| split; [| split; [| split; [| split]]]]].
    + cbn [receive_messages]. unfold ProcessQueueGetChannel. rewrite Hrun.
      cbn [mbind option_bind]. rewrite Hprog1.
      rewrite decide_False by exact Hm_null.
      rewrite (ProcessQueueGetMessage_plain p1 m rest' Hbox1 Hm_plain).
      cbn [mbind option_bind]. fold p2. rewrite Hrec. rewrite Hbox2.
      cbn [mbind option_bind]. unfold live at 2.
      rewrite filter_cons_True by exact Hrest. reflexivity.
    + exact Hbox'.
    + rewrite He'. change (events_ p2) with (events_ p1 ++ [EvAdvanceCurrentMessage]).
      rewrite He1, <- !app_assoc. f_equal. rewrite <- Hlen.
      rewrite replicate_add. f_equal.
    + rewrite Hmem'. exact Hmem1.
    + rewrite Hheap'. exact Hheap1.
    + rewrite Himm'. exact Himm1.
    + rewrite Hsb'. exact Hsb1.
Qed.

(** X10. A mailbox of messages whose payload needs no allocation, none
    of them sent to a channel that is the null object of the program.  A
    receiver that calls [ProcessQueueGetChannel] and then, unless it got
    the null object, [ProcessQueueGetMessage], until it gets the null
    object, receives exactly the messages whose channel is alive, each
    once, in the order of the mailbox and each with its own channel; the
    messages of dead channels are dropped.  It ends with the mailbox
    empty, every message advanced over once, and the heaps and the store
    buffer as they were. *)
Theorem live_messages_are_received_in_order (p : Process) :
  Forall plain (mailbox_ p) ->
  Forall (fun m => HeapPointer (Message_port_channel m)
                   <> null_object (program_ p)) (mailbox_ p) ->
  exists p',
    receive_messages (length (mailbox_ p)) p
    = Some (p', map (fun m => (HeapPointer (Message_port_channel m),
                               Message_object m))
                    (live (mailbox_ p))) /\
    mailbox_ p' = [] /\
    events_ p'
    = events_ p ++ replicate (length (mailbox_ p)) EvAdvanceCurrentMessage /\
    memory_ p' = memory_ p /\ heap_ p' = heap_ p /\
    immutable_heap_ p' = immutable_heap_ p /\
    store_buffer_ p' = store_buffer_ p.
Proof.
  intros Hplain Hnull.
  exact (receive_messages_spec (length (mailbox_ p)) (length (mailbox_ p)) p
           eq_refl (le_n _) Hplain Hnull).
Qed.

End ReceiveProperties.

Section FinalizerProperties.
Context {platform : Platform} {mailbox : Mailbox}.

Lemma SetInstanceField_result a index v p k i fields :
  memory_ p !! a = Some (InstanceObject k i fields) ->
  0 <= index < Z.of_nat (length fields) ->
  Instance_SetInstanceField a index v p
  = Some (set_memory
            (<[a := InstanceObject k i (<[Z.to_nat index := v]> fields)]>
               (memory_ p)) p).
Proof.
  intros Ha Hi. unfold Instance_SetInstanceField, heap_object. rewrite Ha.
  unfold List_set.
  replace ((0 <=? index) && (index <? Z.of_nat (length fields))) with true;
    [reflexivity |].
  symmetry. apply andb_true_iff. split; [apply Z.leb_le | apply Z.ltb_lt]; lia.
Qed.

Lemma SetConsecutiveSmis_result a index v p k i fields :
  memory_ p !! a = Some (InstanceObject k i fields) ->
  0 <= index -> index + 1 < Z.of_nat (length fields) ->
  Instance_SetConsecutiveSmis a index v p
  = Some (set_memory
            (<[a := InstanceObject k i
                      (<[Z.to_nat (index + 1) :=
                           Smi (v / 2 ^ (kBitsPerWord / 2))]>
                         (<[Z.to_nat index :=
                              Smi (v mod 2 ^ (kBitsPerWord / 2))]> fields))]>
               (memory_ p)) p).
Proof.
  intros Ha Hlo Hhi. unfold Instance_SetConsecutiveSmis.
  rewrite (SetInstanceField_result a index _ p k i fields Ha) by lia.
  cbn [mbind option_bind].
  rewrite (SetInstanceField_result a (index + 1) _ _ k i
             (<[Z.to_nat index := Smi (v mod 2 ^ (kBitsPerWord / 2))]> fields)).
  - cbn [memory_ set_memory]. rewrite insert_insert_eq.
    rewrite set_memory_set_memory. reflexivity.
  - cbn [memory_ set_memory]. apply lookup_insert_eq.
  - rewrite length_insert. lia.
Qed.

Lemma half_words_join v :
  is_uword v ->
  to_uword (v mod 2 ^ (kBitsPerWord / 2)
            + v / 2 ^ (kBitsPerWord / 2) * 2 ^ (kBitsPerWord / 2)) = v.
Proof.
  intros Hv. unfold to_uword.
  assert (Hhalf : 0 < 2 ^ (kBitsPerWord / 2)).
  { apply Z.pow_pos_nonneg; [lia |].
    apply Z.div_pos; [| lia]. destruct word_bits as [Hw | Hw]; lia. }
  rewrite Z.add_comm, Z.mul_comm, <- Z.div_mod by lia.
  apply Z.mod_small. exact Hv.
Qed.

(** X11. The foreign memory of a finalized foreign message is accounted
    for and given back.  [ProcessQueueGetMessage] on such a message either
    returns [retry_after_gc] and then has charged and registered nothing,
    or returns a new instance that it has registered with the weak
    pointers of the mutable heap, the very heap it has charged the size
    of the message to; [FinalizeForeign] on this instance and this heap
    then frees the address the message carried and takes the size off
    again, so that the account of the heap is what it was before the
    message. *)
Theorem finalized_foreign_memory_is_refunded
    (p : Process) (queue : Message) (rest : list Message) :
  native_ready p ->
  mailbox_ p = queue :: rest ->
  Message_kind queue = FOREIGN_FINALIZED ->
  is_uword (Message_value queue) ->
  0 <= Message_size queue < 2 ^ 31 ->
  exists p' result,
    ProcessQueueGetMessage p = Some (p', result) /\
    ((result = retry_after_gc /\ heap_ p' = heap_ p /\
      immutable_heap_ p' = immutable_heap_ p) \/
     (exists foreign heap,
        result = HeapPointer foreign /\
        weak_pointers (heap_ p') = foreign :: weak_pointers (heap_ p) /\
        weak_pointers (immutable_heap_ p')
        = weak_pointers (immutable_heap_ p) /\
        foreign_memory (heap_ p')
        = foreign_memory (heap_ p) + Message_size queue /\
        FinalizeForeign foreign (heap_ p') (memory_ p')
        = Some (heap, Message_value queue) /\
        foreign_memory heap = foreign_memory (heap_ p) /\
        weak_pointers heap = weak_pointers (heap_ p'))).
Proof.
  intros (Hfields & _ & _ & Hbase & _) Hbox Hkind Hvalue Hsize.
  unfold ProcessQueueGetMessage. rewrite Hbox. cbn [head mbind option_bind].
  unfold materialize. rewrite Hkind, Hfields. cbn [Nat.eqb negb].
  unfold NewInstance. rewrite Hfields.
  unfold CreateInstance, Heap_create, Allocate.
  set (size := kInstanceSize + Z.of_nat 4 * kWordSize).
  destruct (allocation_top (heap_ p) + size <=? allocation_limit (heap_ p))
    eqn:Hfit.
  2:{ cbn. eexists _, _. split; [reflexivity |]. left. repeat split. }
  apply Z.leb_le in Hfit.
  set (a := allocation_top (heap_ p)) in *.
  set (null := null_object (program_ p)).
  cbn [is_retry_after_gc Instance_cast mbind option_bind].
  match goal with
  | |- context [Instance_SetConsecutiveSmis a 0 _ ?q] => set (p1 := q)
  end.
  assert (Ha1 : memory_ p1 !! a
                = Some (InstanceObject (foreign_memory_class (program_ p))
                          false (replicate 4 null))).
  { unfold p1. cbn. apply lookup_insert_eq. }
  rewrite (SetConsecutiveSmis_result a 0 _ p1 _ _ _ Ha1)
    by (cbn; lia).
  cbn [mbind option_bind].
  match goal with
  | |- context [Instance_SetInstanceField a 2 _ ?q] => set (p2 := q)
  end.
  assert (Hsz : to_int (Message_size queue) = Message_size queue).
  { apply to_int_small. unfold is_int. lia. }
  rewrite Hsz.
  rewrite (SetInstanceField_result a 2 _ p2 (foreign_memory_class (program_ p))
             false
             [Smi (Message_value queue mod 2 ^ (kBitsPerWord / 2));
              Smi (Message_value queue / 2 ^ (kBitsPerWord / 2)); null; null]).
  2:{ unfold p2. cbn. apply lookup_insert_eq. }
  2:{ cbn. lia. }
  cbn [mbind option_bind].
  match goal with
  | |- context [RegisterFinalizer a ?q] => set (p3 := q)
  end.
  assert (Hsize_pos : 0 < size).
  { unfold size. pose proof kWordSize_positive.
    destruct headers_nonneg as (_ & ? & _). lia. }
  assert (Hin : Includes (heap_ p3) a = true).
  { unfold p3, p2, p1, Includes. cbn. apply andb_true_iff.
    split; [apply Z.leb_le | apply Z.ltb_lt]; unfold a in *; lia. }
  unfold RegisterFinalizer. rewrite Hin. cbn [mbind option_bind].
  eexists _, _. split; [reflexivity |]. right.
  exists a. eexists. split; [reflexivity |].
  split; [reflexivity |]. split; [reflexivity |]. split; [reflexivity |].
  split; [| split].
  - unfold FinalizeForeign, Instance_GetConsecutiveSmis,
      Instance_GetInstanceField.
    cbn [memory_ AdvanceCurrentMessage log set_mailbox set_heap set_memory p3].
    rewrite lookup_insert_eq. cbn [List_get Z.leb Z.to_nat mbind option_bind].
    change (0 + 1) with 1. unfold List_get. cbn [Z.leb Z.compare].
    change (Z.to_nat 2) with 2%nat. change (Z.to_nat 0) with 0%nat.
    change (Z.to_nat 1) with 1%nat.
    cbn [list_insert insert lookup list_lookup mbind option_bind].
    rewrite (half_words_join _ Hvalue).
    replace (to_uword (Message_size queue)) with (Message_size queue);
      [reflexivity |].
    symmetry. apply Z.mod_small. pose proof word_size_lower. lia.
  - cbn. lia.
  - reflexivity.
Qed.

End FinalizerProperties.

(** * The properties at the concrete process *)

#[local] Existing Instance platform64.
#[local] Existing Instance example_collector.
#[local] Existing Instance example_mailbox.
#[local] Existing Instance example_dispatch.





(** The stack check of the process interrupted by preempt and profile
    returns [Interrupt] and leaves the profile marker. *)
Lemma HandleStackOverflow_services_one_marker_witness :
  exists p',
    HandleStackOverflow 4 example_interrupted = Some (p', kStackCheckInterrupt) /\
    stack_limit_ p' = kMaxStackMarker + 2 /\
    memory_ p' = example_memory.
Proof.
  destruct (HandleStackOverflow_services_one_marker 4 example_interrupted
              4096 example_stack Preempt)
    as (p' & Hr & _ & Hl & _ & Hm & _).
  - vm_compute. reflexivity.
  - vm_compute. split; [discriminate | reflexivity].
  - vm_compute. discriminate.
  - vm_compute. reflexivity.
  - exists p'. split; [exact Hr | split; [exact Hl | exact Hm]].
Defined.

(** [NewStack(8)] puts its stack in the store buffer; [NewArray(8)] leaves
    the store buffer as it was. *)
Lemma NewStack_inserts_NewArray_does_not_witness :
  (exists a, snd (NewStack 8 example_process) = HeapPointer a /\
             a ∈ store_buffer_ (fst (NewStack 8 example_process))) /\
  store_buffer_ (fst (NewArray 8 example_process)) = [4096].
Proof.
  destruct (NewStack_inserts_NewArray_does_not 8 example_process
              (fst (NewStack 8 example_process))
              (fst (NewArray 8 example_process))
              (snd (NewStack 8 example_process))
              (snd (NewArray 8 example_process)))
    as ((a & Ha & Hin & _) & Hb & _).
  - vm_compute. reflexivity.
  - vm_compute. reflexivity.
  - vm_compute. reflexivity.
  - split; [exists a; split; [exact Ha | exact Hin] | exact Hb].
Defined.

(** C1, refuted as stated: [NewArray(8)] returns an array that is not a
    failure and is not in the store buffer. *)
Lemma NewArray_result_not_in_store_buffer :
  exists p' a,
    NewArray 8 example_process = (p', HeapPointer a) /\
    IsFailure (HeapPointer a) = false /\
    a ∉ store_buffer_ p'.
Proof.
  eexists _, 6200. split; [vm_compute; reflexivity |].
  split; [reflexivity |].
  apply (bool_decide_unpack (6200 ∉ [4096])). vm_compute. exact I.
Qed.


(** With no room left, the stack check collects once, allocates again and
    installs the new stack. *)
Lemma HandleStackOverflow_retries_once_witness :
  exists p2 p3 o2,
    CollectMutableGarbage (fst (NewStack 512 example_full)) = Some p2 /\
    NewStack 512 p2 = (p3, o2) /\
    events_ p2 = [EvAllocate retry_after_gc; EvCollectMutableGarbage;
                  EvUpdateStackLimit] /\
    HandleStackOverflow 4 example_full = install_new_stack o2 p3 /\
    snd <$> HandleStackOverflow 4 example_full = Some kStackCheckContinue.
Proof.
  assert (Hgc : is_Some (CollectMutableGarbage (fst (NewStack 512 example_full))))
    by (vm_compute; eauto).
  destruct Hgc as [p2 Hgc].
  destruct (HandleStackOverflow_retries_once 4 example_full
              (fst (NewStack 512 example_full)) 4096 example_stack
              (snd (NewStack 512 example_full)))
    as (_ & Hretry & _).
  - left. vm_compute. reflexivity.
  - vm_compute. reflexivity.
  - vm_compute. discriminate.
  - vm_compute. reflexivity.
  - assert (Hpair : NewStack (grown_size 4 example_stack) p2
                    = (fst (NewStack 512 p2), snd (NewStack 512 p2)))
      by apply surjective_pairing.
    destruct (Hretry ltac:(vm_compute; reflexivity) p2
                (fst (NewStack 512 p2)) (snd (NewStack 512 p2)) Hgc Hpair)
      as (Hev & _ & Hok).
    exists p2, (fst (NewStack 512 p2)), (snd (NewStack 512 p2)).
    split; [exact Hgc |]. split; [apply surjective_pairing |].
    split; [exact Hev |]. split; [| vm_compute; reflexivity]. apply Hok.
    injection Hgc as <-. vm_compute. discriminate.
Defined.

(** A lookup that finds its method returns an entry with tag 1. *)
Lemma LookupEntrySlow_tag_witness :
  exists cache' e entry,
    LookupEntrySlow false 0 1 7 example_cache = Some (cache', e) /\
    entry_at cache' e = Some entry /\
    Entry_tag entry = 1.
Proof.
  destruct (LookupEntrySlow_tag 0 1 7 example_cache)
    as (cache' & e & entry & Hr & He & _ & Hmiss).
  - split; [vm_compute; split; [discriminate | reflexivity] |].
    intros c s. apply Z.mod_pos_bound. reflexivity.
  - left. vm_compute. discriminate.
  - exists cache', e, entry. split; [exact Hr | split; [exact He |]].
    destruct (Hmiss ltac:(vm_compute; reflexivity)) as (_ & _ & _ & Hfound & _).
    destruct (Hfound ltac:(vm_compute; discriminate)) as (_ & Htag & _).
    exact Htag.
Defined.

(** C2, refuted as stated: for the selector [9], which the class [1] does
    not understand, the lookup falls back to the trampoline and returns an
    entry whose tag is zero. *)
Lemma LookupEntrySlow_fallback_tag_zero :
  exists cache' entry,
    LookupMethod 1 9 = 0 /\
    LookupEntrySlow false 0 1 9 example_cache = Some (cache', InPrimary 0) /\
    entry_at cache' (InPrimary 0) = Some entry /\
    Entry_target entry = 800 /\
    Entry_tag entry = 0.
Proof.
  eexists _, _. split; [reflexivity |].
  split; [vm_compute; reflexivity |].
  split; [vm_compute; reflexivity |]. split; reflexivity.
Qed.





(** A decidable proposition, by evaluation of its decision. *)
Ltac by_evaluation := apply (bool_decide_unpack _); vm_compute; exact I.

Lemma example_chain_stack_chain :
  stack_chain (memory_ example_two) (HeapPointer 4096) example_chain.
Proof.
  split; [cbn; auto |]. split; [by_evaluation |].
  repeat constructor; vm_compute; reflexivity.
Qed.

Lemma example_chain_fits : Forall (frames_fit 256) example_chain.
Proof.
  repeat constructor; try (vm_compute; lia);
    exists [250%nat; 252%nat; 255%nat];
    (split; [vm_compute; reflexivity | unfold bcp_slots_ok; by_evaluation]).
Qed.

Lemma example_chain_restorable :
  Forall (restorable example_program) example_chain.
Proof.
  repeat constructor; unfold restorable, is_int; by_evaluation.
Qed.

(** Cooking and uncooking the two stacks of the example chain gives the
    process back with the first stack unchained. *)
Lemma CookStacks_UncookAndUnchainStacks_restores_witness :
  exists p1,
    CookStacks 2 example_two = Some p1 /\
    UncookAndUnchainStacks p1
    = Some (set_cooked_stack_deltas []
              (set_memory
                 (store_stacks (unchained example_chain) (memory_ example_two))
                 example_two)).
Proof.
  exact (CookStacks_UncookAndUnchainStacks_restores example_two
           (HeapPointer 4096) example_chain 4096 example_first_stack
           ltac:(reflexivity) example_chain_stack_chain ltac:(reflexivity)
           example_chain_fits example_chain_restorable).
Defined.

Lemma example_moved_stack_chain :
  stack_chain (memory_ example_moved) (HeapPointer 4096) example_moved_chain.
Proof.
  split; [cbn; auto |]. split; [by_evaluation |].
  repeat constructor; vm_compute; reflexivity.
Qed.

Lemma example_moved_cooked :
  Forall2 cooked_with example_moved_chain (cooked_stack_deltas_ example_moved).
Proof.
  repeat constructor; try (vm_compute; lia); try (vm_compute; discriminate);
    exists [250%nat; 252%nat; 255%nat];
    (split; [vm_compute; reflexivity | unfold bcp_slots_ok; by_evaluation]).
Qed.

(** Uncooking the example chain after its two functions moved up by 4096:
    the byte-code pointers of the second stack are rebuilt 4096 higher. *)
Lemma UncookAndUnchainStacks_rebuilds_witness :
  exists q' s',
    UncookAndUnchainStacks example_moved = Some q' /\
    cooked_stack_deltas_ q' = [] /\
    stack_at 8192 q' = Some s' /\
    Stack_next s' = Smi 0 /\
    Stack_words s' !! 251%nat = Some (2101248 + 32 + 5) /\
    Stack_words s' !! 254%nat = Some (2101504 + 32 + 12).
Proof.
  destruct (UncookAndUnchainStacks_rebuilds example_moved (HeapPointer 4096)
              example_moved_chain eq_refl example_moved_stack_chain
              example_moved_cooked) as (q' & Hq & Hd & Hs).
  destruct (Hs 1%nat 8192 _ [5; 12] eq_refl eq_refl)
    as (s' & Hat & Hn & _ & _ & Hslots & _).
  exists q', s'.
  split; [exact Hq |]. split; [exact Hd |]. split; [exact Hat |].
  split; [exact Hn |]. split.
  - exact (Hslots 0%nat 251%nat 2101248 5 ltac:(vm_compute; reflexivity)
             ltac:(vm_compute; reflexivity) eq_refl).
  - exact (Hslots 1%nat 254%nat 2101504 12 ltac:(vm_compute; reflexivity)
             ltac:(vm_compute; reflexivity) eq_refl).
Defined.

(** C5, at the failing input.  The current stack has 256 words and its
    [next] is a stack of 1024 words with 257 frames.  [CookStacks(2)] sizes
    the delta list of every stack by the length of the current stack, 256:
    the frame loop of the second stack stores its 257th delta outside the
    list, and the pass has no result.  With a list of the length of the
    stack being walked, the same loop returns. *)
Theorem CookStacks_delta_list_too_short :
  Coroutine_stack example_chained = Some (HeapPointer 4096) /\
  stack_chain (memory_ example_chained) (HeapPointer 4096) deep_chain /\
  Forall (restorable example_program) deep_chain /\
  Stack_length example_first_stack = 256 /\
  Stack_length deep_stack = 1024 /\
  length (frame_slots 8192 deep_stack) = 257%nat /\
  CookStacks 2 example_chained = None /\
  while_MovePrevious (cook_frame example_program) (frame_fuel deep_stack)
    8192 (Stack_words deep_stack) (Stack_Pointer 8192 (Stack_top deep_stack))
    (replicate 256 0, 0) = None /\
  is_Some
    (while_MovePrevious (cook_frame example_program) (frame_fuel deep_stack)
       8192 (Stack_words deep_stack)
       (Stack_Pointer 8192 (Stack_top deep_stack)) (replicate 1024 0, 0)).
Proof.
  split; [vm_compute; reflexivity |].
  split.
  { split; [cbn; auto |]. split; [by_evaluation |].
    repeat constructor; vm_compute; reflexivity. }
  split; [unfold restorable, is_int; by_evaluation |].
  split; [vm_compute; reflexivity |].
  split; [vm_compute; reflexivity |].
  split; [vm_compute; reflexivity |].
  split; [vm_compute; reflexivity |].
  split; [vm_compute; reflexivity |].
  vm_compute. eauto.
Qed.

(** Profile, preempt and profile again: the next two stack checks return
    [Interrupt] and [Continue], and the limit is back at 4400. *)
Lemma requested_interrupts_are_delivered_once_witness :
  exists p1 p2,
    requests [(Profile, [true]); (Preempt, []); (Profile, [false; true])]
      example_process = Some p1 /\
    stack_checks 2 4 p1
      = Some (p2, [kStackCheckInterrupt; kStackCheckContinue]) /\
    stack_limit_ p2 = 4400 /\ memory_ p2 = example_memory.
Proof.
  destruct (requested_interrupts_are_delivered_once
              [(Profile, [true]); (Preempt, []); (Profile, [false; true])]
              4 example_process 4096 example_stack
              ltac:(vm_compute; reflexivity)
              ltac:(vm_compute; split; discriminate))
    as (p1 & p2 & Hr & _ & Hc & Hl & Hm & _).
  exists p1, p2. split; [exact Hr |]. split; [exact Hc |].
  split; [exact Hl | exact Hm].
Defined.


(** The pass over the two chained stacks returns for [n = 2], and for no
    other count near it. *)
Lemma CookStacks_returns_only_on_whole_chain_witness :
  (exists raw chain,
     Coroutine_stack example_two = Some raw /\
     stack_chain (memory_ example_two) raw chain /\
     length chain = 2%nat) /\
  CookStacks 1 example_two = None /\
  CookStacks 3 example_two = None.
Proof.
  split; [| split; vm_compute; reflexivity].
  destruct (CookStacks 2 example_two) as [p' |] eqn:E;
    [| vm_compute in E; discriminate].
  destruct (CookStacks_returns_only_on_whole_chain 2 example_two p' E)
    as (raw & chain & Hr & Hc & Hl & _).
  exists raw, chain. split; [exact Hr |]. split; [exact Hc | exact Hl].
Defined.

Lemma ChainStack_builds_the_chain_witness :
  let chain :=
    [(4096, Stack_set_next (HeapPointer 8192) example_stack);
     (8192, Stack_set_next (Smi 0) example_second_stack)] in
  exists v' p',
    ChainStacks [4096; 8192] {| to_ := example_heap; number_of_stacks_ := 0 |}
      example_unchained
    = Some (v', p') /\
    number_of_stacks_ v' = 2 /\
    Coroutine_stack p' = Some (HeapPointer 4096) /\
    stack_chain (memory_ p') (HeapPointer 4096) chain /\
    (forall b, b <> 4096 -> b ∉ [8192] ->
               memory_ p' !! b = memory_ example_unchained !! b) /\
    exists p'',
      CookStacks (number_of_stacks_ v') p' = Some p'' /\
      length (cooked_stack_deltas_ p'') = 2%nat.
Proof.
  destruct (ChainStack_builds_the_chain example_heap
              [(8192, example_second_stack)] example_unchained 4096
              example_stack
              ltac:(vm_compute; reflexivity) ltac:(reflexivity)
              ltac:(reflexivity)
              ltac:(apply (bool_decide_unpack _); vm_compute; exact I)
              ltac:(repeat constructor)
              ltac:(vm_compute; reflexivity))
    as (v' & p' & Hrun & Hcount & Hco & Hchain & Hframe & Hcook).
  exists v', p'.
  repeat split; try assumption; try apply Hchain.
  apply Hcook. pose proof example_chain_fits as Hfit.
  apply Forall_cons in Hfit as [Hfirst Hfit].
  apply Forall_cons in Hfit as [Hsecond _].
  apply Forall_cons. split; [exact Hfirst |].
  apply Forall_cons. split; [exact Hsecond | constructor].
Defined.

#[local] Existing Instance example_board.

Lemma _sbrk_hands_out_adjacent_blocks_witness :
  let st := {| heap_end := 0; errno := 0 |} in
  let incrs := [4096; 0x50000; 16; 0] in
  let st' := (sbrk_calls incrs st).1 in
  let rs := (sbrk_calls incrs st).2 in
  rs = [0x20001000; to_pointer (-1); 0x20002000; 0x20002010] /\
  rs = bump stack_bottom 0x20001000 incrs /\
  adjacent 0x20001000 (granted incrs rs) /\
  Forall (fun b => 0x20001000 <= b.1 /\ b.1 + b.2 <= stack_bottom)
    (granted incrs rs) /\
  current_break st' = 0x20001000 + total_size (granted incrs rs) /\
  errno st' = ENOMEM.
Proof.
  split; [vm_compute; reflexivity |].
  exact (_sbrk_hands_out_adjacent_blocks (board := example_board)
           [4096; 0x50000; 16; 0]
           {| heap_end := 0; errno := 0 |}
           ltac:(vm_compute; reflexivity)
           ltac:(vm_compute; discriminate)
           ltac:(vm_compute; split; discriminate)
           ltac:(repeat constructor; vm_compute; discriminate)).
Defined.

Lemma every_signal_is_released_once_witness :
  let st := signal_run example_race (0, map sender_start [100; 200]) in
  exists released,
    Process_destructor {| ports_ := 0; next_ := 0; signal_ := 200 |}
      example_process = Some released /\
    (forall i t, st.2 !! i = Some t -> sender_installed t = false ->
       sender_decrements t = 1%nat) /\
    (forall i t, st.2 !! i = Some t -> sender_installed t = true ->
       sender_decrements t = 0%nat /\ released = [sender_signal t]) /\
    ((forall i t, st.2 !! i = Some t -> sender_installed t = false) ->
     released = []).
Proof.
  exact (every_signal_is_released_once example_race [100; 200]
           {| ports_ := 0; next_ := 0; signal_ := 200 |} example_process
           ltac:(repeat constructor; discriminate)
           ltac:(vm_compute; repeat constructor)
           ltac:(vm_compute; reflexivity)
           ltac:(reflexivity) ltac:(reflexivity) ltac:(reflexivity)).
Defined.

#[local] Existing Instance example_ports.

Lemma live_messages_are_received_in_order_witness :
  exists p',
    receive_messages 4 example_waiting
    = Some (p', [(HeapPointer 12288, Smi 2); (HeapPointer 12288, Smi 4)]) /\
    mailbox_ p' = [] /\
    events_ p'
    = events_ example_waiting ++ replicate 4 EvAdvanceCurrentMessage /\
    memory_ p' = memory_ example_waiting /\ heap_ p' = heap_ example_waiting /\
    immutable_heap_ p' = immutable_heap_ example_waiting /\
    store_buffer_ p' = store_buffer_ example_waiting.
Proof.
  exact (live_messages_are_received_in_order (ports := example_ports)
           example_waiting
           ltac:(repeat constructor)
           ltac:(repeat constructor; discriminate)).
Defined.

Lemma finalized_foreign_memory_is_refunded_witness :
  snd <$> ProcessQueueGetMessage example_foreign_waiting
  = Some (HeapPointer 6200) /\
  exists p' result,
    ProcessQueueGetMessage example_foreign_waiting = Some (p', result) /\
    ((result = retry_after_gc /\ heap_ p' = heap_ example_foreign_waiting /\
      immutable_heap_ p' = immutable_heap_ example_foreign_waiting) \/
     (exists foreign heap,
        result = HeapPointer foreign /\
        weak_pointers (heap_ p')
        = foreign :: weak_pointers (heap_ example_foreign_waiting) /\
        weak_pointers (immutable_heap_ p')
        = weak_pointers (immutable_heap_ example_foreign_waiting) /\
        foreign_memory (heap_ p')
        = foreign_memory (heap_ example_foreign_waiting) + 128 /\
        FinalizeForeign foreign (heap_ p') (memory_ p') = Some (heap, 40960) /\
        foreign_memory heap = foreign_memory (heap_ example_foreign_waiting) /\
        weak_pointers heap = weak_pointers (heap_ p'))).
Proof.
  split; [vm_compute; reflexivity |].
  exact (finalized_foreign_memory_is_refunded example_foreign_waiting
           example_foreign []
           ltac:(repeat split; vm_compute; try reflexivity; try discriminate;
                 lia)
           ltac:(reflexivity) ltac:(reflexivity)
           ltac:(vm_compute; split; [discriminate | reflexivity])
           ltac:(vm_compute; split; [discriminate | reflexivity])).
Defined.
